(** * A shallow embedding of the youtube-dl command-line wrapper

    The repository has three scripts: [index.js] (entry point A),
    [bin/index.js] (entry point B, the two-pass variant) and
    [bin/batch-download.js] (the batch driver).  This development embeds
    their pure helpers as functions, their effectful parts as functions
    over an explicit world, and proves the properties of the
    specification about them. *)

From Stdlib Require Import String Ascii DecimalString DecimalPos.
From Stdlib Require DecimalN.
From Stdlib Require Import List ZArith NArith Lia Bool.
From Stdlib Require Import Permutation Sorted.
Import ListNotations.

Set Implicit Arguments.

(** ** JavaScript strings

    A JavaScript string is a sequence of UTF-16 code units; the regular
    expressions of the scripts carry no [u] flag, so they match code unit
    by code unit.  Hangul lives above the ASCII range, hence code units
    are numbers and not [ascii]. *)

Module JS.

Local Open Scope N_scope.

Definition codeunit := N.
Definition jsstring := list codeunit.

(** An ASCII literal of the source, as code units. *)
Definition lit (s : string) : jsstring :=
  map N_of_ascii (list_ascii_of_string s).

Arguments lit s%_string.

Definition in_range (lo hi c : codeunit) : bool :=
  (N.leb lo c && N.leb c hi)%bool.

(** [\w] without the [u] and [i] flags: [A-Za-z0-9_]. *)
Definition is_word (c : codeunit) : bool :=
  (in_range 65 90 c || in_range 97 122 c || in_range 48 57 c
   || N.eqb c 95)%bool.

(** [\s], and also what [String.prototype.trim] strips: WhiteSpace and
    LineTerminator of ECMA-262. *)
Definition is_space (c : codeunit) : bool :=
  (in_range 9 13 c || N.eqb c 32 || N.eqb c 160 || N.eqb c 5760
   || in_range 8192 8202 c || N.eqb c 8232 || N.eqb c 8233
   || N.eqb c 8239 || N.eqb c 8287 || N.eqb c 12288 || N.eqb c 65279)%bool.

(** JavaScript truthiness of a string value: the empty string is falsy. *)
Definition truthy_str (s : jsstring) : bool :=
  match s with [] => false | _ :: _ => true end.

(** Truthiness of an optional string property ([undefined] is falsy). *)
Definition truthy_ostr (o : option jsstring) : bool :=
  match o with Some s => truthy_str s | None => false end.

(** The string an optional property holds once it has been found truthy. *)
Definition str_of (o : option jsstring) : jsstring :=
  match o with Some s => s | None => [] end.

(** [a || b] on optional strings. *)
Definition or_else (a b : option jsstring) : option jsstring :=
  if truthy_ostr a then a else b.

(** [s.replace(/[cls]/g, rep)] for a replacement without [$]. *)
Definition replace_each (cls : codeunit -> bool) (rep : jsstring)
    (s : jsstring) : jsstring :=
  flat_map (fun c => if cls c then rep else [c]) s.

(** [s.replace(/[cls]+/g, rep)]: every maximal run of [cls] characters is
    one match.  [in_run] says the previous character was part of a run
    that has been replaced already. *)
Fixpoint replace_runs_from (cls : codeunit -> bool) (rep : jsstring)
    (in_run : bool) (s : jsstring) : jsstring :=
  match s with
  | [] => []
  | c :: r =>
      if cls c then
        if in_run then replace_runs_from cls rep true r
        else rep ++ replace_runs_from cls rep true r
      else c :: replace_runs_from cls rep false r
  end.

Definition replace_runs (cls : codeunit -> bool) (rep : jsstring)
    (s : jsstring) : jsstring :=
  replace_runs_from cls rep false s.

(** [s.substring(0, n)]. *)
Definition substring0 (n : nat) (s : jsstring) : jsstring := firstn n s.

(** [s.startsWith(p)]. *)
Fixpoint startsWith (p s : jsstring) : bool :=
  match p, s with
  | [], _ => true
  | _ :: _, [] => false
  | a :: p', b :: s' => (N.eqb a b && startsWith p' s')%bool
  end.

(** [s.includes(p)]. *)
Fixpoint includes (p s : jsstring) : bool :=
  (startsWith p s ||
   match s with [] => false | _ :: s' => includes p s' end)%bool.

(** Strict equality of two strings. *)
Fixpoint str_eqb (a b : jsstring) : bool :=
  match a, b with
  | [], [] => true
  | x :: a', y :: b' => (N.eqb x y && str_eqb a' b')%bool
  | _, _ => false
  end.

End JS.

Import JS.

(** ** Name sanitizers ([index.js] 110-122, [bin/index.js] 90-102)

    Both entry points carry the same two functions, character for
    character. *)

Module NameSanitizer.

Local Open Scope N_scope.

(** The character class of both first replacements: the nine characters
    less-than, greater-than, colon, double quote, slash, backslash,
    vertical bar, question mark and asterisk. *)
Definition is_forbidden (c : codeunit) : bool :=
  (N.eqb c 60 || N.eqb c 62 || N.eqb c 58 || N.eqb c 34 || N.eqb c 47
   || N.eqb c 92 || N.eqb c 124 || N.eqb c 63 || N.eqb c 42)%bool.

(** The complement of the class
    [[^\w\-_\uAC00-\uD7AF\u1100-\u11FF\u3130-\u318F]]. *)
Definition is_allowed (c : codeunit) : bool :=
  (is_word c || N.eqb c 45 || N.eqb c 95
   || in_range 44032 55215 c || in_range 4352 4607 c
   || in_range 12592 12687 c)%bool.

Definition underscore : jsstring := [95].

Definition minimalSanitizeFilename (name : jsstring) : jsstring :=
  replace_each is_forbidden underscore name.

Definition sanitizeFolderName (name : jsstring) : jsstring :=
  substring0 100%nat
    (replace_each (fun c => negb (is_allowed c)) []
       (replace_runs is_space underscore
          (replace_each is_forbidden underscore name))).

(** The four steps in the words of the specification. *)

(** (a) each forbidden character becomes an underscore. *)
Definition step_forbidden (s : jsstring) : jsstring :=
  map (fun c => if is_forbidden c then 95%N else c) s.

(** (b) a whitespace character that starts a run becomes an underscore,
    the other characters of the run disappear.  [prev] is the character
    before the current one, if any. *)
Fixpoint step_collapse_after (prev : option codeunit) (s : jsstring)
    : jsstring :=
  match s with
  | [] => []
  | c :: r =>
      let starts_run :=
        match prev with Some p => negb (is_space p) | None => true end in
      (if is_space c then (if starts_run then [95%N] else []) else [c])
        ++ step_collapse_after (Some c) r
  end.

Definition step_collapse (s : jsstring) : jsstring :=
  step_collapse_after None s.

(** (c) only the allowed characters stay. *)
Definition step_strip (s : jsstring) : jsstring := filter is_allowed s.

(** The class of the source, read as the specification words it:
    an ASCII word character, a hyphen, an underscore, or a code unit of
    the three Hangul ranges. *)
Definition allowed_char (c : codeunit) : Prop :=
  (65 <= c <= 90 \/ 97 <= c <= 122 \/ 48 <= c <= 57 \/ c = 95)
  \/ c = 45 \/ c = 95
  \/ 44032 <= c <= 55215 \/ 4352 <= c <= 4607 \/ 12592 <= c <= 12687.

(** (d) at most 100 code units stay. *)
Definition step_truncate (s : jsstring) : jsstring := firstn 100%nat s.

End NameSanitizer.

(** ** Numbers as text

    The date fields are small natural numbers, which
    [Number.prototype.toString] writes in decimal.  The quality floor is
    whatever [parseInt] answers: a double, which has 53 significant
    bits, may be infinite, and is written with the fewest digits that
    read back as the same double. *)

Module Num.

Local Open Scope N_scope.

Definition N_toString (n : N) : jsstring :=
  lit (NilEmpty.string_of_uint (N.to_uint n)).

(** A number that [parseInt] can answer, other than [NaN]: a double
    with an integer value, or an infinity.  Minus zero is [Finite 0]: it
    is falsy and never written. *)
Inductive Number :=
| Finite (z : Z)
| Infinite (negative : bool).

(** Truthiness of an optional number: [undefined], [NaN] (both [None]
    here) and zero are falsy. *)
Definition truthy_number (q : option Number) : bool :=
  match q with
  | Some (Finite z) => negb (Z.eqb z 0)
  | Some (Infinite _) => true
  | None => false
  end.

(** The double nearest to a natural number, ties to the even
    significand; [None] is [Infinity]. *)
Definition round_double (n : N) : option N :=
  if n <? 2 ^ 53 then Some n
  else
    let e := N.log2 n - 52 in
    let q := N.shiftr n e in
    let r := n - N.shiftl q e in
    let half := 2 ^ (e - 1) in
    let q' := if ((half <? r) || ((r =? half) && N.odd q))%bool
              then q + 1 else q in
    let v := N.shiftl q' e in
    if 2 ^ 1024 <=? v then None else Some v.

Definition digits (n : N) : nat := length (N_toString n).

Definition rounds_to (x c : N) : bool :=
  match round_double c with Some v => v =? x | None => false end.

(** [Number::toString], step 5 of ECMA-262: the decimal of [k]
    significant digits nearest to the double [x], if it reads back as
    [x]; of two equally near ones the even one. *)
Definition candidate (x : N) (k : nat) : option N :=
  let p := 10 ^ N.of_nat (digits x - k)%nat in
  let lo := x / p * p in
  let hi := lo + p in
  match rounds_to x lo, rounds_to x hi with
  | true, true =>
      if x - lo <? hi - x then Some lo
      else if hi - x <? x - lo then Some hi
      else if N.even (x / p) then Some lo else Some hi
  | true, false => Some lo
  | false, true => Some hi
  | false, false => None
  end.

(** The least [k] that has such a decimal. *)
Fixpoint shortest_from (x : N) (k fuel : nat) : N :=
  match fuel with
  | O => x
  | S fuel' =>
      match candidate x k with
      | Some c => c
      | None => shortest_from x (S k) fuel'
      end
  end.

Definition shortest (x : N) : N := shortest_from x 1 (digits x).

(** A decimal without its trailing zeros. *)
Fixpoint significand (fuel : nat) (c : N) : N :=
  match fuel with
  | O => c
  | S fuel' => if c mod 10 =? 0 then significand fuel' (c / 10) else c
  end.

(** Steps 6 to 10 for a positive double with an integer value: all the
    digits below 10^21, and from there on the significant digits, a
    point after the first of them if there are more, and the exponent. *)
Definition positive_toString (x : N) : jsstring :=
  let c := shortest x in
  if c <? 10 ^ 21 then N_toString c
  else
    match N_toString (significand (digits c) c) with
    | [] => []
    | d :: more =>
        d :: match more with [] => [] | _ :: _ => lit "." ++ more end
        ++ lit "e+" ++ N_toString (N.of_nat (digits c - 1)%nat)
    end.

(** The text a template literal writes for a number. *)
Definition Number_toString (q : Number) : jsstring :=
  match q with
  | Finite Z0 => lit "0"
  | Finite (Zpos p) => positive_toString (Npos p)
  | Finite (Zneg p) => lit "-" ++ positive_toString (Npos p)
  | Infinite false => lit "Infinity"
  | Infinite true => lit "-Infinity"
  end.

(** [s.slice(-k)]: the last [k] code units. *)
Definition slice_last (k : nat) (s : jsstring) : jsstring :=
  skipn (length s - k)%nat s.

(** [s.padStart(k, '0')]. *)
Definition padStart0 (k : nat) (s : jsstring) : jsstring :=
  repeat 48%N (k - length s)%nat ++ s.

End Num.

(** ** Date and time placeholders ([index.js] 59-108,
    [bin/index.js] 39-88) *)

Module Placeholder.

Import Num.

(** What [new Date()] answers to the six getters of the source. *)
Record Clock := {
  getFullYear : N;
  getMonth : N;
  getDate : N;
  getHours : N;
  getMinutes : N;
  getSeconds : N
}.

Record DateTimeContext := {
  fullTime : jsstring;
  date : jsstring;
  year : jsstring;
  y : jsstring;
  month : jsstring;
  m : jsstring;
  day : jsstring;
  d : jsstring;
  time : jsstring;
  hour : jsstring;
  h : jsstring;
  minute : jsstring;
  min : jsstring;
  second : jsstring;
  sec : jsstring
}.

Definition getCurrentDateTime (now : Clock) : DateTimeContext :=
  let year := slice_last 2 (N_toString (getFullYear now)) in
  let month := padStart0 2 (N_toString (getMonth now + 1)) in
  let day := padStart0 2 (N_toString (getDate now)) in
  let hours := padStart0 2 (N_toString (getHours now)) in
  let minutes := padStart0 2 (N_toString (getMinutes now)) in
  let seconds := padStart0 2 (N_toString (getSeconds now)) in
  {| fullTime := year ++ month ++ day ++ lit "_" ++ hours ++ minutes ++ seconds;
     date := year ++ month ++ day;
     year := year;
     y := year;
     month := month;
     m := month;
     day := day;
     d := day;
     time := hours ++ minutes ++ seconds;
     hour := hours;
     h := hours;
     minute := minutes;
     min := minutes;
     second := seconds;
     sec := seconds |}.

(** [s.replace(/pat/g, rep)] for a pattern that is a non-empty literal
    and a replacement without [$] (the fields are digits and
    underscores): the matches are found from left to right and do not
    overlap.  [skip] counts the code units of the last
    match that are still to be passed over. *)
Fixpoint replace_all_from (pat rep : jsstring) (skip : nat) (s : jsstring)
    : jsstring :=
  match s with
  | [] => []
  | c :: r =>
      match skip with
      | S k => replace_all_from pat rep k r
      | O =>
          if startsWith pat s
          then rep ++ replace_all_from pat rep (length pat - 1) r
          else c :: replace_all_from pat rep 0 r
      end
  end.

Definition replace_all (pat rep : jsstring) (s : jsstring) : jsstring :=
  replace_all_from pat rep 0 s.

(** The chain of fifteen [replace] calls, receiver first. *)
Definition replacePlaceholdersWith (dateTime : DateTimeContext)
    (folderName : jsstring) : jsstring :=
  replace_all (lit "{sec}") (sec dateTime)
  (replace_all (lit "{second}") (second dateTime)
  (replace_all (lit "{min}") (min dateTime)
  (replace_all (lit "{minute}") (minute dateTime)
  (replace_all (lit "{h}") (h dateTime)
  (replace_all (lit "{hour}") (hour dateTime)
  (replace_all (lit "{time}") (time dateTime)
  (replace_all (lit "{d}") (d dateTime)
  (replace_all (lit "{day}") (day dateTime)
  (replace_all (lit "{m}") (m dateTime)
  (replace_all (lit "{month}") (month dateTime)
  (replace_all (lit "{y}") (y dateTime)
  (replace_all (lit "{year}") (year dateTime)
  (replace_all (lit "{date}") (date dateTime)
  (replace_all (lit "{fullTime}") (fullTime dateTime)
     folderName)))))))))))))).

Definition replacePlaceholders (now : Clock) (folderName : jsstring)
    : jsstring :=
  replacePlaceholdersWith (getCurrentDateTime now) folderName.

(** The specification's reading: one pass over the template; wherever a
    recognized token stands, its field is written and the token is passed
    over; every other code unit is copied. *)
Definition token_table (dateTime : DateTimeContext)
    : list (jsstring * jsstring) :=
  [ (lit "{fullTime}", fullTime dateTime);
    (lit "{date}", date dateTime);
    (lit "{year}", year dateTime);
    (lit "{y}", y dateTime);
    (lit "{month}", month dateTime);
    (lit "{m}", m dateTime);
    (lit "{day}", day dateTime);
    (lit "{d}", d dateTime);
    (lit "{time}", time dateTime);
    (lit "{hour}", hour dateTime);
    (lit "{h}", h dateTime);
    (lit "{minute}", minute dateTime);
    (lit "{min}", min dateTime);
    (lit "{second}", second dateTime);
    (lit "{sec}", sec dateTime) ].

Definition token_at (table : list (jsstring * jsstring)) (s : jsstring)
    : option (jsstring * jsstring) :=
  find (fun e => startsWith (fst e) s) table.

Fixpoint substitute_from (table : list (jsstring * jsstring)) (skip : nat)
    (s : jsstring) : jsstring :=
  match s with
  | [] => []
  | c :: r =>
      match skip with
      | S k => substitute_from table k r
      | O =>
          match token_at table s with
          | Some (tok, v) => v ++ substitute_from table (length tok - 1) r
          | None => c :: substitute_from table 0 r
          end
      end
  end.

Definition substitute (table : list (jsstring * jsstring)) (s : jsstring)
    : jsstring :=
  substitute_from table 0 s.

(** The shape of the tokens: an opening brace, letters, a closing brace;
    and the characters of the fields: digits and the underscore. *)
Definition is_letter (c : codeunit) : bool :=
  (in_range 65 90 c || in_range 97 122 c)%N%bool.

Definition braced (tok : jsstring) : Prop :=
  exists body,
    tok = 123%N :: body ++ [125%N] /\ Forall (fun c => is_letter c = true) body.

Definition is_plain (c : codeunit) : bool :=
  (in_range 48 57 c || N.eqb c 95)%N%bool.

Definition plain (v : jsstring) : Prop :=
  v <> [] /\ Forall (fun c => is_plain c = true) v.

Definition recognized_tokens : list jsstring :=
  map lit
    [ "{fullTime}"; "{date}"; "{year}"; "{y}"; "{month}"; "{m}"; "{day}";
      "{d}"; "{time}"; "{hour}"; "{h}"; "{minute}"; "{min}"; "{second}";
      "{sec}" ]%string.

End Placeholder.

(** ** Format catalogue ([index.js] 147-171 and 284-306,
    [bin/index.js] 127-151 and 264-286) *)

Module FormatCatalog.

(** A format descriptor of the downloader's metadata.  A property that is
    [null] or missing is [None].  Heights and bitrates are compared and
    subtracted only, so they are modelled as integers. *)
Record Format := {
  format_id : jsstring;
  ext : jsstring;
  vcodec : option jsstring;
  acodec : option jsstring;
  height : option Z;
  abr : option Z;
  filesize : option Z
}.

(** Truthiness of a numeric property: [null], [undefined] and [0] are
    falsy. *)
Definition truthy_num (o : option Z) : bool :=
  match o with Some z => negb (Z.eqb z 0) | None => false end.

(** [x === 'none'] for a codec property. *)
Definition is_none (o : option jsstring) : bool :=
  match o with Some s => str_eqb s (lit "none") | None => false end.

(** The number a numeric property reads as under [-]; the filters let
    only truthy heights reach the comparator. *)
Definition num_of (o : option Z) : Z :=
  match o with Some z => z | None => 0%Z end.

(** [x || 0]. *)
Definition or_zero (o : option Z) : Z :=
  if truthy_num o then num_of o else 0%Z.

(** [Array.prototype.sort] with a comparator.  The sort of ECMAScript
    2019 and later is stable: an element moves before another one only
    when the comparator is positive for them packed the other way round.
    [insert_by cmp x l] puts [x], which stood before all of [l], into
    the sorted [l]. *)
Fixpoint insert_by {A} (cmp : A -> A -> Z) (x : A) (l : list A) : list A :=
  match l with
  | [] => [x]
  | y :: r =>
      if (cmp x y <=? 0)%Z then x :: y :: r else y :: insert_by cmp x r
  end.

Fixpoint sort_by {A} (cmp : A -> A -> Z) (l : list A) : list A :=
  match l with
  | [] => []
  | x :: r => insert_by cmp x (sort_by cmp r)
  end.

(** [(a, b) => b.height - a.height] *)
Definition by_height_desc (a b : Format) : Z :=
  (num_of (height b) - num_of (height a))%Z.

(** [(a, b) => (b.abr || 0) - (a.abr || 0)] *)
Definition by_abr_desc (a b : Format) : Z :=
  (or_zero (abr b) - or_zero (abr a))%Z.

(** [f.vcodec !== 'none' && f.acodec !== 'none' && f.height] *)
Definition isVideoAudio (f : Format) : bool :=
  (negb (is_none (vcodec f)) && negb (is_none (acodec f))
   && truthy_num (height f))%bool.

(** [f.vcodec !== 'none' && f.acodec === 'none' && f.height] *)
Definition isVideoOnly (f : Format) : bool :=
  (negb (is_none (vcodec f)) && is_none (acodec f)
   && truthy_num (height f))%bool.

(** [f.vcodec === 'none' && f.acodec !== 'none'] *)
Definition isAudioOnly (f : Format) : bool :=
  (is_none (vcodec f) && negb (is_none (acodec f)))%bool.

Record Organized := {
  videoAudio : list Format;
  videoOnly : list Format;
  audioOnly : list Format
}.

Definition organizeFormats (formats : list Format) : Organized :=
  {| videoAudio := sort_by by_height_desc (filter isVideoAudio formats);
     videoOnly := sort_by by_height_desc (filter isVideoOnly formats);
     audioOnly := sort_by by_abr_desc (filter isAudioOnly formats) |}.

(** [null] is [None]. *)
Definition selectBestFormat (formats : list Format) : option Format :=
  let videoFormats := filter isVideoAudio formats in
  if (0 <? length videoFormats)%nat
  then nth_error (sort_by by_height_desc videoFormats) 0
  else
    let videoOnlyFormats := filter isVideoOnly formats in
    if (0 <? length videoOnlyFormats)%nat
    then nth_error (sort_by by_height_desc videoOnlyFormats) 0
    else None.

(** The three categories in the words of the specification; a resolution
    is present when the property holds a number other than zero, which is
    what the truthiness test of the source lets through. *)
Definition resolution_present (f : Format) : Prop :=
  exists r, height f = Some r /\ r <> 0%Z.

Definition combined (f : Format) : Prop :=
  vcodec f <> Some (lit "none") /\ acodec f <> Some (lit "none")
  /\ resolution_present f.

Definition video_only (f : Format) : Prop :=
  vcodec f <> Some (lit "none") /\ acodec f = Some (lit "none")
  /\ resolution_present f.

Definition audio_only (f : Format) : Prop :=
  vcodec f = Some (lit "none") /\ acodec f <> Some (lit "none").

(** The key a category is sorted on. *)
Definition resolution (f : Format) : Z := num_of (height f).

Definition bitrate (f : Format) : Z :=
  match abr f with Some b => b | None => 0%Z end.

(** The elements of a list that have the key [k], in their order. *)
Definition with_key {A} (key : A -> Z) (k : Z) (l : list A) : list A :=
  filter (fun f => Z.eqb (key f) k) l.

(** [descending]: sorted by the key, highest first.
    [same_order_on_ties]: for every key value, the elements with that key
    are the same, in the order they had. *)
Definition descending {A} (key : A -> Z) (l : list A) : Prop :=
  StronglySorted (fun a b => (key b <= key a)%Z) l.

Definition same_order_on_ties {A} (key : A -> Z) (before after : list A)
    : Prop :=
  forall k, with_key key k after = with_key key k before.

(** A descriptor with the fields the selection reads, for examples. *)
Definition descriptor (id : string) (h : option Z) (v a : string) : Format :=
  {| format_id := lit id; ext := lit "mp4";
     vcodec := Some (lit v); acodec := Some (lit a);
     height := h; abr := None; filesize := None |}.

End FormatCatalog.

(** ** The [path] module of the host

    [path.join] and [path.dirname] belong to Node and differ between the
    POSIX and the Windows flavour; the scripts are embedded over the
    interface, and [posix] is the flavour of the volume paths of entry
    point A. *)

Module Path.

Local Open Scope N_scope.

Class PathModule := {
  join : list jsstring -> jsstring;
  dirname : jsstring -> jsstring
}.

Fixpoint drop_while (p : codeunit -> bool) (s : jsstring) : jsstring :=
  match s with
  | [] => []
  | c :: r => if p c then drop_while p r else s
  end.

Definition is_slash (c : codeunit) : bool := N.eqb c 47.

(** The pieces between the slashes. *)
Fixpoint segments (s : jsstring) : list jsstring :=
  match s with
  | [] => [[]]
  | c :: r =>
      if is_slash c then [] :: segments r
      else match segments r with
           | seg :: more => (c :: seg) :: more
           | [] => [[c]]
           end
  end.

Fixpoint join_with (sep : jsstring) (l : list jsstring) : jsstring :=
  match l with
  | [] => []
  | [a] => a
  | a :: r => a ++ sep ++ join_with sep r
  end.

(** One segment of [normalizeString]; [stack] holds the segments kept so
    far, the last one first. *)
Definition normalize_step (allowAboveRoot : bool) (stack : list jsstring)
    (seg : jsstring) : list jsstring :=
  if (str_eqb seg [] || str_eqb seg (lit "."))%bool then stack
  else if str_eqb seg (lit "..") then
    match stack with
    | top :: below =>
        if str_eqb top (lit "..")
        then (if allowAboveRoot then seg :: stack else stack)
        else below
    | [] => if allowAboveRoot then [seg] else []
    end
  else seg :: stack.

Definition normalizeString (path : jsstring) (allowAboveRoot : bool)
    : jsstring :=
  join_with (lit "/")
    (rev (fold_left (normalize_step allowAboveRoot) (segments path) [])).

Definition posix_normalize (path : jsstring) : jsstring :=
  match path with
  | [] => lit "."
  | c :: _ =>
      let isAbsolute := is_slash c in
      let trailingSeparator :=
        match rev path with l :: _ => is_slash l | [] => false end in
      let p := normalizeString path (negb isAbsolute) in
      match p with
      | [] =>
          if isAbsolute then lit "/"
          else if trailingSeparator then lit "./" else lit "."
      | _ :: _ =>
          let p' := if trailingSeparator then p ++ lit "/" else p in
          if isAbsolute then lit "/" ++ p' else p'
      end
  end.

Definition posix_join (args : list jsstring) : jsstring :=
  match filter truthy_str args with
  | [] => lit "."
  | joined => posix_normalize (join_with (lit "/") joined)
  end.

Definition posix_dirname (path : jsstring) : jsstring :=
  match path with
  | [] => lit "."
  | c :: rest =>
      let hasRoot := is_slash c in
      let before_name :=
        drop_while (fun x => negb (is_slash x))
          (drop_while is_slash (rev rest)) in
      match before_name with
      | [] => if hasRoot then lit "/" else lit "."
      | _ :: kept =>
          match kept with
          | [] => if hasRoot then lit "//" else [c]
          | _ :: _ => c :: rev kept
          end
      end
  end.

Definition posix : PathModule :=
  {| join := posix_join; dirname := posix_dirname |}.

End Path.

(** ** The outside world

    The downloader, the file system, the prompt and the console are
    collaborators; the scripts are embedded as functions that read the
    answers of a [World] and write every call and every printed message
    to a trace. *)

Module Host.

Import FormatCatalog.

(** The options object handed to [youtubedl]; a property that was never
    set, or was deleted, is [None]. *)
Record DownloadOptions := {
  noPlaylist : option bool;
  format : option jsstring;
  mergeOutputFormat : option jsstring;
  writeThumbnail : option bool;
  writeDescription : option bool;
  writeInfoJson : option bool;
  output : option jsstring;
  extractAudio : option bool;
  audioFormat : option jsstring;
  audioQuality : option jsstring
}.

Definition emptyOptions : DownloadOptions :=
  {| noPlaylist := None; format := None; mergeOutputFormat := None;
     writeThumbnail := None; writeDescription := None;
     writeInfoJson := None; output := None; extractAudio := None;
     audioFormat := None; audioQuality := None |}.

Definition set_output (v : jsstring) (o : DownloadOptions) :=
  {| noPlaylist := noPlaylist o; format := format o;
     mergeOutputFormat := mergeOutputFormat o;
     writeThumbnail := writeThumbnail o;
     writeDescription := writeDescription o;
     writeInfoJson := writeInfoJson o; output := Some v;
     extractAudio := extractAudio o; audioFormat := audioFormat o;
     audioQuality := audioQuality o |}.

Definition set_format (v : jsstring) (o : DownloadOptions) :=
  {| noPlaylist := noPlaylist o; format := Some v;
     mergeOutputFormat := mergeOutputFormat o;
     writeThumbnail := writeThumbnail o;
     writeDescription := writeDescription o;
     writeInfoJson := writeInfoJson o; output := output o;
     extractAudio := extractAudio o; audioFormat := audioFormat o;
     audioQuality := audioQuality o |}.

Definition set_extractAudio (v : bool) (o : DownloadOptions) :=
  {| noPlaylist := noPlaylist o; format := format o;
     mergeOutputFormat := mergeOutputFormat o;
     writeThumbnail := writeThumbnail o;
     writeDescription := writeDescription o;
     writeInfoJson := writeInfoJson o; output := output o;
     extractAudio := Some v; audioFormat := audioFormat o;
     audioQuality := audioQuality o |}.

Definition set_audioFormat (v : jsstring) (o : DownloadOptions) :=
  {| noPlaylist := noPlaylist o; format := format o;
     mergeOutputFormat := mergeOutputFormat o;
     writeThumbnail := writeThumbnail o;
     writeDescription := writeDescription o;
     writeInfoJson := writeInfoJson o; output := output o;
     extractAudio := extractAudio o; audioFormat := Some v;
     audioQuality := audioQuality o |}.

Definition delete_writeThumbnail (o : DownloadOptions) :=
  {| noPlaylist := noPlaylist o; format := format o;
     mergeOutputFormat := mergeOutputFormat o;
     writeThumbnail := None;
     writeDescription := writeDescription o;
     writeInfoJson := writeInfoJson o; output := output o;
     extractAudio := extractAudio o; audioFormat := audioFormat o;
     audioQuality := audioQuality o |}.

Definition delete_writeDescription (o : DownloadOptions) :=
  {| noPlaylist := noPlaylist o; format := format o;
     mergeOutputFormat := mergeOutputFormat o;
     writeThumbnail := writeThumbnail o;
     writeDescription := None;
     writeInfoJson := writeInfoJson o; output := output o;
     extractAudio := extractAudio o; audioFormat := audioFormat o;
     audioQuality := audioQuality o |}.

(** The metadata of a video, as far as the scripts branch on it. *)
Record VideoInfo := {
  title : jsstring;
  formats : list Format
}.

(** An entry of the list prompt: a disabled separator line or a choice
    with its value. *)
Inductive Choice :=
| Separator
| Item (value : jsstring).

(** What the scripts print, by kind, with the interpolated values. *)
Inductive Message :=
| Usage
| NeedUrl
| InvalidUrl
| NotConfigured
| CreatedOutputDir (dir : jsstring)
| FetchingInfo
| Summary (folder : option jsstring) (videoTitle : jsstring)
| AutoMode
| SelectedFormat (f : Format)
| SavePath (dir : jsstring)
| VideoPass
| AudioPass
| AudioRetry
| IdExpanded (url : jsstring)
| Done (dir : jsstring)
| ErrorLine (message : jsstring)
| FileMissing (file : jsstring)
| BatchStart (file : jsstring) (parent : jsstring)
| BatchCommand (command : jsstring) (parent : jsstring)
| LineDone (line : jsstring)
| LineFailed (code : option Z) (line : jsstring)
| LineSpawnError (message : jsstring)
| LineRejected (message : jsstring)
| Tally (total success fail : nat).

Inductive Event :=
| Console (msg : Message)
| ExistsSync (path : jsstring)
| MkdirSync (path : jsstring)
| YoutubedlVersion
| YoutubedlDumpJson (url : jsstring)
| Youtubedl (url : jsstring) (options : DownloadOptions)
| Prompt (choices : list Choice)
| Spawn (command : jsstring).

(** What a child process of the batch driver emits: the [close] event
    with an exit code ([null], here [None], after a signal); or, when it
    could not be started, the [error] event, which Node lets the [close]
    event follow in the same turn ([closing], with the negative error
    number for a code), if it follows at all. *)
Inductive ChildEnd :=
| Closed (code : option Z)
| Errored (message : jsstring) (closing : option (option Z)).

(** The answers of the collaborators.  A download or a child process is
    asked with the number of such calls made before it, so that the same
    request may be answered differently the second time.  Reading a file
    line by line gives the lines read and then the end of the file
    ([None]) or the error of the stream (a directory, no permission, a
    failing disk), on which the iteration over the lines throws. *)
Record World := {
  now : Placeholder.Clock;
  existsSync : jsstring -> bool;
  mkdirSync : jsstring -> option jsstring;
  versionProbe : option jsstring;
  dumpJson : jsstring -> VideoInfo + jsstring;
  download : nat -> jsstring -> DownloadOptions -> option jsstring;
  prompt : list Choice -> jsstring;
  readLines : jsstring -> list jsstring * option jsstring;
  spawn : nat -> jsstring -> ChildEnd
}.

(** How a piece of script ends. *)
Inductive Completion (A : Type) :=
| Normal (a : A)
| Thrown (message : jsstring)
| Exited (code : Z).

Arguments Normal {A} a.
Arguments Thrown {A} message.
Arguments Exited {A} code.

(** A piece of script: from the trace so far to the trace after it and
    its completion. *)
Definition Exec (A : Type) := list Event -> list Event * Completion A.

Definition ret {A} (a : A) : Exec A := fun t => (t, Normal a).

Definition bind {A B} (c : Exec A) (k : A -> Exec B) : Exec B :=
  fun t =>
    match c t with
    | (t', Normal a) => k a t'
    | (t', Thrown e) => (t', Thrown e)
    | (t', Exited n) => (t', Exited n)
    end.

Definition throw {A} (message : jsstring) : Exec A :=
  fun t => (t, Thrown message).

Definition exit {A} (code : Z) : Exec A :=
  fun t => (t, Exited code).

Definition emit (e : Event) : Exec unit :=
  fun t => (t ++ [e], Normal tt).

Definition log (msg : Message) : Exec unit := emit (Console msg).

(** [try { body } catch (error) { handler(error.message) }] *)
Definition try_catch {A} (body : Exec A) (handler : jsstring -> Exec A)
    : Exec A :=
  fun t =>
    match body t with
    | (t', Thrown e) => handler e t'
    | r => r
    end.

(** The trace so far, for the numbering of the calls. *)
Definition history : Exec (list Event) := fun t => (t, Normal t).

Definition is_download (e : Event) : bool :=
  match e with Youtubedl _ _ => true | _ => false end.

Definition is_spawn (e : Event) : bool :=
  match e with Spawn _ => true | _ => false end.

(** The exit status of a script whose [main] completed this way: a
    return leaves the event loop empty, an uncaught error ends the
    process with status 1. *)
Definition exit_status {A} (c : Completion A) : Z :=
  match c with
  | Normal _ => 0%Z
  | Thrown _ => 1%Z
  | Exited n => n
  end.

(** The collaborators as pieces of script. *)

Definition fs_existsSync (w : World) (path : jsstring) : Exec bool :=
  bind (emit (ExistsSync path)) (fun _ => ret (existsSync w path)).

Definition fs_mkdirSync (w : World) (path : jsstring) : Exec unit :=
  bind (emit (MkdirSync path)) (fun _ =>
    match mkdirSync w path with
    | Some e => throw e
    | None => ret tt
    end).

(** [await youtubedl('--version')] *)
Definition youtubedl_version (w : World) : Exec unit :=
  bind (emit YoutubedlVersion) (fun _ =>
    match versionProbe w with
    | Some e => throw e
    | None => ret tt
    end).

(** [await youtubedl(url, { dumpJson: true, noPlaylist: true })] *)
Definition youtubedl_dumpJson (w : World) (url : jsstring) : Exec VideoInfo :=
  bind (emit (YoutubedlDumpJson url)) (fun _ =>
    match dumpJson w url with
    | inl info => ret info
    | inr e => throw e
    end).

(** [await logger(youtubedl(url, options), ...)]: the progress display
    hands the promise through. *)
Definition youtubedl (w : World) (url : jsstring) (options : DownloadOptions)
    : Exec unit :=
  bind history (fun t =>
  bind (emit (Youtubedl url options)) (fun _ =>
    match download w (length (filter is_download t)) url options with
    | Some e => throw e
    | None => ret tt
    end)).

(** The two error wrappers: the Korean prefixes of [getVideoInfo] and of
    [downloadVideo], a colon and a space, before the original message. *)
Definition fetchFailedPrefix : jsstring :=
  [46041; 50689; 49345; 32; 51221; 48372; 47484; 32; 44032; 51256; 50732;
   32; 49688; 32; 50630; 49845; 45768; 45796; 58; 32]%N.

Definition downloadFailedPrefix : jsstring :=
  [45796; 50868; 47196; 46300; 32; 49892; 54056; 58; 32]%N.

Definition getVideoInfo (w : World) (url : jsstring) : Exec VideoInfo :=
  try_catch (youtubedl_dumpJson w url)
    (fun message => throw (fetchFailedPrefix ++ message)).

(** [s.replace(pat, rep)] with a string pattern: the first occurrence
    only, and the replacement is expanded ([$$], [$&], the text before
    and the text after the match; there are no groups to refer to). *)
Fixpoint getSubstitution (matched before after rep : jsstring) : jsstring :=
  match rep with
  | [] => []
  | c :: r =>
      if N.eqb c 36 then
        match r with
        | [] => [c]
        | c' :: r' =>
            if N.eqb c' 36 then c :: getSubstitution matched before after r'
            else if N.eqb c' 38
            then matched ++ getSubstitution matched before after r'
            else if N.eqb c' 96
            then before ++ getSubstitution matched before after r'
            else if N.eqb c' 39
            then after ++ getSubstitution matched before after r'
            else c :: getSubstitution matched before after r
        end
      else c :: getSubstitution matched before after r
  end.

Fixpoint replace_first_from (pat rep before_rev s : jsstring) : jsstring :=
  if startsWith pat s then
    let after := skipn (length pat) s in
    rev before_rev ++ getSubstitution pat (rev before_rev) after rep ++ after
  else
    match s with
    | [] => rev before_rev
    | c :: r => replace_first_from pat rep (c :: before_rev) r
    end.

Definition replace_first (pat rep s : jsstring) : jsstring :=
  replace_first_from pat rep [] s.

End Host.

Declare Scope exec_scope.
Delimit Scope exec_scope with exec.
Notation "x <- c ;; k" := (Host.bind c (fun x => k))
  (at level 61, c at next level, right associativity) : exec_scope.
Notation "c ;;; k" := (Host.bind c (fun _ => k))
  (at level 61, right associativity) : exec_scope.

(** ** Entry point A ([index.js]) *)

Module EntryA.

Import FormatCatalog Host Path.

Local Open Scope exec_scope.

(** The options object [main] builds.  A missing string property is
    [None]; [audioOnly] and [auto] are only ever set to [true];
    [quality] is the result of [parseInt], [None] when it is missing or
    [NaN]. *)
Record Options := {
  folderName : option jsstring;
  parentFolder : option jsstring;
  outputDir : option jsstring;
  filename : option jsstring;
  audioOnly : bool;
  quality : option Num.Number;
  auto : bool
}.

Definition noOptions : Options :=
  {| folderName := None; parentFolder := None; outputDir := None;
     filename := None; audioOnly := false; quality := None;
     auto := false |}.

(** [downloadVideo], lines 311-324. *)
Definition formatString (selectedFormat : jsstring) (options : Options)
    : jsstring :=
  if str_eqb selectedFormat (lit "auto") then
    match quality options with
    | Some q =>
        if Num.truthy_number (Some q)
        then lit "bestvideo[height>=" ++ Num.Number_toString q
             ++ lit "]+bestaudio/bestvideo+bestaudio/best"
        else lit "bestvideo+bestaudio/best"
    | None => lit "bestvideo+bestaudio/best"
    end
  else selectedFormat.

Section WithPath.

Context {path : PathModule}.

Definition defaultOutputDir (folder : jsstring) : jsstring :=
  join [lit "/volume1/media/datas"; lit "youtubes"; folder].

(** [downloadVideo], lines 326-362: the request handed to the
    downloader, one assignment after the other. *)
Definition downloadOptions (videoInfo : VideoInfo) (folder : jsstring)
    (selectedFormat : jsstring) (options : Options) : DownloadOptions :=
  let o :=
    {| noPlaylist := Some true;
       format := Some (formatString selectedFormat options);
       mergeOutputFormat := Some (lit "mp4");
       writeThumbnail := Some true;
       writeDescription := Some true;
       writeInfoJson := Some true;
       output := None;
       extractAudio := None;
       audioFormat := None;
       audioQuality := None |} in
  let o :=
    if truthy_ostr (outputDir options)
    then set_output
           (join [str_of (outputDir options); lit "%(title)s.%(ext)s"]) o
    else set_output (join [defaultOutputDir folder; lit "video.%(ext)s"]) o in
  let o :=
    if truthy_ostr (filename options)
    then set_output
           (join [defaultOutputDir folder;
                  str_of (filename options) ++ lit ".%(ext)s"]) o
    else
      let safeTitle :=
        NameSanitizer.minimalSanitizeFilename (title videoInfo) in
      set_output
        (join [defaultOutputDir folder; safeTitle ++ lit ".%(ext)s"]) o in
  if audioOnly options then
    delete_writeDescription
      (delete_writeThumbnail
         (set_audioFormat (lit "mp3")
            (set_extractAudio true
               (set_format (lit "bestaudio[ext=m4a]/bestaudio") o))))
  else o.

(** The directory [downloadVideo] creates, line 365. *)
Definition createdDir (videoInfo : VideoInfo) (o : DownloadOptions)
    : jsstring :=
  dirname
    (replace_first (lit "%(ext)s") (lit "mp4")
       (replace_first (lit "%(title)s") (title videoInfo)
          (str_of (output o)))).

Definition downloadVideo (w : World) (url : jsstring) (videoInfo : VideoInfo)
    (folder : jsstring) (selectedFormat : jsstring) (options : Options)
    : Exec unit :=
  try_catch
    (let o := downloadOptions videoInfo folder selectedFormat options in
     let dir := createdDir videoInfo o in
     there <- fs_existsSync w dir ;;
     (if there then ret tt else fs_mkdirSync w dir) ;;;
     youtubedl w url o ;;;
     log (Done dir))
    (fun message => throw (downloadFailedPrefix ++ message)).

End WithPath.

(** [parseInt(s)] without a radix: leading white space, a sign, an
    optional [0x], then the longest run of digits; [None] is [NaN].  The
    value of the digits is rounded to the nearest double, as V8 does for
    a run of any length. *)
Definition digit_value (radix : N) (c : codeunit) : option N :=
  let v :=
    if in_range 48%N 57%N c then Some (c - 48)%N
    else if in_range 97%N 122%N c then Some (c - 97 + 10)%N
    else if in_range 65%N 90%N c then Some (c - 65 + 10)%N
    else None in
  match v with
  | Some n => if (n <? radix)%N then Some n else None
  | None => None
  end.

Fixpoint digits_value (radix : N) (acc : option N) (s : jsstring) : option N :=
  match s with
  | [] => acc
  | c :: r =>
      match digit_value radix c with
      | Some dgt =>
          digits_value radix
            (Some (match acc with
                   | Some a => a * radix + dgt
                   | None => dgt
                   end)%N) r
      | None => acc
      end
  end.

Definition parseInt (s : jsstring) : option Num.Number :=
  let s := drop_while is_space s in
  let signed :=
    match s with
    | c :: r =>
        if N.eqb c 45%N then (true, r)
        else if N.eqb c 43%N then (false, r) else (false, s)
    | [] => (false, [])
    end in
  let based :=
    if (startsWith (lit "0x") (snd signed)
        || startsWith (lit "0X") (snd signed))%bool
    then (16%N, skipn 2 (snd signed))
    else (10%N, snd signed) in
  match digits_value (fst based) None (snd based) with
  | Some n =>
      Some match Num.round_double n with
           | Some v =>
               Num.Finite (if fst signed then (- Z.of_N v)%Z else Z.of_N v)
           | None => Num.Infinite (fst signed)
           end
  | None => None
  end.

Definition with_folderName (v : jsstring) (o : Options) : Options :=
  {| folderName := Some v; parentFolder := parentFolder o;
     outputDir := outputDir o; filename := filename o;
     audioOnly := audioOnly o; quality := quality o; auto := auto o |}.

Definition with_parentFolder (v : jsstring) (o : Options) : Options :=
  {| folderName := folderName o; parentFolder := Some v;
     outputDir := outputDir o; filename := filename o;
     audioOnly := audioOnly o; quality := quality o; auto := auto o |}.

Definition with_outputDir (v : jsstring) (o : Options) : Options :=
  {| folderName := folderName o; parentFolder := parentFolder o;
     outputDir := Some v; filename := filename o;
     audioOnly := audioOnly o; quality := quality o; auto := auto o |}.

Definition with_filename (v : jsstring) (o : Options) : Options :=
  {| folderName := folderName o; parentFolder := parentFolder o;
     outputDir := outputDir o; filename := Some v;
     audioOnly := audioOnly o; quality := quality o; auto := auto o |}.

Definition with_audioOnly (o : Options) : Options :=
  {| folderName := folderName o; parentFolder := parentFolder o;
     outputDir := outputDir o; filename := filename o;
     audioOnly := true; quality := quality o; auto := auto o |}.

Definition with_quality (v : option Num.Number) (o : Options) : Options :=
  {| folderName := folderName o; parentFolder := parentFolder o;
     outputDir := outputDir o; filename := filename o;
     audioOnly := audioOnly o; quality := v; auto := auto o |}.

Definition with_auto (o : Options) : Options :=
  {| folderName := folderName o; parentFolder := parentFolder o;
     outputDir := outputDir o; filename := filename o;
     audioOnly := audioOnly o; quality := quality o; auto := true |}.

(** The option loop of [main], lines 398-434, on the arguments from
    index [i] on.  An option that takes a value reads [args[++i]]; when
    there is none, the test [args[i].startsWith] after the [switch] reads
    a property of [undefined] and throws: that is [None]. *)
Fixpoint parseArgs (args : list jsstring) (options : Options)
    (remainingArgs : list jsstring) : option (Options * list jsstring) :=
  match args with
  | [] => Some (options, remainingArgs)
  | a :: rest =>
      if str_eqb a (lit "--folderName") then
        match rest with
        | v :: rest' =>
            parseArgs rest' (with_folderName v options) remainingArgs
        | [] => None
        end
      else if str_eqb a (lit "--parentFolder") then
        match rest with
        | v :: rest' =>
            parseArgs rest' (with_parentFolder v options) remainingArgs
        | [] => None
        end
      else if str_eqb a (lit "--output-dir") then
        match rest with
        | v :: rest' =>
            parseArgs rest' (with_outputDir v options) remainingArgs
        | [] => None
        end
      else if str_eqb a (lit "--filename") then
        match rest with
        | v :: rest' =>
            parseArgs rest' (with_filename v options) remainingArgs
        | [] => None
        end
      else if str_eqb a (lit "--audio-only") then
        parseArgs rest (with_audioOnly options) remainingArgs
      else if str_eqb a (lit "--quality") then
        match rest with
        | v :: rest' =>
            parseArgs rest' (with_quality (parseInt v) options) remainingArgs
        | [] => None
        end
      else if str_eqb a (lit "--auto") then
        parseArgs rest (with_auto options) remainingArgs
      else if startsWith (lit "--") a then
        parseArgs rest options remainingArgs
      else parseArgs rest options (remainingArgs ++ [a])
  end.

(** The message of the [TypeError] of the option loop. *)
Definition startsWithOfUndefined : jsstring :=
  lit "Cannot read properties of undefined (reading 'startsWith')".

(** [checkYoutubeDl], lines 125-132. *)
Definition checkYoutubeDl (w : World) : Exec bool :=
  try_catch (youtubedl_version w ;;; ret true) (fun _ => ret false).

(** [selectFormat], lines 174-249: the choices by their values. *)
Definition choicesOf (formats : list Format) : list Choice :=
  let organized := organizeFormats formats in
  let group (l : list Format) (shown : nat) :=
    if (0 <? length l)%nat
    then Separator :: map (fun f => Item (format_id f)) (firstn shown l)
    else [] in
  group (videoAudio organized) 10%nat
  ++ group (videoOnly organized) 10%nat
  ++ group (FormatCatalog.audioOnly organized) 5%nat
  ++ [Separator; Item (lit "auto")].

Definition selectFormat (w : World) (formats : list Format) : Exec jsstring :=
  let choices := choicesOf formats in
  emit (Prompt choices) ;;;
  ret (prompt w choices).

Section Main.

Context {path : PathModule}.

(** The [try] block of [main], lines 451-519. *)
Definition run (w : World) (url : jsstring) (options : Options) : Exec unit :=
  hasYoutubeDl <- checkYoutubeDl w ;;
  if negb hasYoutubeDl then log NotConfigured
  else
    (if truthy_ostr (outputDir options) then
       there <- fs_existsSync w (str_of (outputDir options)) ;;
       if there then ret tt
       else fs_mkdirSync w (str_of (outputDir options)) ;;;
            log (CreatedOutputDir (str_of (outputDir options)))
     else ret tt) ;;;
    log FetchingInfo ;;;
    videoInfo <- getVideoInfo w url ;;
    let folder :=
      if truthy_ostr (folderName options) then str_of (folderName options)
      else title videoInfo in
    let processedFolderName := Placeholder.replacePlaceholders (now w) folder in
    let safeFolderName :=
      NameSanitizer.sanitizeFolderName processedFolderName in
    let finalFolderName :=
      if truthy_ostr (parentFolder options)
      then str_of (parentFolder options) ++ lit "/" ++ safeFolderName
      else safeFolderName in
    log (Summary (Some finalFolderName) (title videoInfo)) ;;;
    selectedFormat <-
      (if auto options then log AutoMode ;;; ret (lit "auto")
       else
         chosen <- selectFormat w (formats videoInfo) ;;
         (if negb (str_eqb chosen (lit "auto")) then
            match find (fun f => str_eqb (format_id f) chosen)
                    (formats videoInfo) with
            | Some f => log (SelectedFormat f)
            | None => ret tt
            end
          else log AutoMode) ;;;
         ret chosen) ;;
    downloadVideo w url videoInfo finalFolderName selectedFormat options.

(** [main], lines 385-524. *)
Definition main (w : World) (args : list jsstring) : Exec unit :=
  if (existsb (str_eqb (lit "--help")) args || (length args =? 0)%nat)%bool
  then log Usage
  else
    match parseArgs args noOptions [] with
    | None => throw startsWithOfUndefined
    | Some (options, remainingArgs) =>
        match remainingArgs with
        | [] => log NeedUrl ;;; log Usage
        | url :: _ =>
            if (negb (includes (lit "youtube.com") url)
                && negb (includes (lit "youtu.be") url))%bool
            then log InvalidUrl
            else
              try_catch (run w url options)
                (fun message => log (ErrorLine message) ;;; exit 1%Z)
        end
    end.

End Main.

End EntryA.

(** ** Entry point B, the two-pass variant ([bin/index.js]) *)

Module EntryB.

Import FormatCatalog Host Path.

Local Open Scope exec_scope.

(** The options object of entry point B; ['parent-folder'] and
    ['folder-name'] are the dashed keys [main] stores, [parentFolder] the
    second spelling [downloadVideo] accepts. *)
Record Options := {
  description : option bool;
  json : option bool;
  parent_folder : option jsstring;
  folder_name : option jsstring;
  outputDir : option jsstring;
  filename : option jsstring;
  parentFolder : option jsstring
}.

Section WithPath.

Context {path : PathModule}.

(** [downloadVideo], lines 291-314: the directory and the base name. *)
Definition targetDir (videoInfo : VideoInfo) (options : Options) : jsstring :=
  let safeTitle := NameSanitizer.minimalSanitizeFilename (title videoInfo) in
  if truthy_ostr (outputDir options) then str_of (outputDir options)
  else
    let mediaFolder := [90; 58; 92]%N ++ lit "media" in
    let parent :=
      str_of (or_else (or_else (parent_folder options) (parentFolder options))
                (Some [])) in
    if truthy_str parent
    then join [mediaFolder; parent; safeTitle]
    else join [mediaFolder; safeTitle].

Definition targetName (videoInfo : VideoInfo) (options : Options) : jsstring :=
  let safeTitle := NameSanitizer.minimalSanitizeFilename (title videoInfo) in
  str_of (or_else (filename options) (Some safeTitle)).

Definition targetOutput (videoInfo : VideoInfo) (options : Options)
    : jsstring :=
  join [targetDir videoInfo options;
        targetName videoInfo options ++ lit ".%(ext)s"].

(** Lines 324-332. *)
Definition videoOptions (videoInfo : VideoInfo) (options : Options)
    : DownloadOptions :=
  {| noPlaylist := Some true;
     format := Some (lit "315+140/bestvideo+bestaudio/best");
     mergeOutputFormat := Some (lit "mp4");
     writeThumbnail := Some true;
     writeDescription := description options;
     writeInfoJson := json options;
     output := Some (targetOutput videoInfo options);
     extractAudio := None;
     audioFormat := None;
     audioQuality := None |}.

(** Lines 341-348. *)
Definition audioOptions (videoInfo : VideoInfo) (options : Options)
    : DownloadOptions :=
  {| noPlaylist := Some true;
     format := Some (lit "bestaudio");
     mergeOutputFormat := None;
     writeThumbnail := None;
     writeDescription := None;
     writeInfoJson := None;
     output := Some (targetOutput videoInfo options);
     extractAudio := Some true;
     audioFormat := Some (lit "mp3");
     audioQuality := Some (lit "0") |}.

(** Lines 357-360: the spread of [audioOptions] with another format. *)
Definition backupAudioOptions (videoInfo : VideoInfo) (options : Options)
    : DownloadOptions :=
  set_format (lit "bestaudio/best") (audioOptions videoInfo options).

Definition downloadVideo (w : World) (url : jsstring) (videoInfo : VideoInfo)
    (options : Options) : Exec unit :=
  try_catch
    (let dir := targetDir videoInfo options in
     there <- fs_existsSync w dir ;;
     (if there then ret tt else fs_mkdirSync w dir) ;;;
     log (SavePath dir) ;;;
     log VideoPass ;;;
     youtubedl w url (videoOptions videoInfo options) ;;;
     log AudioPass ;;;
     try_catch
       (youtubedl w url (audioOptions videoInfo options))
       (fun _ =>
          log AudioRetry ;;;
          youtubedl w url (backupAudioOptions videoInfo options)) ;;;
     log (Done dir))
    (fun message => throw (downloadFailedPrefix ++ message)).

(** The value of a flag: the argument after its first occurrence, unless
    it is missing or starts with two dashes ([main], lines 395-400). *)
Fixpoint valueAfter (flag : jsstring) (args : list jsstring)
    : option jsstring :=
  match args with
  | [] => None
  | a :: rest =>
      if str_eqb a flag then
        match rest with
        | v :: _ => if startsWith (lit "--") v then None else Some v
        | [] => None
        end
      else valueAfter flag rest
  end.

(** [args.find], lines 403-411; [prev] is the argument before. *)
Fixpoint findUrl (prev : option jsstring) (args : list jsstring)
    : option jsstring :=
  match args with
  | [] => None
  | arg :: rest =>
      if startsWith (lit "--") arg then findUrl (Some arg) rest
      else if match prev with
              | Some p => startsWith (lit "--") p
              | None => false
              end
      then findUrl (Some arg) rest
      else Some arg
  end.

(** [/^[a-zA-Z0-9_-]{11}$/] *)
Definition youtubeIdPattern (s : jsstring) : bool :=
  ((length s =? 11)%nat
   && forallb (fun c => (in_range 97 122 c || in_range 65 90 c
                         || in_range 48 57 c || N.eqb c 95
                         || N.eqb c 45)%N%bool) s)%bool.

Definition parseOptions (args : list jsstring) : Options :=
  {| description :=
       Some (existsb (str_eqb (lit "--desc")) args
             || existsb (str_eqb (lit "--description")) args)%bool;
     json := Some (existsb (str_eqb (lit "--json")) args);
     parent_folder := valueAfter (lit "--parent-folder") args;
     folder_name := valueAfter (lit "--folder-name") args;
     outputDir := valueAfter (lit "--output-dir") args;
     filename := valueAfter (lit "--filename") args;
     parentFolder := None |}.

(** The [try] block of [main], lines 433-452. *)
Definition run (w : World) (url : jsstring) (options : Options) : Exec unit :=
  log FetchingInfo ;;;
  videoInfo <- getVideoInfo w url ;;
  log (Summary None (title videoInfo)) ;;;
  downloadVideo w url videoInfo options.

(** [main], lines 372-457. *)
Definition main (w : World) (args : list jsstring) : Exec unit :=
  if (existsb (str_eqb (lit "--help")) args
      || existsb (str_eqb (lit "-h")) args
      || (length args =? 0)%nat)%bool
  then log Usage
  else
    let options := parseOptions args in
    let found := findUrl None args in
    if negb (truthy_ostr found) then log NeedUrl ;;; log Usage
    else
      let url := str_of found in
      let guarded (url : jsstring) :=
        try_catch (run w url options)
          (fun message => log (ErrorLine message) ;;; exit 1%Z) in
      if (negb (includes (lit "youtube.com") url)
          && negb (includes (lit "youtu.be") url))%bool
      then
        if youtubeIdPattern url
        then
          let url := lit "https://www.youtube.com/watch?v=" ++ url in
          log (IdExpanded url) ;;; guarded url
        else log InvalidUrl
      else guarded url.

End WithPath.

End EntryB.

(** ** The batch driver ([bin/batch-download.js]) *)

Module Batch.

Import Host Path.

Local Open Scope exec_scope.

Record Options := {
  parentFolder : option jsstring
}.

(** [s.trim()] *)
Definition trim (s : jsstring) : jsstring :=
  rev (drop_while is_space (rev (drop_while is_space s))).

Definition quoted (s : jsstring) : jsstring := [34%N] ++ s ++ [34%N].

(** The command line of one input line, lines 17-23. *)
Definition commandFor (line : jsstring) (options : Options) : jsstring :=
  let command := lit "youtube " ++ quoted (trim line) in
  if truthy_ostr (parentFolder options) then
    let normalizedPath :=
      replace_each is_slash [92%N] (str_of (parentFolder options)) in
    command ++ lit " --parent-folder " ++ quoted normalizedPath
  else command.

(** [spawn(command, { stdio: 'inherit', shell: true })] and the events
    of the child; [spawn] itself hands back a child process. *)
Definition spawnChild (w : World) (command : jsstring) : Exec ChildEnd :=
  t <- history ;;
  emit (Spawn command) ;;;
  ret (spawn w (length (filter is_spawn t)) command).

(** The [close] handler, lines 33-41. *)
Definition onClose (line : jsstring) (code : option Z) : Exec unit :=
  if match code with Some n => Z.eqb n 0 | None => false end
  then log (LineDone (trim line))
  else log (LineFailed code (trim line)).

(** [processLine], lines 8-48.  The promise resolves ([Normal]) or
    rejects ([Thrown]); each handler prints and calls [resolve], so the
    first event settles the promise and a [close] event after an
    [error] event still prints its line. *)
Definition processLine (w : World) (line : jsstring) (options : Options)
    : Exec unit :=
  if negb (truthy_str (trim line)) then ret tt
  else
    let command := commandFor line options in
    log (BatchCommand command (str_of (parentFolder options))) ;;;
    ended <- spawnChild w command ;;
    match ended with
    | Closed code => onClose line code
    | Errored message closing =>
        log (LineSpawnError message) ;;;
        match closing with
        | Some code => onClose line code
        | None => ret tt
        end
    end.

Record Counters := {
  lineCount : nat;
  successCount : nat;
  failCount : nat
}.

(** The loop of [main], lines 82-93. *)
Fixpoint eachLine (w : World) (options : Options) (lines : list jsstring)
    (c : Counters) : Exec Counters :=
  match lines with
  | [] => ret c
  | line :: rest =>
      if truthy_str (trim line) then
        let c :=
          {| lineCount := S (lineCount c);
             successCount := successCount c;
             failCount := failCount c |} in
        c <- try_catch
               (processLine w line options ;;;
                ret {| lineCount := lineCount c;
                       successCount := S (successCount c);
                       failCount := failCount c |})
               (fun message =>
                  log (LineRejected message) ;;;
                  ret {| lineCount := lineCount c;
                         successCount := successCount c;
                         failCount := S (failCount c) |}) ;;
        eachLine w options rest c
      else eachLine w options rest c
  end.

(** [args[0] || 'ise.txt'], line 54, and the options of lines 63-65. *)
Definition inputFileOf (args : list jsstring) : jsstring :=
  str_of (or_else (nth_error args 0) (Some (lit "ise.txt"))).

Definition optionsOf (args : list jsstring) : Options :=
  {| parentFolder :=
       or_else (nth_error args 1) (Some (lit "ISEGYE_IDOL/INE")) |}.

(** [main], lines 50-100; the counters it prints are its result here.
    The [for await] loop throws the error of the stream after the lines
    read before it. *)
Definition main (w : World) (args : list jsstring) : Exec Counters :=
  let inputFile := inputFileOf args in
  there <- fs_existsSync w inputFile ;;
  if negb there then log (FileMissing inputFile) ;;; exit 1%Z
  else
    let options := optionsOf args in
    log (BatchStart inputFile (str_of (parentFolder options))) ;;;
    c <- eachLine w options (fst (readLines w inputFile))
           {| lineCount := 0; successCount := 0; failCount := 0 |} ;;
    match snd (readLines w inputFile) with
    | Some e => throw e
    | None =>
        log (Tally (lineCount c) (successCount c) (failCount c)) ;;;
        ret c
    end.

(** The lines that are not blank, and the counters after [n] more of
    them have been processed and counted as successes. *)
Definition nonBlank (lines : list jsstring) : list jsstring :=
  filter (fun line => truthy_str (trim line)) lines.

Definition counted (n : nat) (c : Counters) : Counters :=
  {| lineCount := lineCount c + n;
     successCount := successCount c + n;
     failCount := failCount c |}.

(** The script: [main().catch(...)], lines 103-108. *)
Definition script (w : World) (args : list jsstring) : Exec Counters :=
  try_catch (main w args)
    (fun message => log (ErrorLine message) ;;; exit 1%Z).

End Batch.

(** ** Readings of a trace, and worlds for the examples *)

Module Scenario.

Import Host.

(** The download requests of a trace, in order. *)
Definition requests (t : list Event) : list (jsstring * DownloadOptions) :=
  flat_map (fun e => match e with
                     | Youtubedl url options => [(url, options)]
                     | _ => []
                     end) t.

(** The command lines of the child processes of a trace, in order. *)
Definition commands (t : list Event) : list jsstring :=
  flat_map (fun e => match e with Spawn command => [command] | _ => [] end) t.

(** What was printed, in order. *)
Definition printed (t : list Event) : list Message :=
  flat_map (fun e => match e with Console msg => [msg] | _ => [] end) t.

(** The URLs whose metadata a trace asks for, and the number of its
    version probes. *)
Definition lookups (t : list Event) : list jsstring :=
  flat_map (fun e => match e with
                     | YoutubedlDumpJson url => [url]
                     | _ => []
                     end) t.

Definition probes (t : list Event) : nat :=
  length (filter (fun e => match e with
                           | YoutubedlVersion => true
                           | _ => false
                           end) t).

(** A piece of script that only adds to the trace, with at most [p]
    version probes, [l] metadata requests and [d] download requests. *)
Definition asks {A} (p l d : nat) (c : Exec A) : Prop :=
  forall t,
    exists events,
      fst (c t) = t ++ events
      /\ (probes events <= p)%nat
      /\ (length (lookups events) <= l)%nat
      /\ (length (requests events) <= d)%nat.

(** A world in which every directory exists and every call succeeds, on
    15 March 2023 at 14:15:09. *)
Definition calm : World :=
  {| now := {| Placeholder.getFullYear := 2023; Placeholder.getMonth := 2;
               Placeholder.getDate := 15; Placeholder.getHours := 14;
               Placeholder.getMinutes := 15; Placeholder.getSeconds := 9 |};
     existsSync := fun _ => true;
     mkdirSync := fun _ => None;
     versionProbe := None;
     dumpJson := fun _ => inl {| title := lit "clip"; formats := [] |};
     download := fun _ _ _ => None;
     prompt := fun _ => lit "auto";
     readLines := fun _ => ([], None);
     spawn := fun _ _ => Closed (Some 0%Z) |}.




(** A world in which the plain audio request fails and the video request
    and the relaxed audio request succeed; and one in which the relaxed
    audio request fails too. *)
Definition audioFails : World :=
  {| now := now calm;
     existsSync := fun _ => true;
     mkdirSync := fun _ => None;
     versionProbe := None;
     dumpJson := dumpJson calm;
     download := fun n _ _ =>
       if Nat.eqb n 1 then Some (lit "no audio") else None;
     prompt := fun _ => lit "auto";
     readLines := fun _ => ([], None);
     spawn := fun _ _ => Closed (Some 0%Z) |}.

Definition retryFails : World :=
  {| now := now calm;
     existsSync := fun _ => false;
     mkdirSync := fun _ => None;
     versionProbe := None;
     dumpJson := dumpJson calm;
     download := fun n _ _ =>
       match n with
       | 0 => None
       | 1 => Some (lit "no audio")
       | _ => Some (lit "no format")
       end;
     prompt := fun _ => lit "auto";
     readLines := fun _ => ([], None);
     spawn := fun _ _ => Closed (Some 0%Z) |}.

End Scenario.

(** ** Further readings: calendar clocks, the discipline of a piece of
    script, the options of entry point A that take a value, and worlds in
    which something goes wrong *)

Module Coverage.

Import Host.

(** A clock reading [new Date()] can give, from the year 10 on: the
    month counts from 0, the other fields as on the calendar. *)
Definition calendar (now : Placeholder.Clock) : Prop :=
  (10 <= Placeholder.getFullYear now
   /\ Placeholder.getMonth now <= 11
   /\ 1 <= Placeholder.getDate now <= 31
   /\ Placeholder.getHours now <= 23
   /\ Placeholder.getMinutes now <= 59
   /\ Placeholder.getSeconds now <= 59)%N.

Definition is_digit (c : codeunit) : bool := in_range 48%N 57%N c.

(** A message that is [p] followed by an original message. *)
Definition prefixed (p m : jsstring) : Prop := exists e, m = p ++ e.

(** A piece of script that only adds to the trace, never ends the
    process, and throws only messages that satisfy [P]. *)
Definition throwing {A} (P : jsstring -> Prop) (c : Exec A) : Prop :=
  forall t,
    (exists events, fst (c t) = t ++ events)
    /\ match snd (c t) with
       | Normal _ => True
       | Thrown m => P m
       | Exited _ => False
       end.

(** How a [main] ends whose [try] block reports what it catches: it
    returns, or its last act was to print the message of an error that
    satisfies [Q] before it ended the process with status 1. *)
Definition reported {A} (Q : jsstring -> Prop)
    (r : list Event * Completion A) : Prop :=
  match snd r with
  | Normal _ => True
  | Thrown _ => False
  | Exited code =>
      code = 1%Z
      /\ exists before m, fst r = before ++ [Console (ErrorLine m)] /\ Q m
  end.

(** The options of entry point A that read the next argument. *)
Definition valuedFlags : list jsstring :=
  [lit "--folderName"; lit "--parentFolder"; lit "--output-dir";
   lit "--filename"; lit "--quality"].

(** The downloader is not installed. *)
Definition notInstalled : World :=
  {| now := now Scenario.calm;
     existsSync := fun _ => true;
     mkdirSync := fun _ => None;
     versionProbe := Some (lit "spawn yt-dlp ENOENT");
     dumpJson := dumpJson Scenario.calm;
     download := fun _ _ _ => None;
     prompt := fun _ => lit "auto";
     readLines := fun _ => ([], None);
     spawn := fun _ _ => Closed (Some 0%Z) |}.

(** No directory exists and none can be made; the metadata cannot be
    fetched either. *)
Definition readOnly : World :=
  {| now := now Scenario.calm;
     existsSync := fun _ => false;
     mkdirSync := fun _ => Some (lit "EACCES: permission denied");
     versionProbe := None;
     dumpJson := fun _ => inr (lit "Video unavailable");
     download := fun _ _ _ => None;
     prompt := fun _ => lit "auto";
     readLines := fun _ => ([], None);
     spawn := fun _ _ => Closed (Some 0%Z) |}.

End Coverage.

(** * Properties *)

(** Turns boolean tests on code units into arithmetic. *)
Ltac unbool H :=
  repeat rewrite ?orb_true_iff, ?andb_true_iff, ?N.eqb_eq, ?N.leb_le in H.

(** ** Name sanitizers *)

Section NameSanitizerFacts.

Import NameSanitizer.

Local Open Scope N_scope.

Lemma allowed_not_forbidden (c : codeunit) :
  is_allowed c = true -> is_forbidden c = false.
Proof.
  intros H. destruct (is_forbidden c) eqn:E; [exfalso | reflexivity].
  unfold is_allowed, is_forbidden, is_word, in_range in *.
  unbool H. unbool E. lia.
Qed.

Lemma allowed_not_space (c : codeunit) :
  is_allowed c = true -> is_space c = false.
Proof.
  intros H. destruct (is_space c) eqn:E; [exfalso | reflexivity].
  unfold is_allowed, is_space, is_word, in_range in *.
  unbool H. unbool E. lia.
Qed.

Lemma replace_each_one (cls : codeunit -> bool) (x : codeunit) (s : jsstring) :
  replace_each cls [x] s = map (fun c => if cls c then x else c) s.
Proof.
  unfold replace_each. induction s as [|c r IH]; simpl; [reflexivity|].
  rewrite IH. destruct (cls c); reflexivity.
Qed.

Lemma replace_each_nothing (keep : codeunit -> bool) (s : jsstring) :
  replace_each (fun c => negb (keep c)) [] s = filter keep s.
Proof.
  unfold replace_each. induction s as [|c r IH]; simpl; [reflexivity|].
  rewrite IH. destruct (keep c); reflexivity.
Qed.

Lemma replace_runs_collapse (s : jsstring) (prev : option codeunit) :
  replace_runs_from is_space underscore
    (match prev with Some p => is_space p | None => false end) s
  = step_collapse_after prev s.
Proof.
  revert prev. induction s as [|c r IH]; intros prev; simpl; [reflexivity|].
  rewrite <- (IH (Some c)).
  destruct (is_space c) eqn:Ec.
  - destruct prev as [p|]; simpl; [destruct (is_space p)|]; reflexivity.
  - reflexivity.
Qed.

(** The source's chain of calls is the four steps, in this order. *)
Lemma sanitizeFolderName_steps (name : jsstring) :
  sanitizeFolderName name
  = step_truncate (step_strip (step_collapse (step_forbidden name))).
Proof.
  unfold sanitizeFolderName, substring0, step_truncate, step_strip,
    step_collapse, replace_runs, underscore.
  rewrite replace_each_nothing, replace_each_one.
  rewrite <- (replace_runs_collapse _ None). reflexivity.
Qed.

Lemma sanitizeFolderName_length (name : jsstring) :
  (length (sanitizeFolderName name) <= 100)%nat.
Proof.
  unfold sanitizeFolderName, substring0. apply firstn_le_length.
Qed.

Lemma sanitizeFolderName_allowed (name : jsstring) :
  Forall (fun c => is_allowed c = true) (sanitizeFolderName name).
Proof.
  rewrite sanitizeFolderName_steps. unfold step_truncate, step_strip.
  apply Forall_forall. intros c Hc.
  assert (Hin : In c (filter is_allowed (step_collapse (step_forbidden name)))).
  { rewrite <- (firstn_skipn 100 (filter _ _)). apply in_or_app. now left. }
  apply filter_In in Hin. apply Hin.
Qed.

Lemma step_forbidden_fixed (s : jsstring) :
  Forall (fun c => is_allowed c = true) s -> step_forbidden s = s.
Proof.
  unfold step_forbidden. induction 1 as [|c r Hc _ IH]; simpl; [reflexivity|].
  rewrite IH, (allowed_not_forbidden _ Hc). reflexivity.
Qed.

Lemma step_collapse_fixed (s : jsstring) (prev : option codeunit) :
  Forall (fun c => is_allowed c = true) s -> step_collapse_after prev s = s.
Proof.
  intros H. revert prev.
  induction H as [|c r Hc _ IH]; intros prev; simpl; [reflexivity|].
  rewrite IH, (allowed_not_space _ Hc). reflexivity.
Qed.

Lemma step_strip_fixed (s : jsstring) :
  Forall (fun c => is_allowed c = true) s -> step_strip s = s.
Proof.
  unfold step_strip. induction 1 as [|c r Hc _ IH]; simpl; [reflexivity|].
  rewrite Hc, IH. reflexivity.
Qed.

Lemma is_allowed_spec (c : codeunit) :
  is_allowed c = true <-> allowed_char c.
Proof.
  unfold is_allowed, is_word, in_range, allowed_char.
  rewrite !orb_true_iff, !andb_true_iff, !N.eqb_eq, !N.leb_le. tauto.
Qed.

(** One hundred exclamation marks and a letter: sanitized as the source
    does, the letter survives; cut to 100 code units first, nothing
    would. *)
Lemma truncate_first_differs :
  let long := repeat 33 100 ++ lit "a" in
  sanitizeFolderName long = lit "a"
  /\ step_strip (step_collapse (step_forbidden (step_truncate long))) = [].
Proof. split; vm_compute; reflexivity. Qed.

(** C6: [sanitizeFolderName] is the four steps in the order (a) forbidden
    characters to underscores, (b) runs of white space to one underscore,
    (c) every character outside the allowed class deleted, (d) the first
    100 code units kept; so the result is at most 100 code units long and
    holds allowed characters only, and the cut is made on the sanitized
    text: cutting first gives another result on some input. *)
Theorem sanitizeFolderName_four_steps (name : jsstring) :
  sanitizeFolderName name
  = step_truncate (step_strip (step_collapse (step_forbidden name)))
  /\ (length (sanitizeFolderName name) <= 100)%nat
  /\ Forall allowed_char (sanitizeFolderName name)
  /\ exists long,
       step_strip (step_collapse (step_forbidden (step_truncate long)))
       <> sanitizeFolderName long.
Proof.
  split; [apply sanitizeFolderName_steps|].
  split; [apply sanitizeFolderName_length|].
  split.
  - eapply Forall_impl; [|apply sanitizeFolderName_allowed].
    intros c Hc. now apply is_allowed_spec.
  - exists (repeat 33 100 ++ lit "a").
    destruct truncate_first_differs as [-> ->]. discriminate.
Qed.

(** C10: [sanitizeFolderName] is idempotent. *)
Theorem sanitizeFolderName_idempotent (s : jsstring) :
  sanitizeFolderName (sanitizeFolderName s) = sanitizeFolderName s.
Proof.
  pose proof (sanitizeFolderName_allowed s) as Hok.
  pose proof (sanitizeFolderName_length s) as Hlen.
  rewrite (sanitizeFolderName_steps (sanitizeFolderName s)).
  rewrite (step_forbidden_fixed Hok).
  unfold step_collapse. rewrite (step_collapse_fixed None Hok).
  rewrite (step_strip_fixed Hok).
  unfold step_truncate. now apply firstn_all2.
Qed.

End NameSanitizerFacts.

(** ** Placeholder substitution *)

Section PlaceholderFacts.

Import Placeholder.

Local Open Scope N_scope.

Lemma startsWith_app (p s : jsstring) : startsWith p (p ++ s) = true.
Proof.
  induction p as [|a p IH]; simpl; [reflexivity|].
  now rewrite N.eqb_refl, IH.
Qed.

Lemma startsWith_split (p s : jsstring) :
  startsWith p s = true -> s = p ++ skipn (length p) s.
Proof.
  revert s. induction p as [|a p IH]; intros [|b s] H; simpl in *;
    try reflexivity; try discriminate.
  apply andb_true_iff in H as [Hab Hps]. apply N.eqb_eq in Hab. subst b.
  f_equal. now apply IH.
Qed.

Lemma startsWith_longer (p s x : jsstring) :
  startsWith p s = true -> startsWith p (s ++ x) = true.
Proof.
  intros H. rewrite (startsWith_split _ _ H), <- app_assoc.
  apply startsWith_app.
Qed.

Lemma skipn_own_length (a s : jsstring) : skipn (length a) (a ++ s) = s.
Proof. induction a; simpl; auto. Qed.

Lemma substitute_skip table (a s : jsstring) :
  substitute_from table (length a) (a ++ s) = substitute table s.
Proof. induction a as [|c a IH]; simpl; auto. Qed.

Lemma substitute_nil table : substitute table [] = [].
Proof. reflexivity. Qed.

(** A token at the head of the text is replaced by its field. *)
Lemma substitute_token table (s tok v : jsstring) :
  token_at table s = Some (tok, v) -> tok <> [] ->
  substitute table s = v ++ substitute table (skipn (length tok) s).
Proof.
  intros Hat Hne.
  assert (Hst : startsWith tok s = true).
  { unfold token_at in Hat. apply find_some in Hat. apply Hat. }
  pose proof (startsWith_split _ _ Hst) as Hs.
  destruct tok as [|c tok']; [congruence|].
  destruct s as [|c' r]; [discriminate|].
  unfold substitute at 1. cbn [substitute_from]. rewrite Hat.
  f_equal. injection Hs as -> Hr.
  rewrite Hr at 1. cbn [length]. rewrite Nat.sub_succ, Nat.sub_0_r.
  rewrite substitute_skip. cbn [skipn]. reflexivity.
Qed.

(** Any other code unit is copied. *)
Lemma substitute_copy table (c : codeunit) (r : jsstring) :
  token_at table (c :: r) = None ->
  substitute table (c :: r) = c :: substitute table r.
Proof. intros H. unfold substitute. cbn [substitute_from]. now rewrite H. Qed.

Lemma replace_all_from_substitute (pat rep s : jsstring) (k : nat) :
  replace_all_from pat rep k s = substitute_from [(pat, rep)] k s.
Proof.
  revert k. induction s as [|c r IH]; intros k; [reflexivity|].
  cbn [replace_all_from substitute_from]. destruct k as [|k]; [|apply IH].
  unfold token_at. cbn [find fst].
  destruct (startsWith pat (c :: r)); now rewrite IH.
Qed.

Lemma replace_all_substitute (pat rep s : jsstring) :
  replace_all pat rep s = substitute [(pat, rep)] s.
Proof. apply replace_all_from_substitute. Qed.

(** *** Tokens do not overlap, and fields do not make new ones *)

Lemma letter_not_plain (c : codeunit) :
  is_letter c = true -> is_plain c = false.
Proof.
  intros H. destruct (is_plain c) eqn:E; [exfalso | reflexivity].
  unfold is_letter, is_plain, in_range in *. unbool H. unbool E. lia.
Qed.

Lemma plain_not_brace (c : codeunit) : is_plain c = true -> c <> 123.
Proof.
  intros H ->. discriminate H.
Qed.

Lemma braced_nonempty (tok : jsstring) : braced tok -> tok <> [].
Proof. intros (body & -> & _). discriminate. Qed.

Lemma braced_head (tok : jsstring) (c : codeunit) (s : jsstring) :
  braced tok -> c <> 123 -> startsWith tok (c :: s) = false.
Proof.
  intros (body & -> & _) Hc. cbn [startsWith].
  destruct (N.eqb_spec 123 c); [congruence | reflexivity].
Qed.

Lemma find_all_false {A} (f : A -> bool) (l : list A) :
  (forall x, In x l -> f x = false) -> find f l = None.
Proof.
  induction l as [|a l IH]; intros H; [reflexivity|].
  cbn [find]. rewrite (H a (or_introl eq_refl)).
  apply IH. intros x Hx. apply H. now right.
Qed.

Lemma find_same {A} (f g : A -> bool) (l : list A) :
  (forall x, In x l -> f x = g x) -> find f l = find g l.
Proof.
  induction l as [|a l IH]; intros H; [reflexivity|].
  cbn [find]. rewrite (H a (or_introl eq_refl)).
  destruct (g a); [reflexivity|].
  apply IH. intros x Hx. apply H. now right.
Qed.

Section Table.

Variable table : list (jsstring * jsstring).
Hypothesis table_braced : Forall (fun e => braced (fst e)) table.

Lemma token_at_not_brace (c : codeunit) (s : jsstring) :
  c <> 123 -> token_at table (c :: s) = None.
Proof.
  intros Hc. apply find_all_false. intros e He.
  rewrite Forall_forall in table_braced.
  now apply braced_head; [apply table_braced|].
Qed.

(** Text without an opening brace passes through. *)
Lemma substitute_through (a x : jsstring) :
  Forall (fun c => c <> 123) a ->
  substitute table (a ++ x) = a ++ substitute table x.
Proof.
  induction 1 as [|c a Hc _ IH]; [reflexivity|].
  cbn [app]. rewrite substitute_copy by now apply token_at_not_brace.
  now rewrite IH.
Qed.

Lemma token_at_braced_tok (e : jsstring * jsstring) (s : jsstring) :
  token_at table s = Some e -> braced (fst e).
Proof.
  intros H. apply find_some in H as [Hin _].
  rewrite Forall_forall in table_braced. now apply table_braced.
Qed.

End Table.

Lemma startsWith_body (b2 b1 x : jsstring) :
  Forall (fun c => is_letter c = true) b2 ->
  startsWith (b2 ++ [125]) (b1 ++ [125] ++ x)
  = startsWith (b2 ++ [125]) (b1 ++ [125]).
Proof.
  intros H2. revert b1.
  induction H2 as [|l2 b2 Hl2 _ IH]; intros [|l1 b1]; cbn [app startsWith].
  - reflexivity.
  - reflexivity.
  - destruct (N.eqb_spec l2 125) as [->|]; [discriminate Hl2 | reflexivity].
  - now rewrite IH.
Qed.

(** Whether a token stands at the head of a text that begins with a token
    is decided by that first token alone. *)
Lemma startsWith_braced (t2 t1 x : jsstring) :
  braced t2 -> braced t1 -> startsWith t2 (t1 ++ x) = startsWith t2 t1.
Proof.
  intros (b2 & -> & H2) (b1 & -> & H1). cbn [app startsWith].
  rewrite <- app_assoc. now rewrite startsWith_body.
Qed.

Lemma token_at_braced table (t1 x : jsstring) :
  Forall (fun e => braced (fst e)) table -> braced t1 ->
  token_at table (t1 ++ x) = token_at table t1.
Proof.
  intros Ht H1. apply find_same. intros e He.
  rewrite Forall_forall in Ht. now apply startsWith_braced; [apply Ht|].
Qed.

(** A code unit that no field holds, at the head of a text after one
    replacement, stood at the head before it. *)
Lemma replaced_head (tok v r : jsstring) (x : codeunit) (rest : jsstring) :
  plain v -> is_plain x = false ->
  substitute [(tok, v)] r = x :: rest ->
  exists r', r = x :: r' /\ rest = substitute [(tok, v)] r'.
Proof.
  intros [Hne Hv] Hx H.
  destruct r as [|c r]; [discriminate|].
  destruct (token_at [(tok, v)] (c :: r)) as [[tok' v']|] eqn:Hat.
  - exfalso. unfold substitute in H. cbn [substitute_from] in H.
    rewrite Hat in H. apply find_some in Hat as [[Heq|[]] _].
    injection Heq as <- <-.
    destruct v as [|dgt v]; [congruence|]. injection H as -> _.
    inversion Hv; congruence.
  - rewrite substitute_copy in H by assumption.
    injection H as -> <-. eauto.
Qed.

Lemma replaced_body (tok v b r : jsstring) :
  plain v -> Forall (fun c => is_letter c = true) b ->
  startsWith (b ++ [125]) (substitute [(tok, v)] r) = true ->
  startsWith (b ++ [125]) r = true.
Proof.
  intros Hv Hb. revert r.
  induction Hb as [|l b Hl _ IH]; intros r H; cbn [app] in *.
  - destruct (substitute [(tok, v)] r) as [|x rest] eqn:E; [discriminate|].
    cbn [startsWith] in H. apply andb_true_iff in H as [Hx _].
    apply N.eqb_eq in Hx. subst x.
    destruct (@replaced_head tok v r 125 rest Hv eq_refl E) as (r' & -> & _).
    reflexivity.
  - destruct (substitute [(tok, v)] r) as [|x rest] eqn:E; [discriminate|].
    cbn [startsWith] in H. apply andb_true_iff in H as [Hx Hrest].
    apply N.eqb_eq in Hx. subst x.
    destruct (@replaced_head tok v r l rest Hv (letter_not_plain _ Hl) E)
      as (r' & -> & ->).
    cbn [startsWith]. rewrite N.eqb_refl. now apply IH.
Qed.

Lemma plain_no_brace (v : jsstring) :
  plain v -> Forall (fun c => c <> 123) v.
Proof.
  intros [_ Hv]. eapply Forall_impl; [|exact Hv].
  intros c Hc. now apply plain_not_brace.
Qed.

Lemma body_no_brace (b : jsstring) :
  Forall (fun c => is_letter c = true) b ->
  Forall (fun c => c <> 123) (b ++ [125]).
Proof.
  intros Hb. apply Forall_app. split.
  - eapply Forall_impl; [|exact Hb]. intros c Hc ->. discriminate Hc.
  - constructor; [discriminate | constructor].
Qed.

(** One [replace] of the chain followed by the one-pass substitution of
    the other tokens is the one-pass substitution of all of them. *)
Lemma substitute_after_replace (tok v : jsstring) rest :
  braced tok -> plain v -> Forall (fun e => braced (fst e)) rest ->
  forall s,
    substitute rest (substitute [(tok, v)] s)
    = substitute ((tok, v) :: rest) s.
Proof.
  intros Htok Hv Hrest s.
  assert (Hone : Forall (fun e => braced (fst e)) [(tok, v)])
    by (constructor; [exact Htok | constructor]).
  remember (length s) as n eqn:Hn. revert s Hn.
  induction n as [n IH] using lt_wf_ind. intros s ->.
  destruct s as [|c r]; [reflexivity|].
  destruct (startsWith tok (c :: r)) eqn:Hst.
  - assert (H1 : token_at [(tok, v)] (c :: r) = Some (tok, v))
      by (unfold token_at; cbn [find fst]; now rewrite Hst).
    assert (H2 : token_at ((tok, v) :: rest) (c :: r) = Some (tok, v))
      by (unfold token_at; cbn [find fst]; now rewrite Hst).
    rewrite (substitute_token _ _ H1), (substitute_token _ _ H2)
      by now apply braced_nonempty.
    rewrite (substitute_through Hrest) by now apply plain_no_brace.
    f_equal. eapply IH; [|reflexivity].
    rewrite length_skipn. apply braced_nonempty in Htok.
    destruct tok; [congruence|]. cbn [length]. lia.
  - assert (H1 : token_at [(tok, v)] (c :: r) = None)
      by (unfold token_at; cbn [find fst]; now rewrite Hst).
    assert (Hsame : token_at ((tok, v) :: rest) (c :: r)
                    = token_at rest (c :: r))
      by (unfold token_at; cbn [find fst]; now rewrite Hst).
    destruct (token_at rest (c :: r)) as [[t1 v1]|] eqn:Hat.
    + pose proof (token_at_braced_tok Hrest _ Hat) as Ht1. cbn [fst] in Ht1.
      rewrite (substitute_token _ _ Hsame) by now apply braced_nonempty.
      assert (Hs : c :: r = t1 ++ skipn (length t1) (c :: r)).
      { apply startsWith_split. apply find_some in Hat. apply Hat. }
      remember (skipn (length t1) (c :: r)) as s2 eqn:Es2. clear Es2.
      assert (Hat2 : forall x, token_at rest (t1 ++ x) = Some (t1, v1)).
      { intros x. rewrite (token_at_braced x Hrest Ht1).
        rewrite <- (token_at_braced s2 Hrest Ht1), <- Hs. exact Hat. }
      assert (Hl : substitute [(tok, v)] (c :: r)
                   = t1 ++ substitute [(tok, v)] s2).
      { rewrite substitute_copy by exact H1.
        destruct Ht1 as (b1 & -> & Hb1). cbn [app] in Hs.
        injection Hs as -> ->. cbn [app]. f_equal.
        apply (substitute_through Hone). now apply body_no_brace. }
      rewrite Hl.
      rewrite (substitute_token _ _ (Hat2 _)) by now apply braced_nonempty.
      rewrite skipn_own_length. f_equal.
      eapply IH; [|reflexivity].
      rewrite Hs, length_app. apply braced_nonempty in Ht1.
      destruct t1; [congruence|]. cbn [length]. lia.
    + rewrite (substitute_copy _ _ _ Hsame), (substitute_copy _ _ _ H1).
      rewrite substitute_copy.
      * f_equal. eapply IH; [|reflexivity]. cbn [length]. lia.
      * apply find_all_false. intros e He.
        destruct (startsWith (fst e) (c :: substitute [(tok, v)] r)) eqn:E;
          [exfalso | reflexivity].
        pose proof (find_none _ _ Hat e He) as Hno. cbn beta in Hno.
        rewrite Forall_forall in Hrest.
        destruct (Hrest e He) as (b & Hb & Hletters). rewrite Hb in *.
        cbn [startsWith] in E, Hno.
        apply andb_true_iff in E as [Ec Ebody]. rewrite Ec in Hno.
        cbn [andb] in Hno.
        exact (eq_true_false_abs _
                 (@replaced_body tok v b r Hv Hletters Ebody) Hno).
Qed.

Lemma substitute_no_tokens (s : jsstring) : substitute [] s = s.
Proof.
  induction s as [|c r IH]; [reflexivity|].
  rewrite substitute_copy by reflexivity. now rewrite IH.
Qed.

(** The chain of [replace] calls, in the order of the table, is the
    one-pass substitution. *)
Lemma replace_chain (table : list (jsstring * jsstring)) (s : jsstring) :
  Forall (fun e => braced (fst e)) table ->
  Forall (fun e => plain (snd e)) table ->
  fold_left (fun acc e => replace_all (fst e) (snd e) acc) table s
  = substitute table s.
Proof.
  intros Hb. revert s.
  induction Hb as [|[tok v] rest Htok Hrest IH]; intros s Hp; cbn [fold_left].
  - symmetry. apply substitute_no_tokens.
  - inversion Hp as [|? ? Hv Hprest]; subst.
    rewrite IH by assumption. cbn [fst snd] in *.
    rewrite replace_all_substitute.
    now apply substitute_after_replace.
Qed.

(** *** The fields of the date and time context *)

Lemma uint_digits (u : Decimal.uint) :
  Forall (fun c => is_plain c = true) (lit (NilEmpty.string_of_uint u)).
Proof.
  unfold lit.
  induction u; cbn [NilEmpty.string_of_uint list_ascii_of_string map];
    constructor; auto.
Qed.

Lemma N_toString_plain (n : N) : plain (Num.N_toString n).
Proof.
  split; [|apply uint_digits].
  unfold Num.N_toString. destruct n as [|p]; [discriminate|].
  cbn [N.to_uint]. pose proof (Unsigned.to_uint_nonnil p) as Hnil.
  destruct (Pos.to_uint p); [congruence | discriminate ..].
Qed.

Lemma plain_app (a b : jsstring) : plain a -> plain b -> plain (a ++ b).
Proof.
  intros [Ha Fa] [_ Fb]. split.
  - destruct a; [congruence | discriminate].
  - apply Forall_app. now split.
Qed.

Lemma slice_last_plain (s : jsstring) : plain s -> plain (Num.slice_last 2 s).
Proof.
  intros [Hne Hs]. unfold Num.slice_last. split.
  - intros E. apply (f_equal (@length _)) in E.
    rewrite length_skipn in E. destruct s; [congruence|].
    cbn [length] in E. lia.
  - rewrite <- (firstn_skipn (length s - 2) s) in Hs.
    apply Forall_app in Hs. apply Hs.
Qed.

Lemma padStart0_plain (s : jsstring) : plain s -> plain (Num.padStart0 2 s).
Proof.
  intros [Hne Hs]. unfold Num.padStart0. split.
  - destruct s; [congruence|]. intros E. apply app_eq_nil in E as [_ E].
    discriminate.
  - apply Forall_app. split; [|exact Hs].
    apply Forall_forall. intros c Hc. apply repeat_spec in Hc. now subst.
Qed.

Lemma getCurrentDateTime_plain (now : Clock) :
  Forall (fun e => plain (snd e)) (token_table (getCurrentDateTime now)).
Proof.
  assert (Hu : plain (lit "_")) by (split; [discriminate | repeat constructor]).
  unfold token_table, getCurrentDateTime;
    cbn [fullTime date year y month m day d time hour h minute min second sec].
  repeat (apply Forall_cons;
          [ cbn [snd];
            repeat first [ exact Hu | apply slice_last_plain
                         | apply padStart0_plain | apply N_toString_plain
                         | apply plain_app ]
          | ]).
  apply Forall_nil.
Qed.

Lemma token_table_braced (dateTime : DateTimeContext) :
  Forall (fun e => braced (fst e)) (token_table dateTime).
Proof.
  unfold token_table.
  repeat (apply Forall_cons;
          [ cbn [fst];
            match goal with
            | |- braced (lit ?name) =>
                exists (removelast (tl (lit name)));
                split; [reflexivity | repeat constructor]
            end
          | ]).
  apply Forall_nil.
Qed.

Lemma replacePlaceholders_one_pass (now : Clock) (template : jsstring) :
  replacePlaceholders now template
  = substitute (token_table (getCurrentDateTime now)) template.
Proof.
  rewrite <- replace_chain.
  - reflexivity.
  - apply token_table_braced.
  - apply getCurrentDateTime_plain.
Qed.

(** *** Every occurrence, wherever it stands *)

(** A token body that begins before an opening brace ends before it. *)
Lemma body_before_brace (body a rest : jsstring) :
  Forall (fun c => is_letter c = true) body ->
  startsWith (body ++ [125]) (a ++ 123 :: rest) = true ->
  startsWith (body ++ [125]) a = true.
Proof.
  intros Hb. revert a.
  induction Hb as [|l body Hl _ IH]; intros [|x a] H; cbn [app startsWith] in *.
  - discriminate.
  - apply andb_true_iff in H as [-> _]. reflexivity.
  - apply andb_true_iff in H as [Hx _]. apply N.eqb_eq in Hx. subst l.
    discriminate.
  - apply andb_true_iff in H as [-> H]. cbn [andb]. now apply IH.
Qed.

Lemma token_before_brace (tok a rest : jsstring) :
  braced tok -> a <> [] ->
  startsWith tok (a ++ 123 :: rest) = true -> startsWith tok a = true.
Proof.
  intros (body & -> & Hb) Ha H. destruct a as [|x a]; [congruence|].
  cbn [app startsWith] in *. apply andb_true_iff in H as [-> H].
  cbn [andb]. exact (@body_before_brace body a rest Hb H).
Qed.

(** The substitution of a text with a token in it is the substitution
    of what stands before, the field, and the substitution of what
    stands after. *)
Lemma substitute_occurrence table (tok v : jsstring) :
  Forall (fun e => braced (fst e)) table ->
  token_at table tok = Some (tok, v) ->
  forall a b,
    substitute table (a ++ tok ++ b)
    = substitute table a ++ v ++ substitute table b.
Proof.
  intros Htable Htok a b.
  pose proof (token_at_braced_tok Htable _ Htok) as Hbr. cbn [fst] in Hbr.
  remember (length a) as n eqn:Hn. revert a Hn.
  induction n as [n IH] using lt_wf_ind. intros a ->.
  destruct a as [|c a].
  - cbn [app]. rewrite substitute_nil. cbn [app].
    rewrite (substitute_token table (tok ++ b) (tok:=tok) (v:=v)).
    + now rewrite skipn_own_length.
    + now rewrite token_at_braced.
    + now apply braced_nonempty.
  - destruct (token_at table ((c :: a) ++ tok ++ b)) as [[t1 v1]|] eqn:Hat.
    + pose proof (token_at_braced_tok Htable _ Hat) as Ht1. cbn [fst] in Ht1.
      assert (Hin : startsWith t1 (c :: a) = true).
      { destruct Hbr as (body & -> & _). cbn [app] in Hat.
        apply find_some in Hat as [_ Hat]. cbn [fst] in Hat.
        apply (@token_before_brace t1 (c :: a) (body ++ [125] ++ b) Ht1);
          [discriminate|].
        cbn [app]. now rewrite <- app_assoc in Hat. }
      pose proof (startsWith_split _ _ Hin) as Hs.
      remember (skipn (length t1) (c :: a)) as a2 eqn:Ea2. clear Ea2.
      assert (Hat1 : forall x, token_at table (t1 ++ x) = Some (t1, v1)).
      { intros x. rewrite (token_at_braced x Htable Ht1).
        rewrite <- (token_at_braced (a2 ++ tok ++ b) Htable Ht1).
        rewrite app_assoc, <- Hs. exact Hat. }
      rewrite Hs, <- app_assoc.
      rewrite (substitute_token _ _ (Hat1 _)), (substitute_token _ _ (Hat1 _))
        by now apply braced_nonempty.
      rewrite !skipn_own_length, <- app_assoc. f_equal.
      eapply IH; [|reflexivity].
      rewrite Hs, length_app. apply braced_nonempty in Ht1.
      destruct t1; [congruence|]. cbn [length]. lia.
    + cbn [app] in *. rewrite (substitute_copy _ _ _ Hat).
      rewrite substitute_copy.
      * cbn [app]. f_equal. eapply IH; [|reflexivity]. cbn [length]. lia.
      * apply find_all_false. intros e He.
        pose proof (find_none _ _ Hat e He) as Hno. cbn beta in Hno.
        destruct (startsWith (fst e) (c :: a)) eqn:E; [|reflexivity].
        apply (startsWith_longer _ _ (tok ++ b)) in E. cbn [app] in E.
        congruence.
Qed.

(** Each token of the table is found at its own head. *)
Lemma token_table_distinct (dateTime : DateTimeContext)
    (e : jsstring * jsstring) :
  In e (token_table dateTime) ->
  token_at (token_table dateTime) (fst e) = Some e.
Proof.
  unfold token_table. cbn [In].
  intros H. repeat (destruct H as [<-|H]; [reflexivity|]). destruct H.
Qed.

(** A text in which no token of the table occurs is left as it is. *)
Lemma substitute_unchanged table (s : jsstring) :
  (forall tok, In tok (map fst table) -> includes tok s = false) ->
  substitute table s = s.
Proof.
  induction s as [|c r IH]; intros H; [reflexivity|].
  rewrite substitute_copy.
  - f_equal. apply IH. intros tok Htok.
    specialize (H tok Htok). cbn [includes] in H.
    now apply orb_false_iff in H.
  - apply find_all_false. intros e He.
    specialize (H (fst e) (in_map fst _ _ He)). cbn [includes] in H.
    now apply orb_false_iff in H.
Qed.

(** C5: [replacePlaceholders] replaces every occurrence of each of the
    fifteen recognized tokens by the field of the date and time context
    and copies all other text: it is the one-pass substitution of the
    token table, and a token is replaced by its field whatever stands
    before and after it.  A template without a recognized token comes
    back unchanged, and with the month of March the template
    [{month}-{m}] gives [03-03]. *)
Theorem replacePlaceholders_every_token (now : Clock) (template : jsstring) :
  replacePlaceholders now template
  = substitute (token_table (getCurrentDateTime now)) template
  /\ (forall tok field before after,
        In (tok, field) (token_table (getCurrentDateTime now)) ->
        replacePlaceholders now (before ++ tok ++ after)
        = replacePlaceholders now before ++ field
          ++ replacePlaceholders now after)
  /\ ((forall tok, In tok recognized_tokens -> includes tok template = false) ->
      replacePlaceholders now template = template)
  /\ (getMonth now = 2 ->
      replacePlaceholders now (lit "{month}-{m}") = lit "03-03").
Proof.
  split; [apply replacePlaceholders_one_pass|]. split; [|split].
  - intros tok field before after Hin.
    rewrite !replacePlaceholders_one_pass.
    apply substitute_occurrence; [apply token_table_braced|].
    exact (@token_table_distinct _ (tok, field) Hin).
  - intros H. rewrite replacePlaceholders_one_pass.
    now apply substitute_unchanged.
  - intros Hm. destruct now as [yr mo dy hr mi se]. cbn [getMonth] in Hm.
    subst mo. lazy. reflexivity.
Qed.

(** The theorem at a quarter past two on 15 March 2023, for a template
    with a bracketed word that is no token, and for the day token
    between two pieces of text. *)
Lemma replacePlaceholders_every_token_witness :
  let now := {| getFullYear := 2023; getMonth := 2; getDate := 15;
                getHours := 14; getMinutes := 15; getSeconds := 9 |} in
  let template := lit "clip {title} {M}" in
  (forall tok, In tok recognized_tokens -> includes tok template = false)
  /\ getMonth now = 2
  /\ In (lit "{day}", lit "15") (token_table (getCurrentDateTime now))
  /\ replacePlaceholders now template = template
  /\ replacePlaceholders now (lit "{month}-{m}") = lit "03-03"
  /\ replacePlaceholders now (lit "a{d" ++ lit "{day}" ++ lit "}{x}")
     = lit "a{d" ++ lit "15" ++ lit "}{x}".
Proof.
  intros now template.
  assert (Hnone : forall tok, In tok recognized_tokens ->
                              includes tok template = false).
  { intros tok Hin. cbn [recognized_tokens map In] in Hin.
    repeat (destruct Hin as [<-|Hin]; [reflexivity|]). destruct Hin. }
  assert (Hday : In (lit "{day}", lit "15")
                   (token_table (getCurrentDateTime now)))
    by (do 6 right; left; reflexivity).
  destruct (replacePlaceholders_every_token now template)
    as (_ & Hocc & Hsame & Hmonth).
  split; [exact Hnone|]. split; [reflexivity|]. split; [exact Hday|].
  split; [exact (Hsame Hnone)|]. split; [exact (Hmonth eq_refl)|].
  exact (Hocc _ _ (lit "a{d") (lit "}{x}") Hday).
Defined.

End PlaceholderFacts.

(** ** Format catalogue *)

Section SortFacts.

Import FormatCatalog.

Local Open Scope Z_scope.

Variable A : Type.
Variable key : A -> Z.

(** A comparator that subtracts the keys, the second argument first:
    [(a, b) => key(b) - key(a)]. *)
Variable cmp : A -> A -> Z.
Hypothesis cmp_key : forall a b, cmp a b = key b - key a.


Lemma insert_by_perm (x : A) (l : list A) :
  Permutation (insert_by cmp x l) (x :: l).
Proof.
  induction l as [|y r IH]; cbn [insert_by]; [reflexivity|].
  destruct (cmp x y <=? 0); [reflexivity|].
  rewrite IH. apply perm_swap.
Qed.

Lemma sort_by_perm (l : list A) : Permutation (sort_by cmp l) l.
Proof.
  induction l as [|x r IH]; cbn [sort_by]; [reflexivity|].
  rewrite insert_by_perm. now constructor.
Qed.

Lemma insert_by_desc (x : A) (l : list A) :
  descending key l -> descending key (insert_by cmp x l).
Proof.
  unfold descending. induction 1 as [|y r Hr IH Hy]; cbn [insert_by].
  - repeat constructor.
  - destruct (Z.leb_spec (cmp x y) 0) as [Hle|Hgt]; rewrite cmp_key in *.
    + constructor; [now constructor|].
      constructor; [lia|].
      eapply Forall_impl; [|exact Hy]. intros b Hb. cbn beta in Hb. lia.
    + constructor; [exact IH|].
      rewrite (insert_by_perm x r). constructor; [lia | exact Hy].
Qed.

Lemma sort_by_desc (l : list A) : descending key (sort_by cmp l).
Proof.
  induction l as [|x r IH]; cbn [sort_by]; [constructor|].
  now apply insert_by_desc.
Qed.

(** Stability: an element passes only elements with a smaller key. *)
Lemma insert_by_stable (k : Z) (x : A) (l : list A) :
  with_key key k (insert_by cmp x l) = with_key key k (x :: l).
Proof.
  unfold with_key. induction l as [|y r IH]; cbn [insert_by]; [reflexivity|].
  destruct (Z.leb_spec (cmp x y) 0) as [Hle|Hgt]; [reflexivity|].
  rewrite cmp_key in Hgt. cbn [filter] in *. rewrite IH.
  destruct (Z.eqb_spec (key y) k), (Z.eqb_spec (key x) k);
    try reflexivity; lia.
Qed.

Lemma sort_by_stable (k : Z) (l : list A) :
  with_key key k (sort_by cmp l) = with_key key k l.
Proof.
  induction l as [|x r IH]; cbn [sort_by]; [reflexivity|].
  rewrite insert_by_stable. unfold with_key in *. cbn [filter].
  now rewrite IH.
Qed.

(** The first element after sorting has the greatest key. *)
Lemma sort_by_first (l : list A) :
  l <> [] ->
  exists best,
    nth_error (sort_by cmp l) 0 = Some best /\ In best l
    /\ forall f, In f l -> key f <= key best.
Proof.
  intros Hne.
  pose proof (sort_by_perm l) as Hperm.
  pose proof (sort_by_desc l) as Hdesc.
  destruct (sort_by cmp l) as [|best rest] eqn:E.
  - apply Permutation_nil in Hperm. congruence.
  - exists best. split; [reflexivity|]. split.
    + apply (Permutation_in _ Hperm). now left.
    + intros f Hf. apply (Permutation_in _ (Permutation_sym Hperm)) in Hf.
      unfold descending in Hdesc. apply StronglySorted_inv in Hdesc as [_ Hall].
      destruct Hf as [<-|Hf]; [lia|].
      rewrite Forall_forall in Hall. now apply Hall.
Qed.

(** Sorted lists with the same elements in the same order for every key
    are equal: the result of a stable sort does not depend on the
    algorithm. *)
Lemma desc_unique (l1 l2 : list A) :
  descending key l1 -> descending key l2 ->
  (forall k, with_key key k l1 = with_key key k l2) -> l1 = l2.
Proof.
  unfold descending, with_key. intros H1. revert l2.
  induction H1 as [|x r1 Hr1 IH Hx]; intros l2 H2 Hsame.
  - destruct l2 as [|y r2]; [reflexivity|].
    specialize (Hsame (key y)). cbn [filter] in Hsame.
    rewrite Z.eqb_refl in Hsame. discriminate.
  - destruct l2 as [|y r2].
    + specialize (Hsame (key x)). cbn [filter] in Hsame.
      rewrite Z.eqb_refl in Hsame. discriminate.
    + apply StronglySorted_inv in H2 as [Hr2 Hy].
      rewrite Forall_forall in Hx, Hy.
      assert (Hxy : key x = key y).
      { assert (In x (y :: r2)) as [<-|Hin].
        { pose proof (Hsame (key x)) as E. cbn [filter] in E.
          rewrite Z.eqb_refl in E.
          assert (Hi : In x (x :: filter (fun f => key f =? key x) r1))
            by now left.
          rewrite E in Hi.
          destruct (key y =? key x); [destruct Hi as [Hi|Hi]|];
            [now left | right | right]; apply filter_In in Hi; apply Hi. }
        { reflexivity. }
        assert (In y (x :: r1)) as [->|Hin'].
        { pose proof (Hsame (key y)) as E. cbn [filter] in E.
          rewrite Z.eqb_refl in E.
          assert (Hi : In y (y :: filter (fun f => key f =? key y) r2))
            by now left.
          rewrite <- E in Hi.
          destruct (key x =? key y); [destruct Hi as [Hi|Hi]|];
            [now left | right | right]; apply filter_In in Hi; apply Hi. }
        { reflexivity. }
        specialize (Hx _ Hin'). specialize (Hy _ Hin). lia. }
      pose proof (Hsame (key x)) as E. cbn [filter] in E.
      rewrite <- Hxy, Z.eqb_refl in E. injection E as <- E.
      f_equal. apply IH; [exact Hr2|].
      intros k. specialize (Hsame k). cbn [filter] in Hsame.
      destruct (key x =? k); [now injection Hsame | exact Hsame].
Qed.

Lemma stable_sort_unique (l sorted : list A) :
  descending key sorted ->
  (forall k, with_key key k sorted = with_key key k l) ->
  sorted = sort_by cmp l.
Proof.
  intros Hd Hs. apply desc_unique; [exact Hd | apply sort_by_desc|].
  intros k. now rewrite Hs, sort_by_stable.
Qed.

End SortFacts.

Section FormatCatalogFacts.

Import FormatCatalog.

Local Open Scope Z_scope.

Lemma str_eqb_eq (a b : jsstring) : str_eqb a b = true <-> a = b.
Proof.
  revert b. induction a as [|x a IH]; intros [|y b]; cbn [str_eqb];
    try (split; [discriminate|discriminate]); try tauto.
  rewrite andb_true_iff, N.eqb_eq, IH. split.
  - now intros [-> ->].
  - intros E. now injection E.
Qed.

Lemma is_none_spec (o : option jsstring) :
  is_none o = true <-> o = Some (lit "none").
Proof.
  destruct o as [s|]; cbn [is_none].
  - rewrite str_eqb_eq. split; [now intros -> | intros E; now injection E].
  - split; discriminate.
Qed.

Lemma is_not_none_spec (o : option jsstring) :
  negb (is_none o) = true <-> o <> Some (lit "none").
Proof.
  rewrite negb_true_iff, <- is_none_spec.
  destruct (is_none o); split; congruence.
Qed.

Lemma truthy_height_spec (f : Format) :
  truthy_num (height f) = true <-> resolution_present f.
Proof.
  unfold truthy_num, resolution_present. destruct (height f) as [r|].
  - rewrite negb_true_iff, Z.eqb_neq. split.
    + intros Hr. now exists r.
    + intros (r' & E & Hr). now injection E as ->.
  - split; [discriminate | intros (r & E & _); discriminate].
Qed.

Lemma isVideoAudio_spec (f : Format) : isVideoAudio f = true <-> combined f.
Proof.
  unfold isVideoAudio, combined.
  now rewrite !andb_true_iff, !is_not_none_spec, truthy_height_spec, and_assoc.
Qed.

Lemma isVideoOnly_spec (f : Format) : isVideoOnly f = true <-> video_only f.
Proof.
  unfold isVideoOnly, video_only.
  now rewrite !andb_true_iff, is_not_none_spec, is_none_spec,
    truthy_height_spec, and_assoc.
Qed.

Lemma isAudioOnly_spec (f : Format) : isAudioOnly f = true <-> audio_only f.
Proof.
  unfold isAudioOnly, audio_only.
  now rewrite andb_true_iff, is_not_none_spec, is_none_spec.
Qed.

Lemma by_height_desc_key (a b : Format) :
  by_height_desc a b = resolution b - resolution a.
Proof. reflexivity. Qed.

Lemma or_zero_bitrate (f : Format) : or_zero (abr f) = bitrate f.
Proof.
  unfold or_zero, bitrate, truthy_num, num_of.
  destruct (abr f) as [b|]; [|reflexivity].
  destruct (Z.eqb_spec b 0); cbn [negb]; congruence.
Qed.

Lemma by_abr_desc_key (a b : Format) :
  by_abr_desc a b = bitrate b - bitrate a.
Proof. unfold by_abr_desc. now rewrite !or_zero_bitrate. Qed.

(** One category of [organizeFormats]: a filter, then the stable sort. *)
Lemma category_sorted (key : Format -> Z) (cmp : Format -> Format -> Z)
    (test : Format -> bool) (member : Format -> Prop) (formats : list Format) :
  (forall a b, cmp a b = key b - key a) ->
  (forall f, test f = true <-> member f) ->
  let chosen := sort_by cmp (filter test formats) in
  (forall f, In f chosen <-> In f formats /\ member f)
  /\ Permutation chosen (filter test formats)
  /\ descending key chosen
  /\ same_order_on_ties key (filter test formats) chosen.
Proof.
  intros Hcmp Htest chosen. subst chosen. split; [|split; [|split]].
  - intros f. rewrite <- Htest, <- filter_In. split; intros Hin.
    + now apply (Permutation_in _ (sort_by_perm cmp _)).
    + now apply (Permutation_in _ (Permutation_sym (sort_by_perm cmp _))).
  - apply sort_by_perm.
  - now apply sort_by_desc.
  - intros k. now apply sort_by_stable.
Qed.

(** C4: [organizeFormats] puts into [videoAudio] exactly the formats of
    the combined category, into [videoOnly] exactly those of the
    video-only category, both sorted by resolution, highest first, and
    into [audioOnly] exactly those of the audio-only category, sorted by
    bitrate, highest first, a missing bitrate counting as 0; formats with
    equal keys keep the order they had in the input. *)
Theorem organizeFormats_categories (formats : list Format) :
  let organized := organizeFormats formats in
  ((forall f, isVideoAudio f = true <-> combined f)
   /\ (forall f, In f (videoAudio organized) <-> In f formats /\ combined f)
   /\ Permutation (videoAudio organized) (filter isVideoAudio formats)
   /\ descending resolution (videoAudio organized)
   /\ same_order_on_ties resolution (filter isVideoAudio formats)
        (videoAudio organized))
  /\ ((forall f, isVideoOnly f = true <-> video_only f)
      /\ (forall f, In f (videoOnly organized) <-> In f formats /\ video_only f)
      /\ Permutation (videoOnly organized) (filter isVideoOnly formats)
      /\ descending resolution (videoOnly organized)
      /\ same_order_on_ties resolution (filter isVideoOnly formats)
           (videoOnly organized))
  /\ ((forall f, isAudioOnly f = true <-> audio_only f)
      /\ (forall f, In f (audioOnly organized) <-> In f formats /\ audio_only f)
      /\ Permutation (audioOnly organized) (filter isAudioOnly formats)
      /\ descending bitrate (audioOnly organized)
      /\ same_order_on_ties bitrate (filter isAudioOnly formats)
           (audioOnly organized)).
Proof.
  cbn zeta. unfold organizeFormats. cbn [videoAudio videoOnly audioOnly].
  split; [|split].
  - split; [exact isVideoAudio_spec|].
    exact (category_sorted resolution by_height_desc isVideoAudio combined
             formats by_height_desc_key isVideoAudio_spec).
  - split; [exact isVideoOnly_spec|].
    exact (category_sorted resolution by_height_desc isVideoOnly video_only
             formats by_height_desc_key isVideoOnly_spec).
  - split; [exact isAudioOnly_spec|].
    exact (category_sorted bitrate by_abr_desc isAudioOnly audio_only
             formats by_abr_desc_key isAudioOnly_spec).
Qed.

Lemma filter_nonempty (test : Format -> bool) (member : Format -> Prop)
    (formats : list Format) :
  (forall f, test f = true <-> member f) ->
  ((0 <? length (filter test formats))%nat = true
   <-> exists f, In f formats /\ member f).
Proof.
  intros Htest. rewrite Nat.ltb_lt. split.
  - destruct (filter test formats) as [|f r] eqn:E; cbn [length]; [lia|].
    intros _. exists f. rewrite <- Htest, <- filter_In, E. now left.
  - intros (f & Hf). rewrite <- Htest, <- filter_In in Hf.
    destruct (filter test formats); [destruct Hf | cbn [length]; lia].
Qed.

(** The best format of a category: the first one of the sorted filter. *)
Lemma best_of_category (test : Format -> bool) (member : Format -> Prop)
    (formats : list Format) :
  (forall f, test f = true <-> member f) ->
  (exists f, In f formats /\ member f) ->
  exists best,
    nth_error (sort_by by_height_desc (filter test formats)) 0 = Some best
    /\ In best formats /\ member best
    /\ forall f, In f formats -> member f -> resolution f <= resolution best.
Proof.
  intros Htest Hex.
  destruct (@sort_by_first _ resolution by_height_desc by_height_desc_key
              (filter test formats)) as (best & Hnth & Hin & Hmax).
  { destruct Hex as (f & Hf). rewrite <- Htest, <- filter_In in Hf.
    intros E. now rewrite E in Hf. }
  exists best. rewrite filter_In, Htest in Hin.
  repeat split; try tauto.
  intros f Hf Hm. apply Hmax. rewrite filter_In, Htest. tauto.
Qed.

(** C3: [selectBestFormat] answers a format of greatest resolution of
    the combined category when that category is not empty; otherwise one
    of greatest resolution of the video-only category when that one is
    not empty; otherwise [null].  The answer is never an audio-only
    format. *)
Theorem selectBestFormat_best (formats : list Format) :
  ((exists f, In f formats /\ combined f) ->
   exists best,
     selectBestFormat formats = Some best
     /\ In best formats /\ combined best
     /\ forall f, In f formats -> combined f -> resolution f <= resolution best)
  /\ (~ (exists f, In f formats /\ combined f) ->
      (exists f, In f formats /\ video_only f) ->
      exists best,
        selectBestFormat formats = Some best
        /\ In best formats /\ video_only best
        /\ forall f, In f formats -> video_only f ->
                     resolution f <= resolution best)
  /\ (~ (exists f, In f formats /\ combined f) ->
      ~ (exists f, In f formats /\ video_only f) ->
      selectBestFormat formats = None)
  /\ (forall best, selectBestFormat formats = Some best -> ~ audio_only best).
Proof.
  pose proof (filter_nonempty isVideoAudio combined formats isVideoAudio_spec)
    as Hva.
  pose proof (filter_nonempty isVideoOnly video_only formats isVideoOnly_spec)
    as Hvo.
  assert (Hva' : ~ (exists f, In f formats /\ combined f) ->
                 (0 <? length (filter isVideoAudio formats))%nat = false)
    by (intros Hno; apply not_true_is_false; intros E; now apply Hno, Hva).
  assert (Hvo' : ~ (exists f, In f formats /\ video_only f) ->
                 (0 <? length (filter isVideoOnly formats))%nat = false)
    by (intros Hno; apply not_true_is_false; intros E; now apply Hno, Hvo).
  assert (H1 : (exists f, In f formats /\ combined f) ->
               exists best,
                 selectBestFormat formats = Some best
                 /\ In best formats /\ combined best
                 /\ forall f, In f formats -> combined f ->
                              resolution f <= resolution best).
  { intros Hex. unfold selectBestFormat.
    rewrite (proj2 Hva Hex).
    exact (best_of_category isVideoAudio combined formats
             isVideoAudio_spec Hex). }
  assert (H2 : ~ (exists f, In f formats /\ combined f) ->
               (exists f, In f formats /\ video_only f) ->
               exists best,
                 selectBestFormat formats = Some best
                 /\ In best formats /\ video_only best
                 /\ forall f, In f formats -> video_only f ->
                              resolution f <= resolution best).
  { intros Hno Hex. unfold selectBestFormat.
    rewrite (Hva' Hno), (proj2 Hvo Hex).
    exact (best_of_category isVideoOnly video_only formats
             isVideoOnly_spec Hex). }
  assert (H3 : ~ (exists f, In f formats /\ combined f) ->
               ~ (exists f, In f formats /\ video_only f) ->
               selectBestFormat formats = None).
  { intros Hno Hno'. unfold selectBestFormat.
    now rewrite (Hva' Hno), (Hvo' Hno'). }
  repeat split; try assumption.
  intros best Hbest [Hv _].
  destruct (Bool.bool_dec (0 <? length (filter isVideoAudio formats))%nat true)
    as [E|E].
  - apply Hva in E. destruct (H1 E) as (b & Hb & _ & (Hnv & _) & _).
    congruence.
  - assert (Hno : ~ (exists f, In f formats /\ combined f))
      by (intros Hex; now apply Hva in Hex).
    destruct (Bool.bool_dec (0 <? length (filter isVideoOnly formats))%nat true)
      as [E'|E'].
    + apply Hvo in E'. destruct (H2 Hno E') as (b & Hb & _ & (Hnv & _) & _).
      congruence.
    + assert (Hno' : ~ (exists f, In f formats /\ video_only f))
        by (intros Hex; now apply Hvo in Hex).
      rewrite (H3 Hno Hno') in Hbest. discriminate.
Qed.

(** The theorem on the three formats of the specification's example
    (1080 lines with sound, 2160 lines without, sound only), on the last
    two, and on the last one. *)
Lemma selectBestFormat_best_witness :
  let f1 := descriptor "1" (Some 1080) "vp9" "aac" in
  let f2 := descriptor "2" (Some 2160) "vp9" "none" in
  let f3 := descriptor "3" None "none" "mp3" in
  ((exists f, In f [f1; f2; f3] /\ combined f)
   /\ selectBestFormat [f1; f2; f3] = Some f1
   /\ exists best,
        selectBestFormat [f1; f2; f3] = Some best
        /\ In best [f1; f2; f3] /\ combined best
        /\ forall f, In f [f1; f2; f3] -> combined f ->
                     resolution f <= resolution best)
  /\ (~ (exists f, In f [f2; f3] /\ combined f)
      /\ (exists f, In f [f2; f3] /\ video_only f)
      /\ selectBestFormat [f2; f3] = Some f2
      /\ exists best,
           selectBestFormat [f2; f3] = Some best
           /\ In best [f2; f3] /\ video_only best
           /\ forall f, In f [f2; f3] -> video_only f ->
                        resolution f <= resolution best)
  /\ (~ (exists f, In f [f3] /\ combined f)
      /\ ~ (exists f, In f [f3] /\ video_only f)
      /\ selectBestFormat [f3] = None)
  /\ ~ audio_only f1.
Proof.
  intros f1 f2 f3.
  assert (Hex1 : exists f, In f [f1; f2; f3] /\ combined f).
  { exists f1. split; [now left|]. now apply isVideoAudio_spec. }
  assert (Hno2 : ~ (exists f, In f [f2; f3] /\ combined f)).
  { intros (f & [<-|[<-|[]]] & Hc); apply isVideoAudio_spec in Hc;
      discriminate Hc. }
  assert (Hex2 : exists f, In f [f2; f3] /\ video_only f).
  { exists f2. split; [now left|]. now apply isVideoOnly_spec. }
  assert (Hno3 : ~ (exists f, In f [f3] /\ combined f)).
  { intros (f & [<-|[]] & Hc); apply isVideoAudio_spec in Hc; discriminate Hc. }
  assert (Hno3' : ~ (exists f, In f [f3] /\ video_only f)).
  { intros (f & [<-|[]] & Hc); apply isVideoOnly_spec in Hc; discriminate Hc. }
  destruct (selectBestFormat_best [f1; f2; f3]) as (A1 & _ & _ & A4).
  destruct (selectBestFormat_best [f2; f3]) as (_ & B2 & _ & _).
  destruct (selectBestFormat_best [f3]) as (_ & _ & C3 & _).
  split; [|split; [|split]].
  - split; [exact Hex1|]. split; [reflexivity | exact (A1 Hex1)].
  - split; [exact Hno2|]. split; [exact Hex2|].
    split; [reflexivity | exact (B2 Hno2 Hex2)].
  - split; [exact Hno3|]. split; [exact Hno3' | exact (C3 Hno3 Hno3')].
  - exact (A4 f1 eq_refl).
Defined.

End FormatCatalogFacts.

(** ** Entry point A: the request of [downloadVideo] *)

(** ** Numbers as text *)

Section NumberFacts.

Import Num.

Local Open Scope N_scope.

(** Below 2^53 every natural number is a double, and no other number
    rounds to it. *)
Lemma round_double_small (x c : N) :
  x < 2 ^ 53 -> round_double c = Some x -> c = x.
Proof.
  intros Hx. unfold round_double.
  destruct (N.ltb_spec c (2 ^ 53)) as [Hc|Hc]; [congruence|].
  cbv zeta.
  set (e := N.log2 c - 52).
  set (q := N.shiftr c e).
  set (q' := if ((2 ^ (e - 1) <? c - N.shiftl q e)
                 || ((c - N.shiftl q e =? 2 ^ (e - 1)) && N.odd q))%bool
             then q + 1 else q).
  destruct (2 ^ 1024 <=? N.shiftl q' e); [discriminate|].
  intros H. injection H as H. exfalso.
  assert (Hlog : 53 <= N.log2 c).
  { rewrite <- (N.log2_pow2 53) by lia. now apply N.log2_le_mono. }
  assert (Hpos : 0 < c)
    by (apply N.lt_le_trans with (2 ^ 53); [reflexivity | exact Hc]).
  destruct (N.log2_spec c Hpos) as [Hlo _].
  assert (He : 52 + e = N.log2 c) by (unfold e; lia).
  assert (Hq : 2 ^ 52 <= q).
  { unfold q. rewrite N.shiftr_div_pow2.
    rewrite <- He, N.pow_add_r in Hlo.
    apply N.div_le_lower_bound; [apply N.pow_nonzero; discriminate|].
    now rewrite N.mul_comm. }
  assert (Hq' : q <= q') by (unfold q'; destruct (_ || _)%bool; lia).
  rewrite N.shiftl_mul_pow2 in H.
  assert (H1 : 1 <= e) by (unfold e; lia).
  assert (H2 : 2 ^ 1 <= 2 ^ e)
    by (apply N.pow_le_mono_r; [discriminate | exact H1]).
  assert (2 ^ 52 * 2 ^ 1 <= q' * 2 ^ e).
  { apply N.mul_le_mono; [lia | exact H2]. }
  change (2 ^ 52 * 2 ^ 1) with (2 ^ 53) in *. lia.
Qed.

Lemma candidate_rounds (x : N) (k : nat) (c : N) :
  candidate x k = Some c -> rounds_to x c = true.
Proof.
  unfold candidate. cbv zeta.
  destruct (rounds_to x (x / _ * _)) eqn:Elo,
    (rounds_to x (x / _ * _ + _)) eqn:Ehi; try discriminate.
  - destruct (_ <? _); [congruence|]. destruct (_ <? _); [congruence|].
    destruct (N.even _); congruence.
  - congruence.
  - congruence.
Qed.

Lemma shortest_small (x : N) : x < 2 ^ 53 -> shortest x = x.
Proof.
  intros Hx. unfold shortest. generalize 1%nat as k.
  induction (digits x) as [|fuel IH]; intros k; cbn [shortest_from];
    [reflexivity|].
  destruct (candidate x k) as [c|] eqn:E; [|apply IH].
  apply candidate_rounds in E. unfold rounds_to in E.
  destruct (round_double c) as [v|] eqn:Ev; [|discriminate].
  apply N.eqb_eq in E. subst v. now apply round_double_small in Ev.
Qed.

Lemma positive_toString_small (x : N) :
  x < 2 ^ 53 -> positive_toString x = N_toString x.
Proof.
  intros Hx. unfold positive_toString. rewrite shortest_small by exact Hx.
  cbv zeta.
  destruct (N.ltb_spec x (10 ^ 21)) as [_|H]; [reflexivity|].
  exfalso. assert (2 ^ 53 < 10 ^ 21) by reflexivity. lia.
Qed.

(** What [parseInt] reads and a template literal writes at the edges
    of the doubles: exact up to 2^53, the nearest double above (ties to
    even), seventeen digits at most, an exponent from 10^21 on, and
    [Infinity] from 309 digits on. *)
Example Number_toString_examples :
  map (fun s => option_map Number_toString (EntryA.parseInt (lit s)))
    ["1080"; " -720p"; "0x1F"; "best"; "9007199254740992";
     "9007199254740993"; "9007199254740995"; "1152921504606846976";
     "18446744073709551616"; "999999999999999999999";
     "1000000000000000000000"; "1180591620717411303424";
     "100000000000000000000000"; "-123456789012345678901234567890"]%string
  = map (fun s => match s with
                  | EmptyString => None
                  | _ => Some (lit s)
                  end)
      ["1080"; "-720"; "31"; ""; "9007199254740992";
       "9007199254740992"; "9007199254740996"; "1152921504606847000";
       "18446744073709552000"; "1e+21";
       "1e+21"; "1.1805916207174113e+21";
       "1e+23"; "-1.2345678901234568e+29"]%string
  /\ option_map Number_toString
       (EntryA.parseInt (lit "1" ++ repeat 48 308))
     = Some (lit "1e+308")
  /\ EntryA.parseInt (lit "-1" ++ repeat 48 309) = Some (Infinite true)
  /\ Number_toString (Infinite true) = lit "-Infinity".
Proof. vm_compute. repeat split. Qed.

End NumberFacts.

Section EntryAFacts.

Import FormatCatalog Host Path EntryA.

Context {path : PathModule}.

(** The output template after both assignments: the second one, on the
    default directory, always wins. *)
Lemma downloadOptions_output (videoInfo : VideoInfo) (folder : jsstring)
    (selectedFormat : jsstring) (options : Options) :
  output (downloadOptions videoInfo folder selectedFormat options)
  = Some (join [defaultOutputDir folder;
                (if truthy_ostr (filename options)
                 then str_of (filename options)
                 else NameSanitizer.minimalSanitizeFilename (title videoInfo))
                ++ lit ".%(ext)s"]).
Proof.
  unfold downloadOptions.
  destruct (truthy_ostr (outputDir options)),
    (truthy_ostr (filename options)), (audioOnly options); reflexivity.
Qed.

Lemma downloadOptions_video (videoInfo : VideoInfo) (folder : jsstring)
    (selectedFormat : jsstring) (options : Options) :
  audioOnly options = false ->
  let request := downloadOptions videoInfo folder selectedFormat options in
  format request = Some (formatString selectedFormat options)
  /\ writeThumbnail request = Some true
  /\ writeDescription request = Some true.
Proof.
  intros Haudio. cbn zeta. unfold downloadOptions. rewrite Haudio.
  destruct (truthy_ostr (outputDir options)),
    (truthy_ostr (filename options)); repeat split.
Qed.

(** C7: in [downloadVideo] of entry point A the format is, for the
    selection [auto], the selector with the height floor when a quality
    is configured and the plain best selector otherwise; a concrete
    format identifier is handed through; with [audioOnly] the format is
    the audio selector whatever was selected, audio extraction is
    requested, and the thumbnail and description requests are removed. *)
Theorem downloadOptions_format (videoInfo : VideoInfo) (folder : jsstring)
    (selectedFormat : jsstring) (options : Options) :
  let request := downloadOptions videoInfo folder selectedFormat options in
  (audioOnly options = false ->
   (selectedFormat = lit "auto" ->
    (forall q, quality options = Some q -> q <> Num.Finite 0 ->
       format request
       = Some (lit "bestvideo[height>=" ++ Num.Number_toString q
               ++ lit "]+bestaudio/bestvideo+bestaudio/best"))
    /\ (forall z, quality options = Some (Num.Finite z) ->
        (0 < z < 2 ^ 53)%Z ->
        format request
        = Some (lit "bestvideo[height>=" ++ Num.N_toString (Z.to_N z)
                ++ lit "]+bestaudio/bestvideo+bestaudio/best"))
    /\ (Num.truthy_number (quality options) = false ->
        format request = Some (lit "bestvideo+bestaudio/best")))
   /\ (selectedFormat <> lit "auto" -> format request = Some selectedFormat)
   /\ writeThumbnail request = Some true
   /\ writeDescription request = Some true)
  /\ (audioOnly options = true ->
      format request = Some (lit "bestaudio[ext=m4a]/bestaudio")
      /\ extractAudio request = Some true
      /\ audioFormat request = Some (lit "mp3")
      /\ writeThumbnail request = None
      /\ writeDescription request = None).
Proof.
  cbn zeta. split; intros Haudio.
  - destruct (downloadOptions_video videoInfo folder selectedFormat options
                Haudio) as (-> & -> & ->).
    repeat split.
    + intros q Hq Hq0. unfold formatString. subst selectedFormat.
      cbn [str_eqb]. rewrite Hq. destruct q as [z|negative]; [|reflexivity].
      cbn [Num.truthy_number].
      destruct (Z.eqb_spec z 0); [now subst z | reflexivity].
    + intros z Hq Hz. unfold formatString. subst selectedFormat.
      cbn [str_eqb]. rewrite Hq. cbn [Num.truthy_number].
      destruct (Z.eqb_spec z 0); [lia|]. cbn [negb].
      destruct z as [|p|p]; try lia. cbn [Num.Number_toString Z.to_N].
      rewrite positive_toString_small; [reflexivity|].
      change (2 ^ 53)%Z with 9007199254740992%Z in Hz.
      change (2 ^ 53)%N with 9007199254740992%N. lia.
    + intros Hq. unfold formatString. subst selectedFormat.
      cbn [str_eqb]. destruct (quality options) as [q|]; [|reflexivity].
      now rewrite Hq.
    + intros Hsel. unfold formatString.
      assert (E : str_eqb selectedFormat (lit "auto") = false).
      { apply not_true_is_false. intros E. now apply str_eqb_eq in E. }
      now rewrite E.
  - unfold downloadOptions. rewrite Haudio. repeat split.
Qed.

End EntryAFacts.

Section EntryAWitness.

Import FormatCatalog Host Path EntryA.

(** The theorem for a quality floor of 1080 lines with automatic
    selection, for the floor [parseInt] reads from a one and twenty-one
    zeros, which is written with an exponent, and for an audio-only
    request of format 137. *)
Lemma downloadOptions_format_witness :
  let info := {| title := lit "clip"; formats := [] |} in
  let floor := with_quality (Some (Num.Finite 1080)) noOptions in
  let huge :=
    with_quality (parseInt (lit "1000000000000000000000")) noOptions in
  let audio := with_audioOnly noOptions in
  let ask := downloadOptions (path := posix) info (lit "f") in
  (audioOnly floor = false
   /\ quality floor = Some (Num.Finite 1080)
   /\ (0 < 1080 < 2 ^ 53)%Z
   /\ format (ask (lit "auto") floor)
      = Some (lit "bestvideo[height>=1080]+bestaudio/bestvideo+bestaudio/best"))
  /\ (quality huge = Some (Num.Finite (10 ^ 21))
      /\ Num.Finite (10 ^ 21) <> Num.Finite 0
      /\ format (ask (lit "auto") huge)
         = Some (lit "bestvideo[height>=1e+21]"
                 ++ lit "+bestaudio/bestvideo+bestaudio/best"))
  /\ (Num.truthy_number (quality noOptions) = false
      /\ format (ask (lit "auto") noOptions)
         = Some (lit "bestvideo+bestaudio/best"))
  /\ (lit "137" <> lit "auto"
      /\ format (ask (lit "137") noOptions) = Some (lit "137"))
  /\ (audioOnly audio = true
      /\ format (ask (lit "137") audio)
         = Some (lit "bestaudio[ext=m4a]/bestaudio")
      /\ writeThumbnail (ask (lit "137") audio) = None
      /\ writeDescription (ask (lit "137") audio) = None).
Proof.
  intros info floor huge audio ask.
  assert (Hq : (0 < 1080 < 2 ^ 53)%Z) by (split; reflexivity).
  assert (Hhuge : Num.Finite (10 ^ 21) <> Num.Finite 0) by discriminate.
  assert (Hid : lit "137" <> lit "auto") by discriminate.
  pose proof (fun selected options =>
                downloadOptions_format (path := posix) info (lit "f")
                  selected options) as T.
  destruct (T (lit "auto") floor) as (F & _).
  destruct (F eq_refl) as (Fauto & _).
  destruct (Fauto eq_refl) as (_ & Ffloor & _).
  destruct (T (lit "auto") huge) as (G & _).
  destruct (G eq_refl) as (Gauto & _).
  destruct (Gauto eq_refl) as (Ghuge & _).
  destruct (T (lit "auto") noOptions) as (P & _).
  destruct (P eq_refl) as (Pauto & _).
  destruct (Pauto eq_refl) as (_ & _ & Pplain).
  destruct (T (lit "137") noOptions) as (I & _).
  destruct (I eq_refl) as (_ & Iid & _).
  destruct (T (lit "137") audio) as (_ & U).
  destruct (U eq_refl) as (Ufmt & _ & _ & Uthumb & Udesc).
  split; [|split; [|split; [|split]]].
  - split; [reflexivity|]. split; [reflexivity|]. split; [exact Hq|].
    exact (Ffloor 1080%Z eq_refl Hq).
  - assert (Hread : quality huge = Some (Num.Finite (10 ^ 21)))
      by (vm_compute; reflexivity).
    split; [exact Hread|]. split; [exact Hhuge|].
    etransitivity; [exact (Ghuge (Num.Finite (10 ^ 21)) Hread Hhuge)|].
    vm_compute. reflexivity.
  - split; [reflexivity | exact (Pplain eq_refl)].
  - split; [exact Hid | exact (Iid Hid)].
  - split; [reflexivity|]. split; [exact Ufmt|]. split; [exact Uthumb|].
    exact Udesc.
Defined.

End EntryAWitness.


(** C1: with [outputDir] set to [./videos], [downloadVideo] of entry
    point A still writes below the default directory: the output
    template and the directory it creates are those of the folder name,
    and [./videos] is in neither; the same from the command line with
    [--auto --output-dir ./videos].  The file name is the sanitized
    title, as the claim says. *)
Theorem downloadOptions_outputDir_unused :
  let info := {| Host.title := lit "a:b"; Host.formats := [] |} in
  let options := EntryA.with_outputDir (lit "./videos") EntryA.noOptions in
  let request :=
    EntryA.downloadOptions (path := Path.posix) info (lit "f") (lit "auto")
      options in
  let url := lit "https://youtu.be/aaaaaaaaaaa" in
  let run :=
    EntryA.main (path := Path.posix) Scenario.calm
      [url; lit "--auto"; lit "--output-dir"; lit "./videos"] [] in
  Host.output request = Some (lit "/volume1/media/datas/youtubes/f/a_b.%(ext)s")
  /\ EntryA.createdDir (path := Path.posix) info request
     = lit "/volume1/media/datas/youtubes/f"
  /\ includes (lit "videos") (str_of (Host.output request)) = false
  /\ map (fun r => Host.output (snd r)) (Scenario.requests (fst run))
     = [Some (lit "/volume1/media/datas/youtubes/clip/clip.%(ext)s")].
Proof. repeat split. Qed.

(** ** The download passes and their retries *)

Section DownloadFacts.

Import FormatCatalog Host Path Scenario.

Context {path : PathModule}.

(** Unfolds the pieces of script down to the answers of the world. *)
Ltac run_script :=
  unfold try_catch, bind, fs_existsSync, fs_mkdirSync, youtubedl,
    youtubedl_dumpJson, youtubedl_version, history, log, emit, ret, throw;
  cbn [app filter is_download length fst snd requests flat_map].

(** Entry point A asks the downloader at most once per video. *)
Lemma downloadVideo_A_once (w : World) (url : jsstring) (videoInfo : VideoInfo)
    (folder selectedFormat : jsstring) (options : EntryA.Options) :
  (length (requests (fst (EntryA.downloadVideo w url videoInfo folder
                            selectedFormat options []))) <= 1)%nat.
Proof.
  unfold EntryA.downloadVideo. run_script.
  destruct (existsSync w _); run_script.
  - destruct (download w 0 url _); run_script; lia.
  - destruct (mkdirSync w _); run_script; [lia|].
    destruct (download w 0 url _); run_script; lia.
Qed.

(** [getVideoInfo] asks once, and never downloads. *)
Lemma getVideoInfo_once (w : World) (url : jsstring) :
  fst (getVideoInfo w url []) = [YoutubedlDumpJson url].
Proof.
  unfold getVideoInfo. run_script. destruct (dumpJson w url); reflexivity.
Qed.

(** The three requests of entry point B differ as the source writes
    them: same URL, same output template; the audio request asks for
    [bestaudio], the retry for [bestaudio/best] and nothing else is
    changed. *)
Lemma audio_requests (videoInfo : VideoInfo) (options : EntryB.Options) :
  format (EntryB.audioOptions videoInfo options) = Some (lit "bestaudio")
  /\ output (EntryB.audioOptions videoInfo options)
     = output (EntryB.videoOptions videoInfo options)
  /\ format (EntryB.backupAudioOptions videoInfo options)
     = Some (lit "bestaudio/best")
  /\ EntryB.backupAudioOptions videoInfo options
     = set_format (lit "bestaudio/best")
         (EntryB.audioOptions videoInfo options).
Proof. repeat split. Qed.

(** [downloadVideo] of entry point B when the target directory is
    there or can be made. *)
Lemma downloadVideo_B_passes (w : World) (url : jsstring)
    (videoInfo : VideoInfo) (options : EntryB.Options) :
  let video := EntryB.videoOptions videoInfo options in
  let audio := EntryB.audioOptions videoInfo options in
  let backup := EntryB.backupAudioOptions videoInfo options in
  let r := EntryB.downloadVideo w url videoInfo options [] in
  existsSync w (EntryB.targetDir videoInfo options) = true
  \/ mkdirSync w (EntryB.targetDir videoInfo options) = None ->
  match download w 0 url video with
  | Some e =>
      requests (fst r) = [(url, video)]
      /\ snd r = Thrown (downloadFailedPrefix ++ e)
  | None =>
      match download w 1 url audio with
      | None =>
          requests (fst r) = [(url, video); (url, audio)]
          /\ snd r = Normal tt
      | Some _ =>
          requests (fst r) = [(url, video); (url, audio); (url, backup)]
          /\ snd r = match download w 2 url backup with
                     | None => Normal tt
                     | Some e => Thrown (downloadFailedPrefix ++ e)
                     end
      end
  end.
Proof.
  cbn zeta. intros Hdir. unfold EntryB.downloadVideo. run_script.
  destruct (existsSync w (EntryB.targetDir videoInfo options)) eqn:Ethere;
    run_script.
  - destruct (download w 0 url (EntryB.videoOptions videoInfo options));
      run_script; [now split|].
    destruct (download w 1 url (EntryB.audioOptions videoInfo options));
      run_script; [|now split].
    destruct (download w 2 url (EntryB.backupAudioOptions videoInfo options));
      run_script; now split.
  - destruct Hdir as [Hdir|Hdir]; [discriminate|]. rewrite Hdir. run_script.
    destruct (download w 0 url (EntryB.videoOptions videoInfo options));
      run_script; [now split|].
    destruct (download w 1 url (EntryB.audioOptions videoInfo options));
      run_script; [|now split].
    destruct (download w 2 url (EntryB.backupAudioOptions videoInfo options));
      run_script; now split.
Qed.

End DownloadFacts.

(** ** The help option of the two entry points *)

Section HelpFacts.

Import Host Path Scenario.

Context {path : PathModule}.

Lemma includes_flag (flag : jsstring) (args : list jsstring) :
  In flag args -> existsb (str_eqb flag) args = true.
Proof.
  intros Hin. apply existsb_exists. exists flag.
  split; [exact Hin | now apply str_eqb_eq].
Qed.

(** Entry point B prints the usage and returns for [--help], for [-h]
    and for no argument at all. *)
Lemma main_B_help (w : World) (args : list jsstring) :
  In (lit "--help") args \/ In (lit "-h") args \/ args = [] ->
  EntryB.main w args [] = ([Console Usage], Normal tt).
Proof.
  intros H. unfold EntryB.main.
  assert (E : (existsb (str_eqb (lit "--help")) args
               || existsb (str_eqb (lit "-h")) args
               || (length args =? 0)%nat)%bool = true).
  { destruct H as [H|[H| ->]].
    - now rewrite (includes_flag _ _ H).
    - rewrite (includes_flag _ _ H). now rewrite orb_true_r.
    - reflexivity. }
  now rewrite E.
Qed.

(** Entry point A does so for [--help] and for no argument at all. *)
Lemma main_A_help (w : World) (args : list jsstring) :
  In (lit "--help") args \/ args = [] ->
  EntryA.main w args [] = ([Console Usage], Normal tt).
Proof.
  intros H. unfold EntryA.main.
  assert (E : (existsb (str_eqb (lit "--help")) args
               || (length args =? 0)%nat)%bool = true).
  { destruct H as [H| ->]; [now rewrite (includes_flag _ _ H) | reflexivity]. }
  now rewrite E.
Qed.

(** C9, as amended: an argument list that contains [--help], or is
    empty, makes either entry point print the usage message and return,
    with exit status 0 and nothing else done; entry point B does the
    same for [-h]. *)
Theorem main_help (w : World) (args : list jsstring) :
  (In (lit "--help") args \/ In (lit "-h") args \/ args = [] ->
   EntryB.main w args [] = ([Console Usage], Normal tt)
   /\ exit_status (snd (EntryB.main w args [])) = 0%Z)
  /\ (In (lit "--help") args \/ args = [] ->
      EntryA.main w args [] = ([Console Usage], Normal tt)
      /\ exit_status (snd (EntryA.main w args [])) = 0%Z).
Proof.
  split; intros H.
  - now rewrite (main_B_help w H).
  - now rewrite (main_A_help w H).
Qed.

End HelpFacts.

Section HelpWitness.

Import Host Path Scenario.

(** The theorem for [-h] after a URL at entry point B and for [--help]
    after a URL at entry point A. *)
Lemma main_help_witness :
  let url := lit "https://youtu.be/aaaaaaaaaaa" in
  (In (lit "--help") [url; lit "-h"] \/ In (lit "-h") [url; lit "-h"]
   \/ [url; lit "-h"] = [])
  /\ EntryB.main (path := posix) calm [url; lit "-h"] []
     = ([Console Usage], Normal tt)
  /\ (In (lit "--help") [url; lit "--help"] \/ [url; lit "--help"] = [])
  /\ EntryA.main (path := posix) calm [url; lit "--help"] []
     = ([Console Usage], Normal tt).
Proof.
  intros url.
  assert (HB : In (lit "--help") [url; lit "-h"]
               \/ In (lit "-h") [url; lit "-h"]
               \/ [url; lit "-h"] = [])
    by (right; left; right; left; reflexivity).
  assert (HA : In (lit "--help") [url; lit "--help"]
               \/ [url; lit "--help"] = [])
    by (left; right; left; reflexivity).
  destruct (main_help (path := posix) calm [url; lit "-h"]) as (B & _).
  destruct (main_help (path := posix) calm [url; lit "--help"]) as (_ & A).
  split; [exact HB|]. split; [exact (proj1 (B HB))|].
  split; [exact HA | exact (proj1 (A HA))].
Defined.

(** C9, as stated, fails at entry point A for [-h]: the argument is
    taken for the URL, the invalid-URL message is printed, and the usage
    message is not. *)
Lemma main_A_short_help :
  EntryA.main (path := posix) calm [lit "-h"] []
  = ([Console InvalidUrl], Normal tt)
  /\ printed (fst (EntryA.main (path := posix) calm [lit "-h"] [])) <> [Usage].
Proof. split; [reflexivity | discriminate]. Qed.

End HelpWitness.

(** ** The batch driver *)

Section BatchFacts.

Import Host Path Scenario Batch.

Lemma commands_app (a b : list Event) :
  commands (a ++ b) = commands a ++ commands b.
Proof. unfold commands. apply flat_map_app. Qed.

Lemma printed_app (a b : list Event) :
  printed (a ++ b) = printed a ++ printed b.
Proof. unfold printed. apply flat_map_app. Qed.

(** The [close] handler prints one line and nothing else. *)
Lemma onClose_logs (line : jsstring) (code : option Z) (t : list Event) :
  exists msg,
    onClose line code t = (t ++ [Console msg], Normal tt)
    /\ (msg = LineDone (trim line) \/ msg = LineFailed code (trim line)).
Proof.
  unfold onClose, log, emit.
  destruct (match code with Some n => (n =? 0)%Z | None => false end);
    eexists; split; eauto.
Qed.

(** [processLine] resolves whatever becomes of the child, starts at
    most one child, and prints no tally. *)
Lemma processLine_resolves (w : World) (line : jsstring) (options : Options)
    (t : list Event) :
  exists events,
    processLine w line options t = (t ++ events, Normal tt)
    /\ commands events
       = (if truthy_str (trim line) then [commandFor line options] else [])
    /\ forall a b c, ~ In (Tally a b c) (printed events).
Proof.
  unfold processLine. destruct (truthy_str (trim line)); cbn [negb].
  - unfold spawnChild, log. unfold bind, emit, history, ret. cbv beta iota.
    match goal with
    | |- context [spawn w ?n ?cmd] =>
        destruct (spawn w n cmd) as [code|message [code|]]
    end.
    + match goal with
      | |- context [onClose line code ?t'] =>
          destruct (onClose_logs line code t') as (msg & -> & Hmsg)
      end.
      eexists. rewrite <- !app_assoc. split; [reflexivity|].
      split; [reflexivity|]. intros a b c. cbn.
      intros [H|[H|[]]]; [discriminate|].
      destruct Hmsg as [-> | ->]; discriminate.
    + match goal with
      | |- context [onClose line code ?t'] =>
          destruct (onClose_logs line code t') as (msg & -> & Hmsg)
      end.
      eexists. rewrite <- !app_assoc. split; [reflexivity|].
      split; [reflexivity|]. intros a b c. cbn.
      intros [H|[H|[H|[]]]]; try discriminate.
      destruct Hmsg as [-> | ->]; discriminate.
    + eexists. rewrite <- !app_assoc. split; [reflexivity|].
      split; [reflexivity|]. intros a b c. cbn.
      intros [H|[H|[]]]; discriminate.
  - exists []. rewrite app_nil_r. repeat split. intros a b c [].
Qed.

(** The loop counts every line that is not blank as a success, starts
    one child for each of them, in order, and never counts a failure. *)
Lemma eachLine_counts (w : World) (options : Options) (lines : list jsstring) :
  forall (c : Counters) (t : list Event),
  exists events,
    eachLine w options lines c t
    = (t ++ events, Normal (counted (length (nonBlank lines)) c))
    /\ commands events
       = map (fun line => commandFor line options) (nonBlank lines)
    /\ forall a b c, ~ In (Tally a b c) (printed events).
Proof.
  unfold nonBlank.
  induction lines as [|line rest IH]; intros c t; cbn [eachLine filter].
  - exists []. rewrite app_nil_r. unfold ret, counted. cbn [length map].
    rewrite !Nat.add_0_r. destruct c. repeat split. intros a b c [].
  - destruct (truthy_str (trim line)) eqn:Hline.
    + unfold bind at 1. unfold try_catch, bind.
      destruct (processLine_resolves w line options t)
        as (ev & -> & Hev & Hno).
      rewrite Hline in Hev. unfold ret.
      cbv beta iota zeta. cbn [lineCount successCount failCount].
      match goal with
      | |- context [eachLine w options rest ?c' ?t'] =>
          destruct (IH c' t') as (ev' & -> & Hev' & Hno')
      end.
      exists (ev ++ ev'). rewrite app_assoc. split; [|split].
      * f_equal. f_equal. unfold counted.
        cbn [length lineCount successCount failCount]. f_equal; lia.
      * rewrite commands_app, Hev, Hev'. reflexivity.
      * intros a b c' H. rewrite printed_app in H.
        apply in_app_or in H. destruct H as [H|H];
          [exact (Hno _ _ _ H) | exact (Hno' _ _ _ H)].
    + apply IH.
Qed.


(** The children of a run of the script: none without the file, else
    one per line read that is not blank. *)
Lemma script_commands (w : World) (args : list jsstring) :
  commands (fst (script w args []))
  = if existsSync w (inputFileOf args)
    then map (fun line => commandFor line (optionsOf args))
           (nonBlank (fst (readLines w (inputFileOf args))))
    else [].
Proof.
  unfold script, main, fs_existsSync, log.
  unfold try_catch, bind, emit, ret, exit, throw.
  cbv beta iota. destruct (existsSync w (inputFileOf args));
    cbn [negb app]; cbv beta iota; [|reflexivity].
  match goal with
  | |- context [eachLine w ?o ?l ?c ?t] =>
      destruct (eachLine_counts w o l c t) as (ev & -> & Hev & _)
  end.
  destruct (snd (readLines w (inputFileOf args))); cbn [fst snd];
    rewrite !commands_app, Hev; cbn [commands flat_map app];
    now rewrite ?app_nil_r.
Qed.

End BatchFacts.

Section BatchWitness.

Import Host Path Scenario Batch.


End BatchWitness.

(** ** Calls of the downloader over a whole run *)

Section SystemRequests.

Import FormatCatalog Host Path Scenario.

Lemma requests_app (a b : list Event) :
  requests (a ++ b) = requests a ++ requests b.
Proof. unfold requests. apply flat_map_app. Qed.

Lemma lookups_app (a b : list Event) :
  lookups (a ++ b) = lookups a ++ lookups b.
Proof. unfold lookups. apply flat_map_app. Qed.

Lemma probes_app (a b : list Event) : probes (a ++ b) = probes a + probes b.
Proof. unfold probes. now rewrite filter_app, length_app. Qed.

Lemma asks_weaken {A} (p l d p' l' d' : nat) (c : Exec A) :
  p <= p' -> l <= l' -> d <= d' -> asks p l d c -> asks p' l' d' c.
Proof.
  intros Hp Hl Hd Hc t. destruct (Hc t) as (ev & Hev & H1 & H2 & H3).
  exists ev. repeat split; [exact Hev | lia | lia | lia].
Qed.

Lemma asks_bind {A B} (p l d p' l' d' : nat) (c : Exec A) (k : A -> Exec B) :
  asks p l d c -> (forall a, asks p' l' d' (k a)) ->
  asks (p + p') (l + l') (d + d') (bind c k).
Proof.
  intros Hc Hk t. unfold bind. destruct (Hc t) as (ev & Hev & H1 & H2 & H3).
  destruct (c t) as [t' [a|m|code]]; cbn [fst snd] in *; subst t'.
  - destruct (Hk a (t ++ ev)) as (ev' & Hev' & H1' & H2' & H3').
    exists (ev ++ ev'). rewrite Hev', app_assoc.
    rewrite probes_app, lookups_app, requests_app, !length_app.
    repeat split; lia.
  - exists ev. repeat split; lia.
  - exists ev. repeat split; lia.
Qed.

Lemma asks_try_catch {A} (p l d p' l' d' : nat) (body : Exec A)
    (handler : jsstring -> Exec A) :
  asks p l d body -> (forall e, asks p' l' d' (handler e)) ->
  asks (p + p') (l + l') (d + d') (try_catch body handler).
Proof.
  intros Hb Hh t. unfold try_catch.
  destruct (Hb t) as (ev & Hev & H1 & H2 & H3).
  destruct (body t) as [t' [a|m|code]]; cbn [fst snd] in *; subst t'.
  - exists ev. repeat split; lia.
  - destruct (Hh m (t ++ ev)) as (ev' & Hev' & H1' & H2' & H3').
    exists (ev ++ ev'). rewrite Hev', app_assoc.
    rewrite probes_app, lookups_app, requests_app, !length_app.
    repeat split; lia.
  - exists ev. repeat split; lia.
Qed.

(** A piece of script that does not call the downloader, before one
    that does. *)
Lemma asks_after {A B} (p l d : nat) (c : Exec A) (k : A -> Exec B) :
  asks 0 0 0 c -> (forall a, asks p l d (k a)) -> asks p l d (bind c k).
Proof. intros Hc Hk. exact (@asks_bind _ _ 0 0 0 p l d c k Hc Hk). Qed.

Lemma asks_ret {A} (a : A) : asks 0 0 0 (ret a).
Proof. intros t. exists []. rewrite app_nil_r. now repeat split. Qed.

Lemma asks_throw {A} (m : jsstring) : asks 0 0 0 (@throw A m).
Proof. intros t. exists []. rewrite app_nil_r. now repeat split. Qed.

Lemma asks_exit {A} (code : Z) : asks 0 0 0 (@exit A code).
Proof. intros t. exists []. rewrite app_nil_r. now repeat split. Qed.

Lemma asks_history : asks 0 0 0 history.
Proof. intros t. exists []. rewrite app_nil_r. now repeat split. Qed.

Lemma asks_log (msg : Message) : asks 0 0 0 (log msg).
Proof. intros t. exists [Console msg]. now repeat split. Qed.

Lemma asks_existsSync (w : World) (p : jsstring) :
  asks 0 0 0 (fs_existsSync w p).
Proof.
  intros t. exists [ExistsSync p]. now repeat split.
Qed.

Lemma asks_mkdirSync (w : World) (p : jsstring) :
  asks 0 0 0 (fs_mkdirSync w p).
Proof.
  intros t. exists [MkdirSync p]. unfold fs_mkdirSync, bind, emit.
  destruct (mkdirSync w p); now repeat split.
Qed.

Lemma asks_youtubedl (w : World) (url : jsstring) (o : DownloadOptions) :
  asks 0 0 1 (youtubedl w url o).
Proof.
  intros t. exists [Youtubedl url o]. unfold youtubedl, bind, history, emit.
  destruct (download w _ url o); repeat split; cbn; lia.
Qed.

Lemma asks_getVideoInfo (w : World) (url : jsstring) :
  asks 0 1 0 (getVideoInfo w url).
Proof.
  intros t. exists [YoutubedlDumpJson url].
  unfold getVideoInfo, try_catch, youtubedl_dumpJson, bind, emit, throw.
  destruct (dumpJson w url); repeat split; cbn; lia.
Qed.

Lemma asks_checkYoutubeDl (w : World) : asks 1 0 0 (EntryA.checkYoutubeDl w).
Proof.
  intros t. exists [YoutubedlVersion].
  unfold EntryA.checkYoutubeDl, try_catch, youtubedl_version, bind, emit,
    throw, ret.
  destruct (versionProbe w); repeat split; cbn; lia.
Qed.

Lemma asks_selectFormat (w : World) (formats : list Format) :
  asks 0 0 0 (EntryA.selectFormat w formats).
Proof.
  intros t. exists [Prompt (EntryA.choicesOf formats)]. now repeat split.
Qed.

Context {path : PathModule}.

Lemma asks_downloadVideo_A (w : World) (url : jsstring) (videoInfo : VideoInfo)
    (folder selectedFormat : jsstring) (options : EntryA.Options) :
  asks 0 0 1
    (EntryA.downloadVideo w url videoInfo folder selectedFormat options).
Proof.
  unfold EntryA.downloadVideo.
  apply (@asks_try_catch _ 0 0 1 0 0 0); [|intros; apply asks_throw].
  cbn zeta. apply asks_after; [apply asks_existsSync|]. intros there.
  apply asks_after.
  { destruct there; [apply asks_ret | apply asks_mkdirSync]. }
  intros _. apply (@asks_bind _ _ 0 0 1 0 0 0); [apply asks_youtubedl|].
  intros _. apply asks_log.
Qed.

(** The [try] block of [main] of entry point A probes once, asks for
    the metadata once and downloads once, at most. *)
Lemma asks_run_A (w : World) (url : jsstring) (options : EntryA.Options) :
  asks 1 1 1 (EntryA.run w url options).
Proof.
  unfold EntryA.run.
  apply (@asks_bind _ _ 1 0 0 0 1 1); [apply asks_checkYoutubeDl|].
  intros hasYoutubeDl. destruct (negb hasYoutubeDl).
  { eapply asks_weaken; [| | |apply asks_log]; lia. }
  apply asks_after.
  { destruct (truthy_ostr (EntryA.outputDir options)); [|apply asks_ret].
    apply asks_after; [apply asks_existsSync|]. intros there.
    destruct there; [apply asks_ret|].
    apply asks_after; [apply asks_mkdirSync | intros; apply asks_log]. }
  intros _. apply asks_after; [apply asks_log|]. intros _.
  apply (@asks_bind _ _ 0 1 0 0 0 1); [apply asks_getVideoInfo|].
  intros videoInfo. cbn zeta.
  apply asks_after; [apply asks_log|]. intros _.
  apply asks_after; [|intros; apply asks_downloadVideo_A].
  destruct (EntryA.auto options).
  - apply asks_after; [apply asks_log | intros; apply asks_ret].
  - apply asks_after; [apply asks_selectFormat|]. intros chosen.
    apply asks_after; [|intros; apply asks_ret].
    destruct (negb (str_eqb chosen (lit "auto"))); [|apply asks_log].
    destruct (find _ _); [apply asks_log | apply asks_ret].
Qed.

Lemma asks_main_A (w : World) (args : list jsstring) :
  asks 1 1 1 (EntryA.main w args).
Proof.
  assert (Hquiet : forall A (c : Exec A), asks 0 0 0 c -> asks 1 1 1 c).
  { intros A c. apply asks_weaken; lia. }
  unfold EntryA.main.
  destruct (existsb _ args || _)%bool; [apply Hquiet, asks_log|].
  destruct (EntryA.parseArgs args EntryA.noOptions [])
    as [[options remainingArgs]|]; [|apply Hquiet, asks_throw].
  destruct remainingArgs as [|url rest].
  { apply Hquiet, asks_after; [apply asks_log | intros; apply asks_log]. }
  destruct (negb (includes _ _) && negb (includes _ _))%bool;
    [apply Hquiet, asks_log|].
  apply (@asks_try_catch _ 1 1 1 0 0 0); [apply asks_run_A|].
  intros e. apply asks_after; [apply asks_log | intros; apply asks_exit].
Qed.

(** Unfold the two passes of entry point B on an explicit trace, down
    to the answers of the world, and read the calls off each trace. *)
Ltac script_step :=
  unfold try_catch, bind, fs_existsSync, fs_mkdirSync, youtubedl,
    youtubedl_dumpJson, history, log, emit, ret, throw, exit;
  cbn [app filter is_download length fst snd].

Ltac read_calls :=
  cbn [app filter is_download length fst snd probes lookups requests
       flat_map];
  repeat split; try lia;
  solve [ now left
        | right; now left
        | right; right; now left
        | right; right; right; split; [reflexivity | discriminate] ].

Ltac two_pass url :=
  unfold EntryB.run, getVideoInfo, EntryB.downloadVideo; cbn zeta;
  script_step;
  match goal with
  | |- context [dumpJson ?w ?u] =>
      destruct (dumpJson w u) as [videoInfo|e];
      [ exists url, videoInfo
      | exists url, {| title := []; formats := [] |}; script_step; read_calls ]
  end;
  script_step;
  match goal with
  | |- context [existsSync ?w ?p] => destruct (existsSync w p)
  end;
  script_step;
  [| match goal with
     | |- context [mkdirSync ?w ?p] => destruct (mkdirSync w p)
     end;
     script_step; [read_calls|] ];
  (match goal with
   | |- context [download ?w 0 ?u ?o] => destruct (download w 0 u o)
   end;
   script_step; [read_calls|];
   match goal with
   | |- context [download ?w 1 ?u ?o] => destruct (download w 1 u o)
   end;
   script_step; [|read_calls];
   match goal with
   | |- context [download ?w 2 ?u ?o] => destruct (download w 2 u o)
   end;
   script_step; read_calls).

(** A run of entry point B never probes, asks for the metadata at most
    once, and its download requests are the video request, then the
    audio request, then (only after a failed audio request) the relaxed
    one, each at most once and none after a failure of the video or of
    the relaxed request. *)
Lemma requests_main_B (w : World) (args : list jsstring) :
  exists url videoInfo,
    let options := EntryB.parseOptions args in
    let video := EntryB.videoOptions videoInfo options in
    let audio := EntryB.audioOptions videoInfo options in
    let backup := EntryB.backupAudioOptions videoInfo options in
    let t := fst (EntryB.main w args []) in
    probes t = 0
    /\ length (lookups t) <= 1
    /\ (requests t = []
        \/ requests t = [(url, video)]
        \/ requests t = [(url, video); (url, audio)]
        \/ (requests t = [(url, video); (url, audio); (url, backup)]
            /\ download w 1 url audio <> None)).
Proof.
  unfold EntryB.main.
  destruct (existsb _ args || existsb _ args || _)%bool.
  { exists [], {| title := []; formats := [] |}. cbn. auto. }
  cbn zeta.
  destruct (negb (truthy_ostr (EntryB.findUrl None args))).
  { exists [], {| title := []; formats := [] |}. cbn. auto. }
  destruct (negb (includes _ _) && negb (includes _ _))%bool.
  - destruct (EntryB.youtubeIdPattern _).
    + two_pass (lit "https://www.youtube.com/watch?v="
                ++ str_of (EntryB.findUrl None args)).
    + exists [], {| title := []; formats := [] |}. cbn. auto.
  - two_pass (str_of (EntryB.findUrl None args)).
Qed.

(** C8: in the two-pass variant, after the video request has succeeded
    an audio request with the same URL and output template follows; when
    it fails, one more request is made with the format [bestaudio/best],
    and when that one fails too its error is thrown as a download
    failure.  Nothing else is asked twice: a failed video request is not
    repeated, [downloadVideo] of entry point A makes at most one request
    per video, [getVideoInfo] asks for the metadata once and
    [checkYoutubeDl] probes once.  Over a whole run, whatever the
    arguments: [main] of entry point A makes at most one probe, one
    metadata request and one download request; [main] of entry point B
    makes no probe, at most one metadata request, and the video request,
    the audio request and, only after a failed audio request, the
    relaxed one, each at most once; and the batch driver starts one
    child per line that is not blank, whatever becomes of it. *)
Theorem downloadVideo_audio_retry (w : World) (url : jsstring)
    (videoInfo : VideoInfo) (options : EntryB.Options) :
  let video := EntryB.videoOptions videoInfo options in
  let audio := EntryB.audioOptions videoInfo options in
  let backup := EntryB.backupAudioOptions videoInfo options in
  let r := EntryB.downloadVideo w url videoInfo options [] in
  (format audio = Some (lit "bestaudio")
   /\ output audio = output video
   /\ format backup = Some (lit "bestaudio/best")
   /\ backup = set_format (lit "bestaudio/best") audio)
  /\ (existsSync w (EntryB.targetDir videoInfo options) = true
      \/ mkdirSync w (EntryB.targetDir videoInfo options) = None ->
      match download w 0 url video with
      | Some e =>
          requests (fst r) = [(url, video)]
          /\ snd r = Thrown (downloadFailedPrefix ++ e)
      | None =>
          match download w 1 url audio with
          | None =>
              requests (fst r) = [(url, video); (url, audio)]
              /\ snd r = Normal tt
          | Some _ =>
              requests (fst r) = [(url, video); (url, audio); (url, backup)]
              /\ snd r = match download w 2 url backup with
                         | None => Normal tt
                         | Some e => Thrown (downloadFailedPrefix ++ e)
                         end
          end
      end)
  /\ (forall folder selectedFormat optionsA,
        (length (requests (fst (EntryA.downloadVideo w url videoInfo folder
                                  selectedFormat optionsA []))) <= 1)%nat)
  /\ fst (getVideoInfo w url []) = [YoutubedlDumpJson url]
  /\ fst (EntryA.checkYoutubeDl w []) = [YoutubedlVersion]
  /\ (forall args,
        let t := fst (EntryA.main w args []) in
        probes t <= 1 /\ length (lookups t) <= 1
        /\ length (requests t) <= 1)
  /\ (forall args,
        exists url' videoInfo',
          let options' := EntryB.parseOptions args in
          let video' := EntryB.videoOptions videoInfo' options' in
          let audio' := EntryB.audioOptions videoInfo' options' in
          let backup' := EntryB.backupAudioOptions videoInfo' options' in
          let t := fst (EntryB.main w args []) in
          probes t = 0
          /\ length (lookups t) <= 1
          /\ (requests t = []
              \/ requests t = [(url', video')]
              \/ requests t = [(url', video'); (url', audio')]
              \/ (requests t
                  = [(url', video'); (url', audio'); (url', backup')]
                  /\ download w 1 url' audio' <> None)))
  /\ (forall args,
        commands (fst (Batch.script w args []))
        = if existsSync w (Batch.inputFileOf args)
          then map (fun line => Batch.commandFor line (Batch.optionsOf args))
                 (Batch.nonBlank
                    (fst (readLines w (Batch.inputFileOf args))))
          else []).
Proof.
  cbn zeta. split; [apply audio_requests|]. split; [|split; [|split]].
  - apply downloadVideo_B_passes.
  - intros. apply downloadVideo_A_once.
  - apply getVideoInfo_once.
  - split; [|split; [|split]].
    + unfold EntryA.checkYoutubeDl, try_catch, youtubedl_version, bind, emit.
      cbn [app]. now destruct (versionProbe w).
    + intros args. destruct (asks_main_A w args []) as (ev & -> & H).
      exact H.
    + intros args. exact (requests_main_B w args).
    + intros args. apply script_commands.
Qed.

End SystemRequests.

Section DownloadWitness.

Import Host Path Scenario.

(** The theorem in a world where the audio request fails once (three
    requests, the third one relaxed, and the download completes) and in
    one where the target directory has to be made and the relaxed
    request fails too (the same three requests, and its error is thrown
    behind the download-failure prefix). *)
Lemma downloadVideo_audio_retry_witness :
  let url := lit "https://youtu.be/aaaaaaaaaaa" in
  let info := {| title := lit "clip"; formats := [] |} in
  let options := EntryB.parseOptions [url] in
  let dir := EntryB.targetDir (path := posix) info options in
  let three :=
    [(url, EntryB.videoOptions (path := posix) info options);
     (url, EntryB.audioOptions (path := posix) info options);
     (url, EntryB.backupAudioOptions (path := posix) info options)] in
  let r1 :=
    EntryB.downloadVideo (path := posix) audioFails url info options [] in
  let r2 :=
    EntryB.downloadVideo (path := posix) retryFails url info options [] in
  ((existsSync audioFails dir = true \/ mkdirSync audioFails dir = None)
   /\ requests (fst r1) = three /\ snd r1 = Normal tt)
  /\ ((existsSync retryFails dir = true \/ mkdirSync retryFails dir = None)
      /\ requests (fst r2) = three
      /\ snd r2 = Thrown (downloadFailedPrefix ++ lit "no format")).
Proof.
  intros url info options dir three r1 r2.
  assert (Hdir1 : existsSync audioFails dir = true
                  \/ mkdirSync audioFails dir = None)
    by (left; reflexivity).
  assert (Hdir2 : existsSync retryFails dir = true
                  \/ mkdirSync retryFails dir = None)
    by (right; reflexivity).
  destruct (downloadVideo_audio_retry (path := posix) audioFails url info
              options) as (_ & Hpasses1 & _).
  destruct (downloadVideo_audio_retry (path := posix) retryFails url info
              options) as (_ & Hpasses2 & _).
  split; (split; [assumption|]).
  - exact (Hpasses1 Hdir1).
  - exact (Hpasses2 Hdir2).
Defined.

End DownloadWitness.

(** ** The examples of the specification *)

Section SpecificationExamples.

Import FormatCatalog NameSanitizer.

Example minimalSanitizeFilename_example :
  minimalSanitizeFilename (lit "a/b:c") = lit "a_b_c".
Proof. reflexivity. Qed.

(** [hello world!! ] followed by the two Hangul syllables U+D55C U+AE00
    and [ test]. *)
Example sanitizeFolderName_example :
  sanitizeFolderName
    (lit "hello world!! " ++ [54620; 44544]%N ++ lit " test")
  = lit "hello_world_" ++ [54620; 44544]%N ++ lit "_test".
Proof. reflexivity. Qed.

Example date_time_example :
  Placeholder.replacePlaceholders (Host.now Scenario.calm) (lit "{date}_{time}")
  = lit "230315_141509".
Proof. reflexivity. Qed.

Example organizeFormats_example :
  let f1 := descriptor "1" (Some 1080%Z) "vp9" "aac" in
  let f2 := descriptor "2" (Some 2160%Z) "vp9" "none" in
  let f3 := descriptor "3" None "none" "mp3" in
  organizeFormats [f1; f2; f3]
  = {| videoAudio := [f1]; videoOnly := [f2]; audioOnly := [f3] |}
  /\ selectBestFormat [f1; f2; f3] = Some f1.
Proof. split; reflexivity. Qed.

Example organizeFormats_empty :
  organizeFormats []
  = {| videoAudio := []; videoOnly := []; audioOnly := [] |}
  /\ selectBestFormat [] = None.
Proof. split; reflexivity. Qed.

(** Equal heights keep their order; the higher one comes first. *)
Example organizeFormats_ties :
  let a := descriptor "a" (Some 720%Z) "avc1" "mp4a" in
  let b := descriptor "b" (Some 1080%Z) "avc1" "mp4a" in
  let c := descriptor "c" (Some 720%Z) "vp9" "opus" in
  videoAudio (organizeFormats [a; b; c]) = [b; a; c].
Proof. reflexivity. Qed.

Example posix_join_example :
  Path.posix_join [lit "/volume1/media/datas"; lit "youtubes"; lit "AA/clip"]
  = lit "/volume1/media/datas/youtubes/AA/clip"
  /\ Path.posix_join [lit "a/../../b//c/"; lit "."; lit ""; lit "../d/"]
     = lit "../b/d/"
  /\ Path.posix_dirname (lit "/a/b/c.mp4") = lit "/a/b".
Proof. repeat split. Qed.

Example parseArgs_example :
  EntryA.parseArgs
    [lit "https://youtu.be/aaaaaaaaaaa"; lit "--quality"; lit "1080";
     lit "--audio-only"; lit "--unknown"]
    EntryA.noOptions []
  = Some (EntryA.with_audioOnly
            (EntryA.with_quality (Some (Num.Finite 1080)) EntryA.noOptions),
          [lit "https://youtu.be/aaaaaaaaaaa"])
  /\ EntryA.parseArgs [lit "--filename"] EntryA.noOptions [] = None.
Proof. split; reflexivity. Qed.

End SpecificationExamples.

(** * Further properties of the code *)

(** ** The sanitizers and the date fields *)

Section SanitizerCoverage.

Import NameSanitizer Placeholder Coverage.

Local Open Scope N_scope.

Lemma plain_allowed (c : codeunit) : is_plain c = true -> is_allowed c = true.
Proof.
  intros H. destruct (is_allowed c) eqn:E; [reflexivity | exfalso].
  apply not_true_iff_false in E. apply E. clear E.
  unfold is_allowed, is_word, is_plain, in_range in *.
  unbool H. rewrite !orb_true_iff, !andb_true_iff, !N.eqb_eq, !N.leb_le.
  lia.
Qed.

(** X1: [minimalSanitizeFilename] changes a name code unit by code unit:
    a forbidden one becomes an underscore, any other one stays; so the
    length is kept, no forbidden character is left, and a second pass
    changes nothing. *)
Theorem minimalSanitizeFilename_pointwise (name : jsstring) :
  minimalSanitizeFilename name
  = map (fun c => if is_forbidden c then 95 else c) name
  /\ length (minimalSanitizeFilename name) = length name
  /\ Forall (fun c => is_forbidden c = false) (minimalSanitizeFilename name)
  /\ minimalSanitizeFilename (minimalSanitizeFilename name)
     = minimalSanitizeFilename name.
Proof.
  unfold minimalSanitizeFilename, underscore. rewrite !replace_each_one.
  split; [reflexivity|]. split; [apply length_map|]. split.
  - apply Forall_forall. intros c Hc. apply in_map_iff in Hc as (x & <- & _).
    destruct (is_forbidden x) eqn:E; [reflexivity | exact E].
  - rewrite map_map. apply map_ext. intros c.
    destruct (is_forbidden c) eqn:E; [reflexivity | now rewrite E].
Qed.

Lemma uint_only_digits (u : Decimal.uint) :
  Forall (fun c => is_digit c = true) (lit (NilEmpty.string_of_uint u)).
Proof.
  unfold lit.
  induction u; cbn [NilEmpty.string_of_uint list_ascii_of_string map];
    constructor; auto.
Qed.

Lemma N_toString_digits (n : N) :
  Forall (fun c => is_digit c = true) (Num.N_toString n).
Proof. apply uint_only_digits. Qed.

(** A number below 100 pads to exactly two code units. *)
Lemma padStart0_two (n : N) :
  n < 100 -> length (Num.padStart0 2 (Num.N_toString n)) = 2%nat.
Proof.
  intros H.
  assert (Hall :
    forallb (fun k => Nat.eqb (length (Num.padStart0 2
                                         (Num.N_toString (N.of_nat k)))) 2)
      (seq 0 100) = true) by (vm_compute; reflexivity).
  rewrite forallb_forall in Hall. specialize (Hall (N.to_nat n)).
  rewrite N2Nat.id in Hall. apply Nat.eqb_eq, Hall, in_seq. lia.
Qed.

Lemma padStart0_digits (s : jsstring) :
  Forall (fun c => is_digit c = true) s ->
  Forall (fun c => is_digit c = true) (Num.padStart0 2 s).
Proof.
  intros Hs. unfold Num.padStart0. apply Forall_app. split; [|exact Hs].
  apply Forall_forall. intros c Hc. apply repeat_spec in Hc. now subst.
Qed.

(** A number from 10 on is written with two digits at least. *)
Lemma N_toString_long (n : N) :
  10 <= n -> (2 <= length (Num.N_toString n))%nat.
Proof.
  intros H. pose proof (DecimalN.Unsigned.of_to n) as Hn.
  unfold Num.N_toString, lit.
  destruct (N.to_uint n) as [|u|u|u|u|u|u|u|u|u|u];
    [vm_compute in Hn; lia | ..];
    (destruct u;
     [ vm_compute in Hn; lia
     | cbn [NilEmpty.string_of_uint list_ascii_of_string map length]; lia .. ]).
Qed.

Lemma slice_last_two (s : jsstring) :
  (2 <= length s)%nat -> length (Num.slice_last 2 s) = 2%nat.
Proof. intros H. unfold Num.slice_last. rewrite length_skipn. lia. Qed.

Lemma slice_last_digits (s : jsstring) :
  Forall (fun c => is_digit c = true) s ->
  Forall (fun c => is_digit c = true) (Num.slice_last 2 s).
Proof.
  intros Hs. unfold Num.slice_last.
  rewrite <- (firstn_skipn (length s - 2) s) in Hs.
  apply Forall_app in Hs. apply Hs.
Qed.

Lemma calendar_lengths (now : Clock) :
  calendar now ->
  let dt := getCurrentDateTime now in
  (length (year dt) = 2 /\ length (month dt) = 2 /\ length (day dt) = 2
   /\ length (hour dt) = 2 /\ length (minute dt) = 2
   /\ length (second dt) = 2)%nat
  /\ (length (date dt) = 6 /\ length (time dt) = 6
      /\ length (fullTime dt) = 13)%nat.
Proof.
  intros (Hy & Hmo & Hd & Hh & Hmi & Hs). cbn zeta.
  unfold getCurrentDateTime;
    cbn [fullTime date year y month m day d time hour h minute min second sec].
  pose proof (@slice_last_two _ (@N_toString_long _ Hy)) as Ly.
  assert (Lmo := @padStart0_two (getMonth now + 1) ltac:(lia)).
  assert (Ld := @padStart0_two (getDate now) ltac:(lia)).
  assert (Lh := @padStart0_two (getHours now) ltac:(lia)).
  assert (Lmi := @padStart0_two (getMinutes now) ltac:(lia)).
  assert (Ls := @padStart0_two (getSeconds now) ltac:(lia)).
  split; [now repeat split|].
  rewrite !length_app, Ly, Lmo, Ld, Lh, Lmi, Ls. now repeat split.
Qed.

(** X2: on a calendar clock every short field of [getCurrentDateTime]
    has exactly two digits (January is [01]); [date] and [time] have six
    digits, and [fullTime] is [date], an underscore and [time], thirteen
    code units in all. *)
Theorem getCurrentDateTime_widths (now : Clock) :
  calendar now ->
  let dt := getCurrentDateTime now in
  (length (year dt) = 2 /\ length (month dt) = 2 /\ length (day dt) = 2
   /\ length (hour dt) = 2 /\ length (minute dt) = 2
   /\ length (second dt) = 2)%nat
  /\ (length (date dt) = 6 /\ length (time dt) = 6
      /\ length (fullTime dt) = 13)%nat
  /\ Forall (fun c => is_digit c = true) (date dt ++ time dt)
  /\ fullTime dt = date dt ++ lit "_" ++ time dt
  /\ (getMonth now = 0 -> month dt = lit "01").
Proof.
  intros Hcal. destruct (calendar_lengths Hcal) as (Hshort & Hlong).
  cbn zeta in *. split; [exact Hshort|]. split; [exact Hlong|].
  unfold getCurrentDateTime;
    cbn [fullTime date year y month m day d time hour h minute min second sec].
  split; [|split].
  - rewrite !Forall_app. repeat split;
      first [ apply slice_last_digits | apply padStart0_digits ];
      apply N_toString_digits.
  - now rewrite <- !app_assoc.
  - intros ->. reflexivity.
Qed.

(** The theorem at 14:15:09 on 15 March 2023. *)
Lemma getCurrentDateTime_widths_witness :
  let now := Host.now Scenario.calm in
  calendar now
  /\ date (getCurrentDateTime now) = lit "230315"
  /\ length (fullTime (getCurrentDateTime now)) = 13%nat
  /\ fullTime (getCurrentDateTime now) = lit "230315_141509".
Proof.
  intros now.
  assert (Hcal : calendar now) by (vm_compute; intuition discriminate).
  destruct (@getCurrentDateTime_widths now Hcal) as (_ & (_ & _ & Hlen) & _).
  split; [exact Hcal|]. split; [reflexivity|]. split; [exact Hlen|].
  reflexivity.
Defined.

(** The fields are at most thirteen code units of allowed characters,
    so the folder-name sanitizer leaves them alone. *)
Lemma plain_sanitized (v : jsstring) :
  plain v -> (length v <= 100)%nat -> sanitizeFolderName v = v.
Proof.
  intros [_ Hv] Hlen.
  assert (Hok : Forall (fun c => is_allowed c = true) v).
  { eapply Forall_impl; [|exact Hv]. intros c. apply plain_allowed. }
  rewrite sanitizeFolderName_steps, (step_forbidden_fixed Hok).
  unfold step_collapse. rewrite (step_collapse_fixed None Hok).
  rewrite (step_strip_fixed Hok). unfold step_truncate. now apply firstn_all2.
Qed.

Lemma field_short (now : Clock) (e : jsstring * jsstring) :
  calendar now -> In e (token_table (getCurrentDateTime now)) ->
  (length (snd e) <= 100)%nat.
Proof.
  intros Hcal Hin.
  destruct (calendar_lengths Hcal)
    as ((Ly & Lmo & Ld & Lh & Lmi & Ls) & Ldate & Ltime & Lfull).
  cbn zeta in *. unfold token_table in Hin. cbn [In] in Hin.
  repeat (destruct Hin as [<-|Hin];
          [cbn [snd];
           unfold getCurrentDateTime in *;
           cbn [fullTime date year y month m day d time hour h minute min
                second sec] in *; lia|]).
  destruct Hin.
Qed.

(** X4: a folder name that is one recognized token becomes, after
    [replacePlaceholders] and [sanitizeFolderName] in the order of
    [main], exactly the field of that token: the sanitizer changes no
    date field.  In the other order nothing would be substituted, since
    the sanitizer deletes the braces. *)
Theorem token_folder_name (now : Clock) (tok field : jsstring) :
  calendar now ->
  In (tok, field) (token_table (getCurrentDateTime now)) ->
  sanitizeFolderName (replacePlaceholders now tok) = field
  /\ replacePlaceholders now (sanitizeFolderName tok) = sanitizeFolderName tok
  /\ sanitizeFolderName tok <> field.
Proof.
  intros Hcal Hin.
  pose proof (token_table_braced (getCurrentDateTime now)) as Hbr.
  pose proof (getCurrentDateTime_plain now) as Hpl.
  assert (Hfield : plain field).
  { rewrite Forall_forall in Hpl. exact (Hpl _ Hin). }
  assert (Hsub : replacePlaceholders now tok = field).
  { rewrite replacePlaceholders_one_pass.
    rewrite (substitute_token _ tok (@token_table_distinct _ (tok, field) Hin)).
    - rewrite skipn_all. rewrite substitute_nil. apply app_nil_r.
    - apply braced_nonempty. rewrite Forall_forall in Hbr. exact (Hbr _ Hin). }
  assert (Hclean : forall c, In c (sanitizeFolderName tok) -> c <> 123).
  { intros c Hc ->. pose proof (sanitizeFolderName_allowed tok) as Hall.
    rewrite Forall_forall in Hall. specialize (Hall _ Hc). discriminate Hall. }
  split; [|split].
  - rewrite Hsub. apply plain_sanitized; [exact Hfield|].
    exact (@field_short now (tok, field) Hcal Hin).
  - rewrite replacePlaceholders_one_pass.
    rewrite <- (app_nil_r (sanitizeFolderName tok)) at 1.
    rewrite (substitute_through Hbr).
    + now rewrite substitute_nil, app_nil_r.
    + apply Forall_forall. exact Hclean.
  - intros E. unfold token_table in Hin. cbn [In] in Hin.
    repeat (destruct Hin as [Hin|Hin];
            [injection Hin as <- <-;
             destruct Hfield as [Hne Hplain]; rewrite <- E in Hplain, Hne;
             vm_compute in Hplain; inversion Hplain; discriminate|]).
    destruct Hin.
Qed.

(** The theorem for the token of the day on 15 March 2023. *)
Lemma token_folder_name_witness :
  let now := Host.now Scenario.calm in
  calendar now
  /\ In (lit "{day}", lit "15") (token_table (getCurrentDateTime now))
  /\ sanitizeFolderName (replacePlaceholders now (lit "{day}")) = lit "15"
  /\ sanitizeFolderName (lit "{day}") <> lit "15".
Proof.
  intros now.
  assert (Hcal : calendar now) by (vm_compute; intuition discriminate).
  assert (Hday : In (lit "{day}", lit "15")
                   (token_table (getCurrentDateTime now)))
    by (do 6 right; left; reflexivity).
  destruct (@token_folder_name now _ _ Hcal Hday) as (Hfield & _ & Hother).
  split; [exact Hcal|]. split; [exact Hday|]. split; assumption.
Defined.

End SanitizerCoverage.

(** ** What the substitution leaves behind *)

Section PlaceholderCoverage.

Import Placeholder Coverage.

Local Open Scope N_scope.

Section PlainTable.

Variable table : list (jsstring * jsstring).
Hypothesis table_braced : Forall (fun e => braced (fst e)) table.
Hypothesis table_plain : Forall (fun e => plain (snd e)) table.

(** A code unit that no field holds, at the head of a substituted text,
    stood at the head of the text. *)
Lemma substituted_head (r : jsstring) (x : codeunit) (rest : jsstring) :
  is_plain x = false ->
  substitute table r = x :: rest ->
  exists r', r = x :: r' /\ rest = substitute table r'.
Proof.
  intros Hx H. destruct r as [|c r]; [discriminate|].
  destruct (token_at table (c :: r)) as [[tok v]|] eqn:Hat.
  - exfalso. unfold substitute in H. cbn [substitute_from] in H.
    rewrite Hat in H. apply find_some in Hat as [Hin _].
    rewrite Forall_forall in table_plain.
    destruct (table_plain _ Hin) as [Hne Hv]. cbn [snd] in *.
    destruct v as [|dgt v]; [congruence|]. injection H as -> _.
    inversion Hv; congruence.
  - rewrite (substitute_copy _ _ _ Hat) in H. injection H as -> <-. eauto.
Qed.

Lemma substituted_body (b r : jsstring) :
  Forall (fun c => is_letter c = true) b ->
  startsWith (b ++ [125]) (substitute table r) = true ->
  startsWith (b ++ [125]) r = true.
Proof.
  intros Hb. revert r.
  induction Hb as [|l b Hl _ IH]; intros r H; cbn [app] in *.
  - destruct (substitute table r) as [|x rest] eqn:E; [discriminate|].
    cbn [startsWith] in H. apply andb_true_iff in H as [Hx _].
    apply N.eqb_eq in Hx. subst x.
    destruct (@substituted_head r 125 rest eq_refl E) as (r' & -> & _).
    reflexivity.
  - destruct (substitute table r) as [|x rest] eqn:E; [discriminate|].
    cbn [startsWith] in H. apply andb_true_iff in H as [Hx Hrest].
    apply N.eqb_eq in Hx. subst x.
    destruct (@substituted_head r l rest (letter_not_plain _ Hl) E)
      as (r' & -> & ->).
    cbn [startsWith]. rewrite N.eqb_refl. now apply IH.
Qed.

(** No token stands where the text had none. *)
Lemma substituted_no_new_token (c : codeunit) (r : jsstring) :
  token_at table (c :: r) = None ->
  token_at table (c :: substitute table r) = None.
Proof.
  intros Hat. apply find_all_false. intros e He.
  destruct (startsWith (fst e) (c :: substitute table r)) eqn:E;
    [exfalso | reflexivity].
  pose proof (find_none _ _ Hat e He) as Hno. cbn beta in Hno.
  rewrite Forall_forall in table_braced.
  destruct (table_braced e He) as (b & Hb & Hletters). rewrite Hb in *.
  cbn [startsWith] in E, Hno.
  apply andb_true_iff in E as [Ec Ebody]. rewrite Ec in Hno.
  cbn [andb] in Hno.
  exact (eq_true_false_abs _ (@substituted_body b r Hletters Ebody) Hno).
Qed.

Lemma substitute_idempotent (s : jsstring) :
  substitute table (substitute table s) = substitute table s.
Proof.
  remember (length s) as n eqn:Hn. revert s Hn.
  induction n as [n IH] using lt_wf_ind. intros s ->.
  destruct s as [|c r]; [reflexivity|].
  destruct (token_at table (c :: r)) as [[tok v]|] eqn:Hat.
  - pose proof (token_at_braced_tok table_braced _ Hat) as Htok.
    cbn [fst] in Htok.
    assert (Hv : plain v).
    { apply find_some in Hat as [Hin _]. rewrite Forall_forall in table_plain.
      exact (table_plain _ Hin). }
    rewrite (substitute_token _ _ Hat) by now apply braced_nonempty.
    rewrite (substitute_through table_braced) by now apply plain_no_brace.
    f_equal. eapply IH; [|reflexivity].
    rewrite length_skipn. apply braced_nonempty in Htok.
    destruct tok; [congruence|]. cbn [length]. lia.
  - rewrite (substitute_copy _ _ _ Hat).
    rewrite (substitute_copy _ _ _ (substituted_no_new_token c r Hat)).
    f_equal. eapply IH; [|reflexivity]. cbn [length]. lia.
Qed.

(** A text the substitution leaves alone holds no token. *)
Lemma fixed_no_token (s : jsstring) :
  substitute table s = s ->
  forall tok, In tok (map fst table) -> includes tok s = false.
Proof.
  induction s as [|c r IH]; intros Hfix tok Htok.
  - apply in_map_iff in Htok as (e & <- & He).
    rewrite Forall_forall in table_braced.
    destruct (table_braced e He) as (b & -> & _). reflexivity.
  - destruct (token_at table (c :: r)) as [[t v]|] eqn:Hat.
    + exfalso.
      pose proof (token_at_braced_tok table_braced _ Hat) as Ht.
      cbn [fst] in Ht.
      unfold substitute in Hfix. cbn [substitute_from] in Hfix.
      rewrite Hat in Hfix. apply find_some in Hat as [Hin Hst].
      rewrite Forall_forall in table_plain.
      destruct (table_plain _ Hin) as [Hne Hv]. cbn [fst snd] in *.
      destruct Ht as (b & -> & _). cbn [startsWith] in Hst.
      apply andb_true_iff in Hst as [Hc _]. apply N.eqb_eq in Hc. subst c.
      destruct v as [|dgt v]; [congruence|]. injection Hfix as -> _.
      inversion Hv as [|? ? Hd _]. discriminate Hd.
    + rewrite (substitute_copy _ _ _ Hat) in Hfix. injection Hfix as Hfix.
      cbn [includes]. rewrite (IH Hfix tok Htok), orb_false_r.
      apply in_map_iff in Htok as (e & <- & He).
      exact (find_none _ _ Hat e He).
Qed.

End PlainTable.

(** X3: [replacePlaceholders] leaves no recognized token in its result,
    so substituting a second time (with the same clock) changes
    nothing. *)
Theorem replacePlaceholders_idempotent (now : Clock) (template : jsstring) :
  replacePlaceholders now (replacePlaceholders now template)
  = replacePlaceholders now template
  /\ forall tok, In tok recognized_tokens ->
       includes tok (replacePlaceholders now template) = false.
Proof.
  assert (Hidem :
    replacePlaceholders now (replacePlaceholders now template)
    = replacePlaceholders now template).
  { rewrite !replacePlaceholders_one_pass.
    apply (@substitute_idempotent _ (token_table_braced _)
             (getCurrentDateTime_plain now)). }
  split; [exact Hidem|].
  rewrite replacePlaceholders_one_pass in Hidem.
  exact (@fixed_no_token _ (token_table_braced _)
           (getCurrentDateTime_plain now) _ Hidem).
Qed.

End PlaceholderCoverage.

(** ** The three categories together, and the choice list *)

Section CatalogCoverage.

Import FormatCatalog Host.

Lemma in_category (cmp : Format -> Format -> Z) (test : Format -> bool)
    (formats : list Format) (f : Format) :
  In f (sort_by cmp (filter test formats)) <-> In f formats /\ test f = true.
Proof.
  rewrite <- filter_In. split; intros Hin.
  - now apply (Permutation_in _ (sort_by_perm cmp _)).
  - now apply (Permutation_in _ (Permutation_sym (sort_by_perm cmp _))).
Qed.

Lemma category_length (cmp : Format -> Format -> Z) (test : Format -> bool)
    (formats : list Format) :
  length (sort_by cmp (filter test formats)) = length (filter test formats).
Proof. apply Permutation_length, sort_by_perm. Qed.

(** The three tests exclude one another. *)
Lemma tests_exclusive (f : Format) :
  (isVideoAudio f = true -> isVideoOnly f = false /\ isAudioOnly f = false)
  /\ (isVideoOnly f = true -> isAudioOnly f = false).
Proof.
  unfold isVideoAudio, isVideoOnly, isAudioOnly.
  destruct (is_none (vcodec f)), (is_none (acodec f)),
    (truthy_num (height f)); cbn; split; intros H; try discriminate;
    repeat split.
Qed.

Lemma three_filters_length (formats : list Format) :
  (length (filter isVideoAudio formats) + length (filter isVideoOnly formats)
   + length (filter isAudioOnly formats) <= length formats)%nat.
Proof.
  induction formats as [|f r IH]; cbn [filter length]; [lia|].
  destruct (tests_exclusive f) as (Hva & Hvo).
  destruct (isVideoAudio f) eqn:Eva.
  - destruct (Hva eq_refl) as [-> ->]. cbn [length]. lia.
  - destruct (isVideoOnly f) eqn:Evo.
    + rewrite (Hvo eq_refl). cbn [length]. lia.
    + destruct (isAudioOnly f); cbn [length]; lia.
Qed.

(** X5: the three lists of [organizeFormats] share no format, hold
    formats of the input only, and together are no longer than the
    input; a format that has a video codec but no (or a zero) height,
    and one without any codec, is in none of them. *)
Theorem organizeFormats_partition (formats : list Format) :
  let organized := organizeFormats formats in
  (forall f, In f (videoAudio organized) ->
     In f formats /\ ~ In f (videoOnly organized)
     /\ ~ In f (audioOnly organized))
  /\ (forall f, In f (videoOnly organized) ->
        In f formats /\ ~ In f (audioOnly organized))
  /\ (forall f, In f (audioOnly organized) -> In f formats)
  /\ (length (videoAudio organized) + length (videoOnly organized)
      + length (audioOnly organized) <= length formats)%nat
  /\ (forall f,
        (is_none (vcodec f) = false /\ truthy_num (height f) = false)
        \/ (is_none (vcodec f) = true /\ is_none (acodec f) = true) ->
        ~ In f (videoAudio organized) /\ ~ In f (videoOnly organized)
        /\ ~ In f (audioOnly organized)).
Proof.
  cbn zeta. unfold organizeFormats. cbn [videoAudio videoOnly audioOnly].
  split; [|split; [|split; [|split]]].
  - intros f Hf. apply in_category in Hf as [Hin Ht].
    destruct (tests_exclusive f) as (Hva & _). destruct (Hva Ht) as [Hvo Hao].
    split; [exact Hin|]. split; intros Hf'; apply in_category in Hf' as [_ E];
      congruence.
  - intros f Hf. apply in_category in Hf as [Hin Ht].
    destruct (tests_exclusive f) as (_ & Hvo).
    split; [exact Hin|]. intros Hf'. apply in_category in Hf' as [_ E].
    rewrite (Hvo Ht) in E. discriminate.
  - intros f Hf. now apply in_category in Hf.
  - rewrite !category_length. apply three_filters_length.
  - intros f Hf.
    repeat split; intros Hin; apply in_category in Hin as [_ Ht];
      unfold isVideoAudio, isVideoOnly, isAudioOnly in Ht;
      destruct Hf as [[Hv Hh]|[Hv Ha]]; rewrite ?Hv, ?Hh, ?Ha in Ht;
      cbn in Ht; try discriminate;
      destruct (is_none (acodec f)); discriminate.
Qed.

Lemma insert_by_first {A} (cmp : A -> A -> Z) (x : A) (l : list A) :
  exists b rest, insert_by cmp x l = b :: rest.
Proof.
  destruct l as [|y r]; cbn [insert_by]; [eauto|].
  destruct (cmp x y <=? 0)%Z; eauto.
Qed.

(** The first element of a category, when it has one. *)
Lemma category_first (cmp : Format -> Format -> Z) (test : Format -> bool)
    (formats : list Format) :
  (if (0 <? length (filter test formats))%nat
   then nth_error (sort_by cmp (filter test formats)) 0
   else None)
  = hd_error (sort_by cmp (filter test formats)).
Proof.
  destruct (filter test formats) as [|x r]; [reflexivity|].
  cbn [length sort_by Nat.ltb Nat.leb].
  destruct (insert_by_first cmp x (sort_by cmp r)) as (b & rest & ->).
  reflexivity.
Qed.

(** X6: [selectBestFormat], which filters and sorts on its own, answers
    the first entry of [organizeFormats]'s [videoAudio] list, or, when
    that list is empty, the first entry of its [videoOnly] list, or
    [null] when both are empty. *)
Theorem selectBestFormat_organized (formats : list Format) :
  selectBestFormat formats
  = match videoAudio (organizeFormats formats) with
    | best :: _ => Some best
    | [] => hd_error (videoOnly (organizeFormats formats))
    end.
Proof.
  unfold selectBestFormat, organizeFormats.
  cbn [videoAudio videoOnly]. cbn zeta.
  rewrite <- (category_first by_height_desc isVideoOnly formats).
  destruct (filter isVideoAudio formats) as [|x r]; [reflexivity|].
  cbn [length sort_by Nat.ltb Nat.leb].
  destruct (insert_by_first by_height_desc x (sort_by by_height_desc r))
    as (b & rest & ->).
  reflexivity.
Qed.

(** One group of the choice list: a separator and at most [shown]
    items, or nothing. *)
Lemma group_items (l : list Format) (shown : nat) (v : jsstring) :
  In (Item v)
    (if (0 <? length l)%nat
     then Separator :: map (fun f => Item (format_id f)) (firstn shown l)
     else []) ->
  exists f, In f l /\ format_id f = v.
Proof.
  destruct (0 <? length l)%nat; [|intros []].
  intros [Hsep|Hin]; [discriminate|].
  apply in_map_iff in Hin as (f & Hf & Hin). exists f. split.
  - rewrite <- (firstn_skipn shown l). apply in_or_app. now left.
  - now injection Hf.
Qed.

Lemma group_length (l : list Format) (shown : nat) :
  (length
     (if (0 <? length l)%nat
      then Separator :: map (fun f => Item (format_id f)) (firstn shown l)
      else []) <= S shown)%nat.
Proof.
  destruct (0 <? length l)%nat; cbn [length]; [|lia].
  rewrite length_map. pose proof (firstn_le_length shown l). lia.
Qed.

Lemma group_first (b : Format) (rest : list Format) (shown : nat) :
  In (Item (format_id b))
    (if (0 <? length (b :: rest))%nat
     then Separator :: map (fun f => Item (format_id f))
                         (firstn (S shown) (b :: rest))
     else []).
Proof. cbn. right. now left. Qed.

(** X7: the choice list of [selectFormat] ends with a separator and the
    automatic choice, has at most 30 entries (three groups of at most
    10, 10 and 5 formats under a separator each), offers only format
    identifiers of the input besides [auto], and always offers the
    format [selectBestFormat] would answer. *)
Theorem choicesOf_offers (formats : list Format) :
  let choices := EntryA.choicesOf formats in
  (exists groups, choices = groups ++ [Separator; Item (lit "auto")])
  /\ (length choices <= 30)%nat
  /\ (forall v, In (Item v) choices ->
        v = lit "auto" \/ exists f, In f formats /\ format_id f = v)
  /\ (forall best, selectBestFormat formats = Some best ->
        In (Item (format_id best)) choices).
Proof.
  cbn zeta. unfold EntryA.choicesOf. cbn zeta.
  unfold organizeFormats. cbn [videoAudio videoOnly audioOnly].
  split; [|split; [|split]].
  - eexists. rewrite !app_assoc. reflexivity.
  - rewrite !length_app. cbn [length].
    pose proof (group_length
                  (sort_by by_height_desc (filter isVideoAudio formats)) 10).
    pose proof (group_length
                  (sort_by by_height_desc (filter isVideoOnly formats)) 10).
    pose proof (group_length
                  (sort_by by_abr_desc (filter isAudioOnly formats)) 5).
    lia.
  - intros v Hin.
    repeat (apply in_app_or in Hin as [Hin|Hin]).
    + right. apply group_items in Hin as (f & Hf & Hid).
      apply in_category in Hf as [Hf _]. eauto.
    + right. apply group_items in Hin as (f & Hf & Hid).
      apply in_category in Hf as [Hf _]. eauto.
    + right. apply group_items in Hin as (f & Hf & Hid).
      apply in_category in Hf as [Hf _]. eauto.
    + destruct Hin as [Hin|[Hin|[]]]; [discriminate|].
      left. now injection Hin.
  - intros best Hbest. unfold selectBestFormat in Hbest. cbn zeta in Hbest.
    destruct (filter isVideoAudio formats) as [|x r].
    + cbn [length Nat.ltb Nat.leb sort_by app] in *.
      destruct (filter isVideoOnly formats) as [|x' r']; [discriminate|].
      cbn [length Nat.ltb Nat.leb sort_by] in Hbest. cbn [sort_by].
      destruct (insert_by_first by_height_desc x' (sort_by by_height_desc r'))
        as (b & rest & E).
      rewrite E in *. injection Hbest as <-.
      apply in_or_app. left. apply group_first.
    + cbn [length Nat.ltb Nat.leb sort_by] in Hbest. cbn [sort_by].
      destruct (insert_by_first by_height_desc x (sort_by by_height_desc r))
        as (b & rest & E).
      rewrite E in *. injection Hbest as <-.
      apply in_or_app. left. apply group_first.
Qed.

End CatalogCoverage.

(** ** What a piece of script may do *)

Section ScriptDiscipline.

Import Host Path Coverage.

Local Open Scope exec_scope.

Lemma throwing_ret {A} (P : jsstring -> Prop) (a : A) : throwing P (ret a).
Proof. intros t. split; [exists []; cbn; now rewrite app_nil_r | exact I]. Qed.

Lemma throwing_emit (P : jsstring -> Prop) (e : Event) : throwing P (emit e).
Proof. intros t. split; [now exists [e] | exact I]. Qed.

Lemma throwing_log (P : jsstring -> Prop) (msg : Message) :
  throwing P (log msg).
Proof. apply throwing_emit. Qed.

Lemma throwing_throw {A} (P : jsstring -> Prop) (m : jsstring) :
  P m -> throwing P (@throw A m).
Proof.
  intros H t. split; [exists []; cbn; now rewrite app_nil_r | exact H].
Qed.

Lemma throwing_history (P : jsstring -> Prop) : throwing P history.
Proof. intros t. split; [exists []; cbn; now rewrite app_nil_r | exact I]. Qed.

Lemma throwing_bind {A B} (P : jsstring -> Prop) (c : Exec A)
    (k : A -> Exec B) :
  throwing P c -> (forall a, throwing P (k a)) -> throwing P (bind c k).
Proof.
  intros Hc Hk t. unfold bind. destruct (Hc t) as ((ev & Hev) & Hend).
  destruct (c t) as [t' [a|m|code]]; cbn [fst snd] in *; subst t'.
  - destruct (Hk a (t ++ ev)) as ((ev' & Hev') & Hend').
    split; [|exact Hend']. exists (ev ++ ev'). now rewrite Hev', app_assoc.
  - split; [now exists ev | exact Hend].
  - destruct Hend.
Qed.

Lemma throwing_try_catch {A} (P Q : jsstring -> Prop) (body : Exec A)
    (handler : jsstring -> Exec A) :
  throwing Q body -> (forall e, Q e -> throwing P (handler e)) ->
  throwing P (try_catch body handler).
Proof.
  intros Hb Hh t. unfold try_catch. destruct (Hb t) as ((ev & Hev) & Hend).
  destruct (body t) as [t' [a|m|code]]; cbn [fst snd] in *; subst t'.
  - split; [now exists ev | exact I].
  - destruct (Hh m Hend (t ++ ev)) as ((ev' & Hev') & Hend').
    split; [|exact Hend']. exists (ev ++ ev'). now rewrite Hev', app_assoc.
  - destruct Hend.
Qed.

Lemma throwing_weaken {A} (P Q : jsstring -> Prop) (c : Exec A) :
  (forall m, P m -> Q m) -> throwing P c -> throwing Q c.
Proof.
  intros HPQ Hc t. destruct (Hc t) as (Hev & Hend). split; [exact Hev|].
  destruct (snd (c t)); auto.
Qed.

Lemma throwing_existsSync (P : jsstring -> Prop) (w : World) (p : jsstring) :
  throwing P (fs_existsSync w p).
Proof.
  apply throwing_bind; [apply throwing_emit | intros; apply throwing_ret].
Qed.

Lemma throwing_mkdirSync (w : World) (p : jsstring) :
  throwing (fun m => mkdirSync w p = Some m) (fs_mkdirSync w p).
Proof.
  apply throwing_bind; [apply throwing_emit|]. intros _.
  destruct (mkdirSync w p) eqn:E;
    [now apply throwing_throw | apply throwing_ret].
Qed.

Lemma throwing_youtubedl (w : World) (url : jsstring)
    (options : DownloadOptions) :
  throwing (fun _ => True) (youtubedl w url options).
Proof.
  apply throwing_bind; [apply throwing_history|]. intros t.
  apply throwing_bind; [apply throwing_emit|]. intros _.
  destruct (download w _ url options);
    [now apply throwing_throw | apply throwing_ret].
Qed.

Lemma throwing_dumpJson (w : World) (url : jsstring) :
  throwing (fun _ => True) (youtubedl_dumpJson w url).
Proof.
  apply throwing_bind; [apply throwing_emit|]. intros _.
  destruct (dumpJson w url); [apply throwing_ret | now apply throwing_throw].
Qed.

Lemma throwing_version (w : World) :
  throwing (fun _ => True) (youtubedl_version w).
Proof.
  apply throwing_bind; [apply throwing_emit|]. intros _.
  destruct (versionProbe w); [now apply throwing_throw | apply throwing_ret].
Qed.

Lemma throwing_getVideoInfo (w : World) (url : jsstring) :
  throwing (prefixed fetchFailedPrefix) (getVideoInfo w url).
Proof.
  unfold getVideoInfo.
  apply (throwing_try_catch (Q := fun _ => True)); [apply throwing_dumpJson|].
  intros e _. apply throwing_throw. now exists e.
Qed.

Lemma throwing_checkYoutubeDl (w : World) :
  throwing (fun _ => False) (EntryA.checkYoutubeDl w).
Proof.
  unfold EntryA.checkYoutubeDl.
  apply (throwing_try_catch (Q := fun _ => True)).
  - apply throwing_bind; [apply throwing_version | intros; apply throwing_ret].
  - intros. apply throwing_ret.
Qed.

Lemma throwing_selectFormat (w : World)
    (formats : list FormatCatalog.Format) :
  throwing (fun _ => False) (EntryA.selectFormat w formats).
Proof.
  unfold EntryA.selectFormat.
  apply throwing_bind; [apply throwing_emit | intros; apply throwing_ret].
Qed.

Context {path : PathModule}.

Lemma throwing_downloadVideo_A (w : World) (url : jsstring)
    (videoInfo : VideoInfo) (folder selectedFormat : jsstring)
    (options : EntryA.Options) :
  throwing (prefixed downloadFailedPrefix)
    (EntryA.downloadVideo w url videoInfo folder selectedFormat options).
Proof.
  unfold EntryA.downloadVideo.
  apply (throwing_try_catch (Q := fun _ => True)).
  - cbn zeta. apply throwing_bind; [apply throwing_existsSync|]. intros there.
    apply throwing_bind.
    + destruct there; [apply throwing_ret|].
      eapply throwing_weaken; [|apply throwing_mkdirSync]. trivial.
    + intros _. apply throwing_bind; [apply throwing_youtubedl|].
      intros _. apply throwing_log.
  - intros e _. apply throwing_throw. now exists e.
Qed.

Lemma throwing_downloadVideo_B (w : World) (url : jsstring)
    (videoInfo : VideoInfo) (options : EntryB.Options) :
  throwing (prefixed downloadFailedPrefix)
    (EntryB.downloadVideo w url videoInfo options).
Proof.
  unfold EntryB.downloadVideo.
  apply (throwing_try_catch (Q := fun _ => True)).
  - cbn zeta. apply throwing_bind; [apply throwing_existsSync|]. intros there.
    apply throwing_bind.
    + destruct there; [apply throwing_ret|].
      eapply throwing_weaken; [|apply throwing_mkdirSync]. trivial.
    + intros _. apply throwing_bind; [apply throwing_log|]. intros _.
      apply throwing_bind; [apply throwing_log|]. intros _.
      apply throwing_bind; [apply throwing_youtubedl|]. intros _.
      apply throwing_bind; [apply throwing_log|]. intros _.
      apply throwing_bind; [|intros _; apply throwing_log].
      apply (throwing_try_catch (Q := fun _ => True));
        [apply throwing_youtubedl|].
      intros _ _. apply throwing_bind; [apply throwing_log|].
      intros _. apply throwing_youtubedl.
  - intros e _. apply throwing_throw. now exists e.
Qed.

(** X8: [downloadVideo] of either entry point only adds to the trace,
    never ends the process, and throws nothing but a download failure
    (the prefix and the original message): also an error of the
    directory creation comes out wrapped that way; [getVideoInfo] throws
    nothing but a fetch failure, with the downloader's message behind
    its prefix. *)
Theorem failures_are_wrapped (w : World) (url : jsstring)
    (videoInfo : VideoInfo) (folder selectedFormat : jsstring)
    (optionsA : EntryA.Options) (optionsB : EntryB.Options) :
  throwing (prefixed downloadFailedPrefix)
    (EntryA.downloadVideo w url videoInfo folder selectedFormat optionsA)
  /\ throwing (prefixed downloadFailedPrefix)
       (EntryB.downloadVideo w url videoInfo optionsB)
  /\ throwing (prefixed fetchFailedPrefix) (getVideoInfo w url)
  /\ (forall e, dumpJson w url = inr e ->
        getVideoInfo w url []
        = ([YoutubedlDumpJson url], Thrown (fetchFailedPrefix ++ e))).
Proof.
  split; [apply throwing_downloadVideo_A|].
  split; [apply throwing_downloadVideo_B|].
  split; [apply throwing_getVideoInfo|].
  intros e He. unfold getVideoInfo, try_catch, youtubedl_dumpJson, bind, emit.
  cbn [app]. now rewrite He.
Qed.

(** A [try] block whose catch prints the message and exits. *)
Lemma guarded_reported {A} (Q : jsstring -> Prop) (body : Exec A)
    (t : list Event) :
  throwing Q body ->
  reported Q
    (try_catch body (fun message => log (ErrorLine message) ;;; exit 1%Z) t).
Proof.
  intros Hb. unfold reported, try_catch. destruct (Hb t) as (_ & Hend).
  destruct (body t) as [t' [a|m|code]]; cbn [fst snd] in *.
  - exact I.
  - split; [reflexivity|]. exists t', m. split; [reflexivity | exact Hend].
  - destruct Hend.
Qed.

Lemma throwing_run_B (w : World) (url : jsstring) (options : EntryB.Options) :
  throwing (fun m => prefixed fetchFailedPrefix m
                     \/ prefixed downloadFailedPrefix m)
    (EntryB.run w url options).
Proof.
  unfold EntryB.run.
  apply throwing_bind; [apply throwing_log|]. intros _.
  apply throwing_bind.
  - eapply throwing_weaken; [|apply throwing_getVideoInfo]. now left.
  - intros videoInfo. apply throwing_bind; [apply throwing_log|]. intros _.
    eapply throwing_weaken; [|apply throwing_downloadVideo_B]. now right.
Qed.

(** X9: [main] of entry point B never lets an error escape: it returns,
    or it ends the process with status 1 right after printing an error
    line whose message is a fetch failure or a download failure. *)
Theorem main_B_reports (w : World) (args : list jsstring) :
  reported (fun m => prefixed fetchFailedPrefix m
                     \/ prefixed downloadFailedPrefix m)
    (EntryB.main w args []).
Proof.
  unfold EntryB.main.
  destruct (existsb _ args || existsb _ args || _)%bool; [exact I|].
  cbn zeta.
  destruct (negb (truthy_ostr (EntryB.findUrl None args))); [exact I|].
  destruct (negb (includes _ _) && negb (includes _ _))%bool.
  - destruct (EntryB.youtubeIdPattern _); [|exact I].
    unfold bind at 1, log at 1, emit at 1.
    apply guarded_reported, throwing_run_B.
  - apply guarded_reported, throwing_run_B.
Qed.

Lemma throwing_run_A (w : World) (url : jsstring) (options : EntryA.Options) :
  throwing (fun _ => True) (EntryA.run w url options).
Proof.
  unfold EntryA.run.
  apply throwing_bind.
  { eapply throwing_weaken; [|apply throwing_checkYoutubeDl]. trivial. }
  intros hasYoutubeDl. destruct (negb hasYoutubeDl); [apply throwing_log|].
  apply throwing_bind.
  { destruct (truthy_ostr (EntryA.outputDir options)); [|apply throwing_ret].
    apply throwing_bind; [apply throwing_existsSync|]. intros there.
    destruct there; [apply throwing_ret|].
    apply throwing_bind; [|intros; apply throwing_log].
    eapply throwing_weaken; [|apply throwing_mkdirSync]. trivial. }
  intros _. apply throwing_bind; [apply throwing_log|]. intros _.
  apply throwing_bind.
  { eapply throwing_weaken; [|apply throwing_getVideoInfo]. trivial. }
  intros videoInfo. cbn zeta.
  apply throwing_bind; [apply throwing_log|]. intros _.
  apply throwing_bind.
  { destruct (EntryA.auto options).
    - apply throwing_bind; [apply throwing_log | intros; apply throwing_ret].
    - apply throwing_bind.
      { eapply throwing_weaken; [|apply throwing_selectFormat]. trivial. }
      intros chosen. apply throwing_bind; [|intros; apply throwing_ret].
      destruct (negb (str_eqb chosen (lit "auto"))); [|apply throwing_log].
      destruct (find _ _); [apply throwing_log | apply throwing_ret]. }
  intros selectedFormat.
  eapply throwing_weaken; [|apply throwing_downloadVideo_A]. trivial.
Qed.

(** X10: [main] of entry point A returns, or ends the process with
    status 1 right after printing an error line, or -- only when the
    option loop ran past the end of the arguments, an option that takes
    a value being the last argument read -- throws the [TypeError] of
    [undefined.startsWith], uncaught and with nothing printed. *)
Theorem main_A_reports (w : World) (args : list jsstring) :
  reported (fun _ => True) (EntryA.main w args [])
  \/ (EntryA.main w args [] = ([], Thrown EntryA.startsWithOfUndefined)
      /\ EntryA.parseArgs args EntryA.noOptions [] = None).
Proof.
  unfold EntryA.main.
  destruct (existsb _ args || _)%bool; [now left|].
  destruct (EntryA.parseArgs args EntryA.noOptions [])
    as [[options remainingArgs]|]; [left | now right].
  destruct remainingArgs as [|url rest]; [exact I|].
  destruct (negb (includes _ _) && negb (includes _ _))%bool; [exact I|].
  apply guarded_reported, throwing_run_A.
Qed.

End ScriptDiscipline.

(** ** The option loop of entry point A *)

Section ParseArgsCoverage.

Import Host Coverage EntryA.

(** What the loop answers, whatever options and arguments it started
    from. *)
Lemma parseArgs_outcome (args : list jsstring) :
  forall (options : Options) (remainingArgs : list jsstring),
  match parseArgs args options remainingArgs with
  | None => exists before flag, args = before ++ [flag] /\ In flag valuedFlags
  | Some (_, remaining') =>
      exists picked,
        remaining' = remainingArgs ++ picked
        /\ Forall (fun a => In a args /\ startsWith (lit "--") a = false) picked
  end.
Proof.
  remember (length args) as n eqn:Hn. revert args Hn.
  induction n as [n IH] using lt_wf_ind. intros args -> options remainingArgs.
  destruct args as [|a rest].
  { cbn [parseArgs]. exists []. now rewrite app_nil_r. }
  assert (Hskip : forall o r,
    match parseArgs rest o r with
    | None => exists before flag, a :: rest = before ++ [flag]
                                  /\ In flag valuedFlags
    | Some (_, remaining') =>
        exists picked,
          remaining' = r ++ picked
          /\ Forall (fun x => In x (a :: rest)
                              /\ startsWith (lit "--") x = false) picked
    end).
  { intros o r.
    pose proof (IH (length rest) ltac:(cbn [length]; lia) rest eq_refl o r)
      as H.
    destruct (parseArgs rest o r) as [[o' r']|].
    - destruct H as (picked & -> & Hp). exists picked. split; [reflexivity|].
      eapply Forall_impl; [|exact Hp]. intros x [Hx Hd].
      split; [now right|exact Hd].
    - destruct H as (before & flag & -> & Hf). exists (a :: before), flag.
      now split. }
  assert (Hvalued : forall store : jsstring -> Options -> Options,
    In a valuedFlags ->
    match
      match rest with
      | v :: rest' => parseArgs rest' (store v options) remainingArgs
      | [] => None
      end
    with
    | None => exists before flag, a :: rest = before ++ [flag]
                                  /\ In flag valuedFlags
    | Some (_, remaining') =>
        exists picked,
          remaining' = remainingArgs ++ picked
          /\ Forall (fun x => In x (a :: rest)
                              /\ startsWith (lit "--") x = false) picked
    end).
  { intros store Ha. destruct rest as [|v rest'].
    - exists [], a. now split.
    - pose proof (IH (length rest') ltac:(cbn [length]; lia) rest' eq_refl
                    (store v options) remainingArgs) as H.
      destruct (parseArgs rest' (store v options) remainingArgs)
        as [[o' r']|].
      + destruct H as (picked & -> & Hp). exists picked. split; [reflexivity|].
        eapply Forall_impl; [|exact Hp]. intros x [Hx Hd].
        split; [now right; right | exact Hd].
      + destruct H as (before & flag & -> & Hf).
        exists (a :: v :: before), flag. now split. }
  cbn [parseArgs].
  destruct (str_eqb a (lit "--folderName")) eqn:E1.
  { apply str_eqb_eq in E1. apply (Hvalued with_folderName).
    subst a. now left. }
  destruct (str_eqb a (lit "--parentFolder")) eqn:E2.
  { apply str_eqb_eq in E2. apply (Hvalued with_parentFolder).
    subst a. right. now left. }
  destruct (str_eqb a (lit "--output-dir")) eqn:E3.
  { apply str_eqb_eq in E3. apply (Hvalued with_outputDir).
    subst a. do 2 right. now left. }
  destruct (str_eqb a (lit "--filename")) eqn:E4.
  { apply str_eqb_eq in E4. apply (Hvalued with_filename).
    subst a. do 3 right. now left. }
  destruct (str_eqb a (lit "--audio-only")); [apply Hskip|].
  destruct (str_eqb a (lit "--quality")) eqn:E5.
  { apply str_eqb_eq in E5.
    apply (Hvalued (fun v => with_quality (parseInt v))).
    subst a. do 4 right. now left. }
  destruct (str_eqb a (lit "--auto")); [apply Hskip|].
  destruct (startsWith (lit "--") a) eqn:Ed; [apply Hskip|].
  specialize (Hskip options (remainingArgs ++ [a])).
  destruct (parseArgs rest options (remainingArgs ++ [a])) as [[o' r']|];
    [|exact Hskip].
  destruct Hskip as (picked & -> & Hp). exists (a :: picked).
  split; [now rewrite <- app_assoc|].
  constructor; [split; [now left | exact Ed] | exact Hp].
Qed.

Lemma not_valued (a : jsstring) :
  ~ In a valuedFlags ->
  str_eqb a (lit "--folderName") = false
  /\ str_eqb a (lit "--parentFolder") = false
  /\ str_eqb a (lit "--output-dir") = false
  /\ str_eqb a (lit "--filename") = false
  /\ str_eqb a (lit "--quality") = false.
Proof.
  intros Hno.
  repeat split; apply not_true_is_false; intros E; apply str_eqb_eq in E;
    apply Hno; subst a; cbn; tauto.
Qed.

(** An option that takes a value, read as the last argument, makes the
    loop run past the end of the arguments. *)
Lemma parseArgs_value_missing (before : list jsstring) (flag : jsstring) :
  In flag valuedFlags ->
  (forall a, In a before -> ~ In a valuedFlags) ->
  forall options remainingArgs,
    parseArgs (before ++ [flag]) options remainingArgs = None.
Proof.
  intros Hflag. induction before as [|a before IH]; intros Hb options rem.
  - cbn [app]. cbn in Hflag.
    destruct Hflag as [<-|[<-|[<-|[<-|[<-|[]]]]]]; reflexivity.
  - cbn [app parseArgs].
    destruct (not_valued (Hb a (or_introl eq_refl)))
      as (-> & -> & -> & -> & E5).
    assert (IH' : forall o r, parseArgs (before ++ [flag]) o r = None).
    { apply IH. intros x Hx. apply Hb. now right. }
    destruct (str_eqb a (lit "--audio-only")); [apply IH'|].
    rewrite E5.
    destruct (str_eqb a (lit "--auto")); [apply IH'|].
    destruct (startsWith (lit "--") a); apply IH'.
Qed.

(** X11: the option loop of entry point A collects as positional
    arguments only arguments that do not start with two dashes; the
    argument after an option that takes a value is consumed as that
    value whatever it is: it is stored under the property of the option
    (for [--quality], what [parseInt] reads from it), no other property
    and no positional argument changes, and the loop goes on behind it,
    so that a value is no positional argument and a dashed value such as
    [--auto] switches nothing on; the
    loop fails (the [TypeError] of [main]) only when the last argument
    is an option that takes a value, and it does fail whenever such an
    option comes last after arguments that are none. *)
Theorem parseArgs_positional (args : list jsstring) (options : Options) :
  match parseArgs args options [] with
  | None => exists before flag, args = before ++ [flag] /\ In flag valuedFlags
  | Some (_, remainingArgs) =>
      Forall (fun a => In a args /\ startsWith (lit "--") a = false)
        remainingArgs
  end
  /\ (forall v rest remainingArgs,
        parseArgs (lit "--folderName" :: v :: rest) options remainingArgs
        = parseArgs rest (with_folderName v options) remainingArgs
        /\ parseArgs (lit "--parentFolder" :: v :: rest) options remainingArgs
           = parseArgs rest (with_parentFolder v options) remainingArgs
        /\ parseArgs (lit "--output-dir" :: v :: rest) options remainingArgs
           = parseArgs rest (with_outputDir v options) remainingArgs
        /\ parseArgs (lit "--filename" :: v :: rest) options remainingArgs
           = parseArgs rest (with_filename v options) remainingArgs
        /\ parseArgs (lit "--quality" :: v :: rest) options remainingArgs
           = parseArgs rest (with_quality (parseInt v) options) remainingArgs)
  /\ (forall flag v,
        In flag valuedFlags ->
        exists options',
          parseArgs [flag; v] options [] = Some (options', [])
          /\ auto options' = auto options
          /\ audioOnly options' = audioOnly options)
  /\ (forall before flag,
        In flag valuedFlags ->
        (forall a, In a before -> ~ In a valuedFlags) ->
        parseArgs (before ++ [flag]) options [] = None).
Proof.
  split; [|split; [|split]].
  - pose proof (parseArgs_outcome args options []) as H.
    destruct (parseArgs args options []) as [[o' r']|]; [|exact H].
    now destruct H as (picked & -> & Hp).
  - intros v rest remainingArgs. repeat split.
  - intros flag v Hflag. cbn in Hflag.
    destruct Hflag as [<-|[<-|[<-|[<-|[<-|[]]]]]];
      eexists; (split; [reflexivity|]); split; reflexivity.
  - intros before flag Hflag Hb. now apply parseArgs_value_missing.
Qed.

End ParseArgsCoverage.

(** ** Directories, requests and the first calls *)

(** Unfolds a piece of script on an explicit trace down to the answers
    of the world. *)
Ltac on_trace :=
  unfold Host.try_catch, Host.bind, Host.fs_existsSync, Host.fs_mkdirSync,
    Host.youtubedl, Host.youtubedl_dumpJson, Host.youtubedl_version,
    Host.history, Host.log, Host.emit, Host.ret, Host.throw, Host.exit;
  cbn [app filter Host.is_download length fst snd Scenario.requests flat_map
       In].

Section RequestCoverage.

Import FormatCatalog Host Path Scenario Coverage.

Context {path : PathModule}.

(** X12: when the target directory does not exist and cannot be made,
    [downloadVideo] of either entry point asks the downloader nothing
    and throws the error of [mkdirSync] as a download failure. *)
Theorem downloadVideo_without_directory (w : World) (url : jsstring)
    (videoInfo : VideoInfo) (folder selectedFormat : jsstring)
    (optionsA : EntryA.Options) (optionsB : EntryB.Options) :
  let dirA :=
    EntryA.createdDir videoInfo
      (EntryA.downloadOptions videoInfo folder selectedFormat optionsA) in
  let dirB := EntryB.targetDir videoInfo optionsB in
  (forall e, existsSync w dirA = false -> mkdirSync w dirA = Some e ->
     EntryA.downloadVideo w url videoInfo folder selectedFormat optionsA []
     = ([ExistsSync dirA; MkdirSync dirA], Thrown (downloadFailedPrefix ++ e)))
  /\ (forall e, existsSync w dirB = false -> mkdirSync w dirB = Some e ->
        EntryB.downloadVideo w url videoInfo optionsB []
        = ([ExistsSync dirB; MkdirSync dirB],
           Thrown (downloadFailedPrefix ++ e))).
Proof.
  cbn zeta. split; intros e Hno Hmk.
  - unfold EntryA.downloadVideo. cbn zeta. on_trace. rewrite Hno.
    on_trace. now rewrite Hmk.
  - unfold EntryB.downloadVideo. cbn zeta. on_trace. rewrite Hno.
    on_trace. now rewrite Hmk.
Qed.

(** The requests of entry point B are among its three. *)
Lemma requests_B_among (w : World) (url : jsstring) (videoInfo : VideoInfo)
    (options : EntryB.Options) :
  let run := EntryB.downloadVideo w url videoInfo options [] in
  (exists events,
     fst run = ExistsSync (EntryB.targetDir videoInfo options) :: events)
  /\ forall q, In q (requests (fst run)) ->
       q = (url, EntryB.videoOptions videoInfo options)
       \/ q = (url, EntryB.audioOptions videoInfo options)
       \/ q = (url, EntryB.backupAudioOptions videoInfo options).
Proof.
  cbn zeta. unfold EntryB.downloadVideo. cbn zeta. on_trace.
  destruct (existsSync w _); on_trace.
  - destruct (download w 0 url (EntryB.videoOptions videoInfo options));
      on_trace; [split; [eauto | intuition (subst; auto)]|].
    destruct (download w 1 url (EntryB.audioOptions videoInfo options));
      on_trace; [|split; [eauto | intuition (subst; auto)]].
    destruct (download w 2 url (EntryB.backupAudioOptions videoInfo options));
      on_trace; (split; [eauto | intuition (subst; auto)]).
  - destruct (mkdirSync w _); on_trace;
      [split; [eauto | intuition (subst; auto)]|].
    destruct (download w 0 url (EntryB.videoOptions videoInfo options));
      on_trace; [split; [eauto | intuition (subst; auto)]|].
    destruct (download w 1 url (EntryB.audioOptions videoInfo options));
      on_trace; [|split; [eauto | intuition (subst; auto)]].
    destruct (download w 2 url (EntryB.backupAudioOptions videoInfo options));
      on_trace; (split; [eauto | intuition (subst; auto)]).
Qed.

(** X13: in entry point B an [outputDir] option is the target directory
    as it stands: it is the directory tested and created, and every
    request made writes to [outputDir] joined with the file name (the
    [filename] option, or else the sanitized title) and the extension
    placeholder, whatever the parent-folder options say. *)
Theorem downloadVideo_B_outputDir (w : World) (url : jsstring)
    (videoInfo : VideoInfo) (options : EntryB.Options) :
  truthy_ostr (EntryB.outputDir options) = true ->
  let dir := str_of (EntryB.outputDir options) in
  let name :=
    if truthy_ostr (EntryB.filename options)
    then str_of (EntryB.filename options)
    else NameSanitizer.minimalSanitizeFilename (title videoInfo) in
  let run := EntryB.downloadVideo w url videoInfo options [] in
  EntryB.targetDir videoInfo options = dir
  /\ (exists events, fst run = ExistsSync dir :: events)
  /\ forall q, In q (requests (fst run)) ->
       fst q = url
       /\ output (snd q) = Some (join [dir; name ++ lit ".%(ext)s"]).
Proof.
  intros Hdir. cbn zeta.
  assert (Htarget : EntryB.targetDir videoInfo options
                    = str_of (EntryB.outputDir options))
    by (unfold EntryB.targetDir; now rewrite Hdir).
  destruct (requests_B_among w url videoInfo options) as (Hfirst & Hamong).
  cbn zeta in *. rewrite Htarget in Hfirst.
  split; [exact Htarget|]. split; [exact Hfirst|].
  intros q Hq. apply Hamong in Hq.
  assert (Hout : EntryB.targetOutput videoInfo options
                 = join [str_of (EntryB.outputDir options);
                         (if truthy_ostr (EntryB.filename options)
                          then str_of (EntryB.filename options)
                          else NameSanitizer.minimalSanitizeFilename
                                 (title videoInfo)) ++ lit ".%(ext)s"]).
  { unfold EntryB.targetOutput, EntryB.targetName, or_else.
    rewrite Htarget. destruct (truthy_ostr (EntryB.filename options));
      reflexivity. }
  destruct Hq as [-> | [-> | ->]]; cbn [fst snd]; split; try reflexivity;
    cbn [output EntryB.videoOptions EntryB.audioOptions
         EntryB.backupAudioOptions set_format]; now rewrite Hout.
Qed.

End RequestCoverage.

Section RequestWitness.

Import FormatCatalog Host Path Scenario Coverage.

(** The theorem in the world without writable directories. *)
Lemma downloadVideo_without_directory_witness :
  let url := lit "https://youtu.be/aaaaaaaaaaa" in
  let info := {| title := lit "clip"; formats := [] |} in
  let optionsB := EntryB.parseOptions [url] in
  let dirB := EntryB.targetDir (path := posix) info optionsB in
  existsSync readOnly dirB = false
  /\ mkdirSync readOnly dirB = Some (lit "EACCES: permission denied")
  /\ EntryB.downloadVideo (path := posix) readOnly url info optionsB []
     = ([ExistsSync dirB; MkdirSync dirB],
        Thrown (downloadFailedPrefix ++ lit "EACCES: permission denied")).
Proof.
  intros url info optionsB dirB.
  destruct (downloadVideo_without_directory (path := posix) readOnly url info
              (lit "f") (lit "auto") EntryA.noOptions optionsB) as (_ & HB).
  split; [reflexivity|]. split; [reflexivity|].
  exact (HB _ eq_refl eq_refl).
Defined.

(** The theorem for [--output-dir ./videos] given together with
    [--parent-folder music]. *)
Lemma downloadVideo_B_outputDir_witness :
  let url := lit "https://youtu.be/aaaaaaaaaaa" in
  let info := {| title := lit "a:b"; formats := [] |} in
  let options :=
    EntryB.parseOptions
      [url; lit "--output-dir"; lit "./videos"; lit "--parent-folder";
       lit "music"] in
  let run := EntryB.downloadVideo (path := posix) calm url info options [] in
  truthy_ostr (EntryB.outputDir options) = true
  /\ EntryB.targetDir (path := posix) info options = lit "./videos"
  /\ map (fun q => output (snd q)) (requests (fst run))
     = [Some (lit "videos/a_b.%(ext)s"); Some (lit "videos/a_b.%(ext)s")]
  /\ forall q, In q (requests (fst run)) ->
       fst q = url
       /\ output (snd q) = Some (lit "videos/a_b.%(ext)s").
Proof.
  intros url info options run.
  assert (Hdir : truthy_ostr (EntryB.outputDir options) = true) by reflexivity.
  destruct (downloadVideo_B_outputDir (path := posix) calm url info options
              Hdir) as (Htarget & _ & Hall).
  split; [exact Hdir|]. split; [exact Htarget|]. split; [reflexivity|].
  exact Hall.
Defined.

End RequestWitness.

(** ** The arguments of entry point B *)

Section EntryBCoverage.

Import FormatCatalog Host Path Scenario Coverage.

Lemma includes_chars (p s : jsstring) (c : codeunit) :
  includes p s = true -> In c p -> In c s.
Proof.
  induction s as [|x s IH]; cbn [includes]; intros H Hc.
  - rewrite orb_false_r in H. destruct p; [destruct Hc | discriminate].
  - apply orb_true_iff in H as [H|H].
    + rewrite (startsWith_split _ _ H). apply in_or_app. now left.
    + right. now apply IH.
Qed.

(** A video identifier holds no dot, hence no host name. *)
Lemma id_is_no_url (s : jsstring) :
  EntryB.youtubeIdPattern s = true ->
  truthy_str s = true
  /\ includes (lit "youtube.com") s = false
  /\ includes (lit "youtu.be") s = false.
Proof.
  unfold EntryB.youtubeIdPattern. intros H.
  apply andb_true_iff in H as [Hlen Hall]. apply Nat.eqb_eq in Hlen.
  rewrite forallb_forall in Hall.
  assert (Hdot : ~ In 46%N s).
  { intros Hin. specialize (Hall _ Hin). discriminate Hall. }
  split; [destruct s; [discriminate | reflexivity]|].
  split; apply not_true_is_false; intros E; apply Hdot;
    apply (includes_chars _ _ 46%N E); cbn; tauto.
Qed.

(** The argument [args.find] answers stands in the list, does not start
    with two dashes, and neither does the argument before it. *)
Lemma findUrl_sound (args : list jsstring) :
  forall prev u,
    EntryB.findUrl prev args = Some u ->
    startsWith (lit "--") u = false
    /\ exists before after,
         args = before ++ u :: after
         /\ (before = [] ->
             match prev with
             | Some p => startsWith (lit "--") p = false
             | None => True
             end)
         /\ (forall before' p,
               before = before' ++ [p] -> startsWith (lit "--") p = false).
Proof.
  induction args as [|a rest IH]; intros prev u H; [discriminate|].
  cbn [EntryB.findUrl] in H.
  assert (Hnext : EntryB.findUrl (Some a) rest = Some u ->
    startsWith (lit "--") u = false
    /\ exists before after,
         a :: rest = before ++ u :: after
         /\ (before = [] ->
             match prev with
             | Some p => startsWith (lit "--") p = false
             | None => True
             end)
         /\ (forall before' p,
               before = before' ++ [p] -> startsWith (lit "--") p = false)).
  { intros H'.
    destruct (IH _ _ H') as (Hu & before & after & -> & Hfirst & Hlast).
    split; [exact Hu|]. exists (a :: before), after.
    split; [reflexivity|]. split; [discriminate|].
    intros before' p E. destruct before' as [|x before'].
    - cbn [app] in E. injection E as -> ->. now apply Hfirst.
    - cbn [app] in E. injection E as -> ->. now apply (Hlast before').  }
  assert (Hhere : Some a = Some u ->
    match prev with
    | Some p => startsWith (lit "--") p = false
    | None => True
    end ->
    startsWith (lit "--") a = false ->
    startsWith (lit "--") u = false
    /\ exists before after,
         a :: rest = before ++ u :: after
         /\ (before = [] ->
             match prev with
             | Some p => startsWith (lit "--") p = false
             | None => True
             end)
         /\ (forall before' p,
               before = before' ++ [p] -> startsWith (lit "--") p = false)).
  { intros E Hp Ha. injection E as <-. split; [exact Ha|]. exists [], rest.
    split; [reflexivity|]. split; [now intros _|].
    intros [|x before'] p E; discriminate E. }
  destruct (startsWith (lit "--") a) eqn:Ea; [now apply Hnext|].
  destruct prev as [p|].
  - destruct (startsWith (lit "--") p) eqn:Ep; [now apply Hnext|].
    now apply Hhere.
  - now apply Hhere.
Qed.

Context {path : PathModule}.

(** X14: [args.find] of entry point B answers an argument that does not
    start with two dashes and does not follow one that does; so a URL
    written right after any dashed argument, even after the flag
    [--desc] that takes no value, is not found, and [main] asks for a
    URL and prints the usage without fetching anything. *)
Theorem findUrl_skips_after_flag (w : World) (flag u : jsstring) :
  startsWith (lit "--") flag = true ->
  existsb (str_eqb (lit "--help")) [flag; u] = false ->
  existsb (str_eqb (lit "-h")) [flag; u] = false ->
  (forall args found,
     EntryB.findUrl None args = Some found ->
     startsWith (lit "--") found = false
     /\ exists before after,
          args = before ++ found :: after
          /\ forall before' p,
               before = before' ++ [p] -> startsWith (lit "--") p = false)
  /\ EntryB.findUrl None [flag; u] = None
  /\ EntryB.main w [flag; u] [] = ([Console NeedUrl; Console Usage], Normal tt).
Proof.
  intros Hflag Hhelp Hh.
  split.
  { intros args found Hfound.
    destruct (@findUrl_sound args None found Hfound)
      as (Hd & before & after & E & _ & Hlast).
    split; [exact Hd|]. now exists before, after. }
  assert (Hnone : EntryB.findUrl None [flag; u] = None).
  { cbn [EntryB.findUrl]. rewrite Hflag.
    destruct (startsWith (lit "--") u); reflexivity. }
  split; [exact Hnone|].
  unfold EntryB.main. rewrite Hhelp, Hh. cbn [length Nat.eqb orb].
  cbn zeta. now rewrite Hnone.
Qed.

(** X15: a bare video identifier (eleven code units of letters, digits,
    underscore and hyphen) given to entry point B is expanded to the
    watch URL before anything else: the expansion is reported first,
    the metadata is asked for under the watch URL, and every download
    request is made for the watch URL. *)
Theorem main_B_expands_id (w : World) (args : list jsstring) (id : jsstring) :
  existsb (str_eqb (lit "--help")) args = false ->
  existsb (str_eqb (lit "-h")) args = false ->
  EntryB.findUrl None args = Some id ->
  EntryB.youtubeIdPattern id = true ->
  let url := lit "https://www.youtube.com/watch?v=" ++ id in
  let run := EntryB.main w args [] in
  (exists events,
     fst run
     = [Console (IdExpanded url); Console FetchingInfo; YoutubedlDumpJson url]
       ++ events)
  /\ forall q, In q (requests (fst run)) -> fst q = url.
Proof.
  intros Hhelp Hh Hfind Hid. cbn zeta.
  destruct (id_is_no_url id Hid) as (Htruthy & Hcom & Hbe).
  assert (Hargs : (length args =? 0)%nat = false).
  { destruct args; [discriminate Hfind | reflexivity]. }
  unfold EntryB.main. rewrite Hhelp, Hh, Hargs. cbn [orb]. cbn zeta.
  rewrite Hfind. cbn [truthy_ostr str_of]. rewrite Htruthy. cbn [negb].
  rewrite Hcom, Hbe, Hid. cbn [negb andb].
  unfold EntryB.run, getVideoInfo, EntryB.downloadVideo. cbn zeta. on_trace.
  destruct (dumpJson w _) as [videoInfo|e]; on_trace;
    [|split; [eauto | intros q []]].
  destruct (existsSync w _); on_trace.
  - destruct (download w 0 _ _); on_trace;
      [split; [eauto | intuition (subst; auto)]|].
    destruct (download w 1 _ _); on_trace;
      [|split; [eauto | intuition (subst; auto)]].
    destruct (download w 2 _ _); on_trace;
      (split; [eauto | intuition (subst; auto)]).
  - destruct (mkdirSync w _); on_trace;
      [split; [eauto | intuition (subst; auto)]|].
    destruct (download w 0 _ _); on_trace;
      [split; [eauto | intuition (subst; auto)]|].
    destruct (download w 1 _ _); on_trace;
      [|split; [eauto | intuition (subst; auto)]].
    destruct (download w 2 _ _); on_trace;
      (split; [eauto | intuition (subst; auto)]).
Qed.

End EntryBCoverage.

Section EntryBWitness.

Import FormatCatalog Host Path Scenario Coverage.

(** The theorem for [--desc] followed by a URL. *)
Lemma findUrl_skips_after_flag_witness :
  let url := lit "https://youtu.be/aaaaaaaaaaa" in
  startsWith (lit "--") (lit "--desc") = true
  /\ EntryB.findUrl None [lit "--desc"; url] = None
  /\ EntryB.main (path := posix) calm [lit "--desc"; url] []
     = ([Console NeedUrl; Console Usage], Normal tt)
  /\ EntryB.findUrl None [url; lit "--desc"] = Some url.
Proof.
  intros url.
  destruct (findUrl_skips_after_flag (path := posix) calm (lit "--desc") url
              eq_refl eq_refl eq_refl) as (_ & Hnone & Hmain).
  split; [reflexivity|]. split; [exact Hnone|]. split; [exact Hmain|].
  reflexivity.
Defined.

(** The theorem for the identifier of the usage text. *)
Lemma main_B_expands_id_witness :
  let id := lit "dQw4w9WgXcQ" in
  let url := lit "https://www.youtube.com/watch?v=dQw4w9WgXcQ" in
  let run := EntryB.main (path := posix) calm [id; lit "--desc"] [] in
  EntryB.findUrl None [id; lit "--desc"] = Some id
  /\ EntryB.youtubeIdPattern id = true
  /\ (exists events,
        fst run
        = [Console (IdExpanded url); Console FetchingInfo;
           YoutubedlDumpJson url] ++ events)
  /\ map fst (requests (fst run)) = [url; url].
Proof.
  intros id url run.
  destruct (@main_B_expands_id posix calm [id; lit "--desc"] id
              eq_refl eq_refl eq_refl eq_refl) as (Hfirst & _).
  split; [reflexivity|]. split; [reflexivity|]. split; [exact Hfirst|].
  reflexivity.
Defined.

End EntryBWitness.

Section OptionValueCoverage.

Import Host Coverage.

(** X16: the value entry point B reads for an option is the argument
    right after the first occurrence of the flag, and never one that
    starts with two dashes; when the flag is absent, comes last, or is
    followed by a dashed argument at its first occurrence, there is no
    value (and no error), whatever follows a later occurrence. *)
Theorem valueAfter_first_occurrence (flag : jsstring) (args : list jsstring) :
  match EntryB.valueAfter flag args with
  | Some v =>
      startsWith (lit "--") v = false
      /\ exists before after,
           args = before ++ flag :: v :: after /\ ~ In flag before
  | None =>
      ~ In flag args
      \/ exists before after,
           args = before ++ flag :: after /\ ~ In flag before
           /\ match after with
              | [] => True
              | v :: _ => startsWith (lit "--") v = true
              end
  end.
Proof.
  induction args as [|a rest IH]; cbn [EntryB.valueAfter]; [left; tauto|].
  destruct (str_eqb a flag) eqn:E.
  - apply str_eqb_eq in E. subst a. destruct rest as [|v rest'].
    + right. exists [], []. repeat split. tauto.
    + destruct (startsWith (lit "--") v) eqn:Ev.
      * right. exists [], (v :: rest'). repeat split; [tauto | exact Ev].
      * split; [exact Ev|]. exists [], rest'. split; [reflexivity | tauto].
  - assert (Hne : a <> flag).
    { intros ->. assert (H : str_eqb flag flag = true) by now apply str_eqb_eq.
      congruence. }
    destruct (EntryB.valueAfter flag rest) as [v|].
    + destruct IH as (Hv & before & after & -> & Hb). split; [exact Hv|].
      exists (a :: before), after. split; [reflexivity|].
      intros [H|H]; [congruence | tauto].
    + destruct IH as [Hno | (before & after & -> & Hb & Hafter)].
      * left. intros [H|H]; [congruence | tauto].
      * right. exists (a :: before), after. split; [reflexivity|].
        split; [|exact Hafter]. intros [H|H]; [congruence | tauto].
Qed.

End OptionValueCoverage.

(** ** The batch driver and the downloader probe *)

Section BatchCoverage.

Import Host Path Scenario Coverage Batch.

Lemma drop_while_nil (s : jsstring) :
  drop_while is_space s = [] <-> forallb is_space s = true.
Proof.
  induction s as [|c r IH]; cbn [drop_while forallb]; [tauto|].
  destruct (is_space c); cbn [andb]; [exact IH|]. split; discriminate.
Qed.

Lemma drop_while_head (s : jsstring) (c : codeunit) (r : jsstring) :
  drop_while is_space s = c :: r -> is_space c = false.
Proof.
  induction s as [|x s IH]; cbn [drop_while]; [discriminate|].
  destruct (is_space x) eqn:E; [exact IH|]. intros H. now injection H as <- _.
Qed.

(** A line is blank exactly when it holds white space only. *)
Lemma blank_line (line : jsstring) :
  truthy_str (trim line) = negb (forallb is_space line).
Proof.
  unfold trim. destruct (drop_while is_space line) as [|c r] eqn:E.
  - apply drop_while_nil in E. now rewrite E.
  - assert (Hall : forallb is_space line = false).
    { apply not_true_is_false. intros H. apply drop_while_nil in H.
      congruence. }
    rewrite Hall. cbn [negb].
    pose proof (drop_while_head _ E) as Hc.
    destruct (drop_while is_space (rev (c :: r))) as [|c' r'] eqn:E'.
    + exfalso. apply drop_while_nil in E'. rewrite forallb_forall in E'.
      specialize (E' c). rewrite <- in_rev in E'.
      rewrite E' in Hc by now left. discriminate.
    + destruct (rev (c' :: r')) eqn:Er; [|reflexivity].
      apply (f_equal (@length _)) in Er. rewrite length_rev in Er.
      discriminate.
Qed.

(** X17: the batch driver stops with status 1 when the input file is
    missing, after the error line and before any child process; the
    file name defaults to [ise.txt] also for an empty first argument; a
    line is skipped exactly when it holds white space only, and
    [processLine] itself does nothing for such a line. *)
Theorem batch_edges (w : World) (args : list jsstring) :
  existsSync w (inputFileOf args) = false ->
  script w args []
  = ([ExistsSync (inputFileOf args); Console (FileMissing (inputFileOf args))],
     Exited 1%Z)
  /\ (forall rest, inputFileOf ([] :: rest) = lit "ise.txt")
  /\ (forall line, truthy_str (trim line) = negb (forallb is_space line))
  /\ (forall line options t,
        forallb is_space line = true ->
        processLine w line options t = (t, Normal tt)).
Proof.
  intros Hfile. split; [|split; [|split]].
  - unfold script, main. on_trace. now rewrite Hfile.
  - reflexivity.
  - exact blank_line.
  - intros line options t Hblank. unfold processLine.
    now rewrite blank_line, Hblank.
Qed.

Context {path : PathModule}.

(** X18: when the version probe of the downloader fails, [main] of
    entry point A prints how to install it and returns (exit status 0)
    without asking for metadata, prompting or downloading. *)
Theorem main_A_not_configured (w : World) (args : list jsstring)
    (options : EntryA.Options) (url : jsstring) (rest : list jsstring)
    (e : jsstring) :
  existsb (str_eqb (lit "--help")) args = false ->
  EntryA.parseArgs args EntryA.noOptions [] = Some (options, url :: rest) ->
  includes (lit "youtube.com") url = true
  \/ includes (lit "youtu.be") url = true ->
  versionProbe w = Some e ->
  EntryA.main w args [] = ([YoutubedlVersion; Console NotConfigured], Normal tt)
  /\ exit_status (snd (EntryA.main w args [])) = 0%Z.
Proof.
  intros Hhelp Hparse Hurl Hprobe.
  assert (Hargs : (length args =? 0)%nat = false).
  { destruct args; [discriminate Hparse | reflexivity]. }
  assert (Hvalid : (negb (includes (lit "youtube.com") url)
                    && negb (includes (lit "youtu.be") url))%bool = false).
  { destruct Hurl as [-> | ->]; [reflexivity | apply andb_false_r]. }
  assert (Hmain : EntryA.main w args []
                  = ([YoutubedlVersion; Console NotConfigured], Normal tt)).
  { unfold EntryA.main. rewrite Hhelp, Hargs, Hparse. cbn [orb].
    rewrite Hvalid. unfold EntryA.run, EntryA.checkYoutubeDl. on_trace.
    now rewrite Hprobe. }
  now rewrite Hmain.
Qed.

End BatchCoverage.

Section BatchCoverageWitness.

Import Host Path Scenario Coverage Batch.

(** The theorem in the world where no file exists. *)
Lemma batch_edges_witness :
  existsSync readOnly (inputFileOf []) = false
  /\ script readOnly [] []
     = ([ExistsSync (lit "ise.txt"); Console (FileMissing (lit "ise.txt"))],
        Exited 1%Z).
Proof.
  destruct (@batch_edges readOnly [] eq_refl) as (Hscript & _).
  split; [reflexivity | exact Hscript].
Defined.

(** The theorem in the world without the downloader. *)
Lemma main_A_not_configured_witness :
  let url := lit "https://youtu.be/aaaaaaaaaaa" in
  EntryA.parseArgs [url; lit "--auto"] EntryA.noOptions []
  = Some (EntryA.with_auto EntryA.noOptions, [url])
  /\ versionProbe notInstalled = Some (lit "spawn yt-dlp ENOENT")
  /\ EntryA.main (path := posix) notInstalled [url; lit "--auto"] []
     = ([YoutubedlVersion; Console NotConfigured], Normal tt).
Proof.
  intros url.
  destruct (@main_A_not_configured posix notInstalled [url; lit "--auto"]
              (EntryA.with_auto EntryA.noOptions) url []
              (lit "spawn yt-dlp ENOENT") eq_refl eq_refl
              (or_intror eq_refl) eq_refl) as (Hmain & _).
  split; [reflexivity|]. split; [reflexivity | exact Hmain].
Defined.

End BatchCoverageWitness.
